(** * SmartSeva: session memory isolation and query orchestration

    A shallow embedding of [core/memory_manager.py] and
    [core/rag_engine.py], with the properties of the session memory
    layer, of context assembly and of the query pipeline proved over it.

    Python values are modelled as follows.
    - [str] is [string]; characters are read as code points below 256.
    - [int] is [Z]; list lengths and loop indices are [nat].
    - a [float] relevance score is an IEEE 754 binary64 number, a
      [spec_float] with the operations of [SpecFloat] at precision 53:
      comparisons, addition and division round as Python's do.
    - clock readings are exact rationals [Q].
    - the [dict] of chat memories is a [gmap string _].
    - the module-level logger, [uuid.uuid4] and the record of calls to
      external services are fields of one [World], threaded through every
      operation by a state monad. *)

From Stdlib Require Import QArith Ascii Floats.SpecFloat.

From stdpp Require Import gmap strings list pretty sorting.

Local Open Scope Z_scope.

(** * Part I: the embedding *)

(** ** Python helpers *)

(** [l[-n:]] for a positive [n]: the last [n] elements, all of [l] when it
    is shorter. *)
Definition slice_last {A} (n : nat) (l : list A) : list A :=
  drop (length l - n)%nat l.

(** Truthiness of a [str]. *)
Definition truthy (s : string) : bool :=
  match s with EmptyString => false | String _ _ => true end.

(** ** Python floats *)

(** A [float] is a binary64 number: 53 bits of precision, exponents
    below 1024, every operation rounded to the nearest number, ties to
    even.  [x + y], [x / y] and [x >= y] on floats are [float_add],
    [float_div] and [float_ge]; a comparison with a NaN is false. *)
Global Instance spec_float_eq_dec : EqDecision spec_float.
Proof. solve_decision. Defined.

Definition float_add (x y : spec_float) : spec_float := SFadd 53 1024 x y.

Definition float_div (x y : spec_float) : spec_float := SFdiv 53 1024 x y.

Definition float_ge (x y : spec_float) : bool := SFleb y x.

(** [float(n)] for a non-negative [int]: the conversion Python applies
    to the [int] operand of [+] or [/] when the other one is a float. *)
Definition float_of_nat (n : nat) : spec_float :=
  binary_normalize 53 1024 (Z.of_nat n) 0 false.

(** [0.0], also what the [int] [0] is as an operand of float
    arithmetic; the two are equal in Python. *)
Definition float_zero : spec_float := S754_zero false.

(** The literals [0.3] and [0.5]: [5404319552844595 / 2^54] is the
    binary64 number nearest to three tenths, [0.5] is [2^52 / 2^53]. *)
Definition float_0_3 : spec_float := S754_finite false 5404319552844595 (-54).

Definition float_0_5 : spec_float := S754_finite false 4503599627370496 (-53).

(** ** langchain: the window memory *)

(** [ConversationBufferWindowMemory] is the library class the manager
    instantiates.  Its chat history receives two messages per
    [save_context]; its [buffer], which is what [load_memory_variables]
    returns under the key ["history"], is [messages[-k*2:]] when [k > 0]
    and the empty list otherwise.  The manager always passes
    [return_messages=True], so the buffer is a list of messages. *)
Module Langchain.

Inductive BaseMessage : Type :=
| HumanMessage (content : string)
| AIMessage (content : string).

Global Instance BaseMessage_eq_dec : EqDecision BaseMessage.
Proof. solve_decision. Defined.

Record ConversationBufferWindowMemory : Type := mkMemory {
  k : Z;
  messages : list BaseMessage
}.

Definition new (k : Z) : ConversationBufferWindowMemory :=
  {| k := k; messages := [] |}.

Definition save_context (input output : string)
    (m : ConversationBufferWindowMemory) : ConversationBufferWindowMemory :=
  {| k := k m; messages := messages m ++ [HumanMessage input; AIMessage output] |}.

Definition buffer (m : ConversationBufferWindowMemory) : list BaseMessage :=
  if 0 <? k m then slice_last (Z.to_nat (k m * 2)) (messages m) else [].

Definition load_memory_variables (m : ConversationBufferWindowMemory)
    : list BaseMessage := buffer m.

Definition clear (m : ConversationBufferWindowMemory)
    : ConversationBufferWindowMemory :=
  {| k := k m; messages := [] |}.

End Langchain.

Import Langchain.

(** ** config/settings.py *)

Definition MEMORY_CONFIG_window_size : Z := 6.

(** ** The world the operations run in *)

Inductive LogLevel : Type := DEBUG | INFO | WARNING | ERROR.

(** One constructor per log line of the two modules; the arguments are
    the values interpolated into the line. *)
Inductive LogMsg : Type :=
| CreatedMemory (chat_id : string)
| SwitchedTo (chat_id : string)
| NoActiveCannotSave
| ContextSaved (current : option string)
| NoActiveEmptyHistory
| LoadedVariables (current : option string)
| NoActiveToClear
| ClearedMemory (current : option string)
| DeletedMemory (chat_id : string)
| NotFoundForDeletion (chat_id : string)
| FailedToSwitch (chat_id : string)
| FailedToClear (chat_id : string)
| NoMessagesToLoad (chat_id : string)
| InvalidMessagePair (i : nat) (chat_id : string)
| FailedToSavePair (chat_id : string)
| LoadedPairs (loaded total : nat) (chat_id : string)
| NoDocumentsRetrieved (query : string)
| ProcessingDocuments (n : nat) (chat_id : option string)
| ContextRetrievalError
| ProcessingQuery (chat_id : option string) (query : string)
| InvalidQuery (reason : string)
| SwitchFailedContinuing (chat_id : string)
| ChainNotAvailable
| ChainInitialized
| ChainInitFailed
| ChainRecreateFailed
| SystemUnavailable
| ContextHistoryError
| TimeoutReached
| QueryProcessed (chunk_count : nat)
| SavedToChat (chat_id : option string)
| SaveToChatFailed (chat_id : option string)
| EmptyResponse
| ProcessingError (e : string).

Record LogRecord : Type := mkLog { level : LogLevel; msg : LogMsg }.

Global Instance LogLevel_eq_dec : EqDecision LogLevel.
Proof. solve_decision. Defined.

Global Instance LogMsg_eq_dec : EqDecision LogMsg.
Proof. solve_decision. Defined.

Global Instance LogRecord_eq_dec : EqDecision LogRecord.
Proof. solve_decision. Defined.

(** What the chain is given and what it asks of its collaborators. *)
Record ChainInput : Type := mkChainInput {
  ci_input : string;
  ci_chat_id : option string
}.

Record PromptInput : Type := mkPrompt {
  p_context : string;
  p_history : list BaseMessage;
  p_input : string;
  p_sources : list (string * string);
  p_relevance_score : spec_float
}.

Inductive Call : Type :=
| Retrieve (query : string)
| Generate (prompt : PromptInput).

(** [ChatMemoryManager]: the fields set by [__init__]. *)
Record ChatMemoryManager : Type := mkManager {
  chat_memories : gmap string ConversationBufferWindowMemory;
  current_chat_id : option string;
  max_memory_size : Z
}.

(** [MEMORY_CONFIG.get("window_size", 10)] is 6 with the settings of the
    repository. *)
Definition ChatMemoryManager_init : ChatMemoryManager :=
  {| chat_memories := ∅;
     current_chat_id := None;
     max_memory_size := MEMORY_CONFIG_window_size |}.

(** [uuid4 n] is the value of the [n]-th call to [uuid.uuid4()];
    [uuid_calls] counts the calls made so far.  [chain] is
    [rag_engine.chain is not None]. *)
Record World : Type := mkWorld {
  memory_manager : ChatMemoryManager;
  chain : bool;
  logs : list LogRecord;
  uuid4 : nat → string;
  uuid_calls : nat;
  calls : list Call
}.

(** ** A state monad over the world *)

Definition M (A : Type) : Type := World → A * World.

Global Instance M_ret : MRet M := λ A a w, (a, w).

Global Instance M_bind : MBind M := λ A B f c w, let '(a, w') := c w in f a w'.

Definition get_manager : M ChatMemoryManager := λ w, (memory_manager w, w).

Definition put_manager (mgr : ChatMemoryManager) : M unit := λ w,
  (tt, {| memory_manager := mgr; chain := chain w; logs := logs w;
          uuid4 := uuid4 w; uuid_calls := uuid_calls w; calls := calls w |}).

Definition logger (lv : LogLevel) (m : LogMsg) : M unit := λ w,
  (tt, {| memory_manager := memory_manager w; chain := chain w;
          logs := logs w ++ [mkLog lv m];
          uuid4 := uuid4 w; uuid_calls := uuid_calls w; calls := calls w |}).

Definition uuid_uuid4 : M string := λ w,
  (uuid4 w (uuid_calls w),
   {| memory_manager := memory_manager w; chain := chain w; logs := logs w;
      uuid4 := uuid4 w; uuid_calls := S (uuid_calls w); calls := calls w |}).

Definition record_call (c : Call) : M unit := λ w,
  (tt, {| memory_manager := memory_manager w; chain := chain w; logs := logs w;
          uuid4 := uuid4 w; uuid_calls := uuid_calls w;
          calls := calls w ++ [c] |}).

Definition get_chain : M bool := λ w, (chain w, w).

Definition set_chain (b : bool) : M unit := λ w,
  (tt, {| memory_manager := memory_manager w; chain := b; logs := logs w;
          uuid4 := uuid4 w; uuid_calls := uuid_calls w; calls := calls w |}).

Definition when (b : bool) (c : M unit) : M unit := if b then c else mret tt.

(** ** core/memory_manager.py *)

(** Every method wraps its body in [try]/[except] and returns [False] (or
    the empty history) from the handler.  On the types used here no step
    of a body can raise, so the handlers are unreachable and are not
    represented.  [save_context] receives the values stored under
    ["input"] and ["output"]. *)

Definition set_chat_memory (chat_id : string)
    (mem : ConversationBufferWindowMemory) (mgr : ChatMemoryManager)
    : ChatMemoryManager :=
  {| chat_memories := <[chat_id := mem]> (chat_memories mgr);
     current_chat_id := current_chat_id mgr;
     max_memory_size := max_memory_size mgr |}.

Definition set_current_chat_id (c : option string) (mgr : ChatMemoryManager)
    : ChatMemoryManager :=
  {| chat_memories := chat_memories mgr;
     current_chat_id := c;
     max_memory_size := max_memory_size mgr |}.

Definition del_chat_memory (chat_id : string) (mgr : ChatMemoryManager)
    : ChatMemoryManager :=
  {| chat_memories := delete chat_id (chat_memories mgr);
     current_chat_id := current_chat_id mgr;
     max_memory_size := max_memory_size mgr |}.

(** [create_new_chat_memory]: an absent (falsy) identifier is replaced
    by a uuid; the entry of the identifier is then assigned a fresh
    memory, whatever it held before. *)
Definition create_new_chat_memory (chat_id : string) : M string :=
  chat_id ← (if negb (truthy chat_id) then uuid_uuid4 else mret chat_id);
  mgr ← get_manager;
  put_manager (set_chat_memory chat_id (Langchain.new (max_memory_size mgr)) mgr);;
  logger INFO (CreatedMemory chat_id);;
  mret chat_id.

Definition switch_to_chat (chat_id : string) : M bool :=
  mgr ← get_manager;
  (if bool_decide (chat_memories mgr !! chat_id = None)
   then create_new_chat_memory chat_id ≫= λ _, mret tt
   else mret tt);;
  mgr ← get_manager;
  put_manager (set_current_chat_id (Some chat_id) mgr);;
  logger INFO (SwitchedTo chat_id);;
  mret true.

(** [get_current_memory]: the focused identifier must be truthy and
    present in the registry. *)
Definition get_current_memory (mgr : ChatMemoryManager)
    : option ConversationBufferWindowMemory :=
  match current_chat_id mgr with
  | Some c => if truthy c then chat_memories mgr !! c else None
  | None => None
  end.

(** The memory object is shared: updating "the current memory" updates
    the registry entry of the focused identifier. *)
Definition update_current_memory
    (f : ConversationBufferWindowMemory → ConversationBufferWindowMemory)
    : M unit :=
  mgr ← get_manager;
  match current_chat_id mgr with
  | Some c => put_manager
      {| chat_memories := alter f c (chat_memories mgr);
         current_chat_id := current_chat_id mgr;
         max_memory_size := max_memory_size mgr |}
  | None => mret tt
  end.

Definition save_context (input output : string) : M bool :=
  mgr ← get_manager;
  match get_current_memory mgr with
  | None => logger WARNING NoActiveCannotSave;; mret false
  | Some _ =>
      update_current_memory (Langchain.save_context input output);;
      logger INFO (ContextSaved (current_chat_id mgr));;
      mret true
  end.

Definition load_memory_variables : M (list BaseMessage) :=
  mgr ← get_manager;
  match get_current_memory mgr with
  | None => logger WARNING NoActiveEmptyHistory;; mret []
  | Some current_memory =>
      logger DEBUG (LoadedVariables (current_chat_id mgr));;
      mret (Langchain.load_memory_variables current_memory)
  end.

Definition clear_current_chat_memory : M bool :=
  mgr ← get_manager;
  match get_current_memory mgr with
  | None => logger WARNING NoActiveToClear;; mret false
  | Some _ =>
      update_current_memory Langchain.clear;;
      logger INFO (ClearedMemory (current_chat_id mgr));;
      mret true
  end.

Definition delete_chat_memory (chat_id : string) : M bool :=
  mgr ← get_manager;
  if bool_decide (is_Some (chat_memories mgr !! chat_id)) then
    put_manager (del_chat_memory chat_id mgr);;
    mgr ← get_manager;
    when (bool_decide (current_chat_id mgr = Some chat_id))
         (put_manager (set_current_chat_id None mgr));;
    logger INFO (DeletedMemory chat_id);;
    mret true
  else
    logger WARNING (NotFoundForDeletion chat_id);;
    mret false.

(** A message of a persisted transcript, as [json.load] returns it: any
    value that is not a [dict], or a [dict] whose ["role"] and
    ["content"] entries may be missing. *)
Inductive PyMessage : Type :=
| NotADict
| Dict (role content : option string).

Definition isinstance_dict (m : PyMessage) : bool :=
  match m with NotADict => false | Dict _ _ => true end.

Definition get_role (m : PyMessage) : option string :=
  match m with NotADict => None | Dict r _ => r end.

Definition get_content (m : PyMessage) : option string :=
  match m with NotADict => None | Dict _ c => c end.

(** [m["content"]], read only after the pair was validated. *)
Definition content_of (m : PyMessage) : string := default "" (get_content m).

Definition valid_message_pair (user_msg assistant_msg : PyMessage) : bool :=
  isinstance_dict user_msg && isinstance_dict assistant_msg
  && bool_decide (get_role user_msg = Some "user")
  && bool_decide (get_role assistant_msg = Some "Virtual Assistant")
  && truthy (default "" (get_content user_msg))
  && truthy (default "" (get_content assistant_msg)).

(** The loop [for i in range(0, len(chat_messages) - 1, 2)]: the body
    runs on the messages at [i] and [i + 1]; a last message without a
    partner is never visited. *)
Fixpoint collect_message_pairs (chat_id : string) (i : nat)
    (chat_messages : list PyMessage) : M (list (string * string)) :=
  match chat_messages with
  | user_msg :: assistant_msg :: rest =>
      if valid_message_pair user_msg assistant_msg then
        message_pairs ← collect_message_pairs chat_id (i + 2) rest;
        mret ((content_of user_msg, content_of assistant_msg) :: message_pairs)
      else
        logger WARNING (InvalidMessagePair i chat_id);;
        collect_message_pairs chat_id (i + 2) rest
  | _ => mret []
  end.

(** The loop over [recent_pairs]; the result is [loaded_pairs]. *)
Fixpoint load_recent_pairs (chat_id : string)
    (recent_pairs : list (string * string)) : M nat :=
  match recent_pairs with
  | [] => mret 0%nat
  | (user_content, assistant_content) :: rest =>
      saved ← save_context user_content assistant_content;
      when (negb saved) (logger WARNING (FailedToSavePair chat_id));;
      loaded_pairs ← load_recent_pairs chat_id rest;
      mret (match saved with true => S loaded_pairs | false => loaded_pairs end)
  end.

Definition max_pairs_of (max_memory_size : Z) : Z :=
  Z.max 1 (max_memory_size `div` 2).

Definition load_chat_messages_from_history (chat_id : string)
    (chat_messages : list PyMessage) : M bool :=
  switched ← switch_to_chat chat_id;
  if negb switched then
    logger ERROR (FailedToSwitch chat_id);; mret false
  else
    cleared ← clear_current_chat_memory;
    when (negb cleared) (logger WARNING (FailedToClear chat_id));;
    match chat_messages with
    | [] => logger INFO (NoMessagesToLoad chat_id);; mret true
    | _ =>
        message_pairs ← collect_message_pairs chat_id 0 chat_messages;
        mgr ← get_manager;
        let max_pairs := max_pairs_of (max_memory_size mgr) in
        let recent_pairs :=
          if bool_decide (max_pairs < Z.of_nat (length message_pairs))
          then slice_last (Z.to_nat max_pairs) message_pairs
          else message_pairs in
        loaded_pairs ← load_recent_pairs chat_id recent_pairs;
        logger INFO (LoadedPairs loaded_pairs (length recent_pairs) chat_id);;
        mret (bool_decide (0 < loaded_pairs)%nat)
    end.

(** ** core/rag_engine.py *)

(** A retrieved object.  [page_content] is [None] when the object has
    no such attribute, so that [doc.page_content] raises;  [metadata]
    stands for [getattr(doc, 'metadata', {})], a [dict] whose entries
    are strings, and [relevance_score] for the optional attribute read
    with [getattr(doc, 'relevance_score', 0.5)], a [float] when it is
    there. *)
Record Metadata : Type := mkMetadata {
  filename : option string;
  page : option string
}.

Record Document : Type := mkDocument {
  page_content : option string;
  metadata : Metadata;
  relevance_score : option spec_float
}.

(** [getattr(d, 'relevance_score', 0.5)]. *)
Definition score (d : Document) : spec_float :=
  match relevance_score d with
  | Some x => x
  | None => float_0_5
  end.

Definition relevance_threshold : spec_float := float_0_3.

Definition max_docs : nat := 5.

(** [sorted(documents, key=score, reverse=True)]: Python's sort is
    stable, also under [reverse=True].  Each document is placed behind
    the documents of strictly greater score and before the others.  The
    order of the result is that of Python when no score is a NaN; with a
    NaN among the scores Python's order depends on the runs its merge
    sort finds, and no statement is made about it. *)
Fixpoint insert_by_score (d : Document) (l : list Document) : list Document :=
  match l with
  | [] => [d]
  | y :: l' =>
      if float_ge (score d) (score y) then d :: y :: l'
      else y :: insert_by_score d l'
  end.

Definition sorted_by_score (documents : list Document) : list Document :=
  foldr insert_by_score [] documents.

Definition select_documents (documents : list Document) : list Document :=
  let sorted_docs := sorted_by_score documents in
  let filtered_docs :=
    List.filter (λ doc, float_ge (score doc) relevance_threshold) sorted_docs in
  take max_docs filtered_docs.

Definition newline : string := String "010"%char "".

Definition source_of (i : nat) (doc : Document) : string :=
  default ("Document " +:+ pretty i) (filename (metadata doc)).

Definition page_of (doc : Document) : string :=
  default "Unknown" (page (metadata doc)).

(** The f-string of the loop, [content] being [doc.page_content]. *)
Definition formatted_content (i : nat) (doc : Document) (content : string)
    : string :=
  "Source " +:+ pretty i +:+ " (from " +:+ source_of i doc +:+ "):" +:+ newline
    +:+ content.

Record EnhancedContext : Type := mkContext {
  context : string;
  sources : list (string * string);
  relevance : spec_float
}.

Definition no_information_text : string :=
  "No specific service information found for this query. Please try rephrasing your question or contact a government helpline number.".

Definition low_relevance_text : string :=
  "No highly relevant BSK service information found.".

Definition error_context_text : string :=
  "Error retrieving context. Please try again.".

(** The loop over [enumerate(selected_docs, 1)]; [None] when an
    iteration raises, which it does on a document without
    [page_content].  [total_relevance] starts as the [int] [0] and is a
    float from the first addition on. *)
Fixpoint context_loop (i : nat) (selected_docs : list Document)
    (context_parts : list string) (sources : list (string * string))
    (total_relevance : spec_float)
    : option (list string * list (string * string) * spec_float) :=
  match selected_docs with
  | [] => Some (context_parts, sources, total_relevance)
  | doc :: rest =>
      match page_content doc with
      | None => None
      | Some content =>
          context_loop (S i) rest
            (context_parts ++ [formatted_content i doc content])
            (sources ++ [(source_of i doc, page_of doc)])
            (float_add total_relevance (score doc))
      end
  end.

(** The body runs under [try]; the handler logs the error and returns
    the fixed error record.  The code gives the relevance [0.0] for an
    empty retrieval and in the handler, and the [int] [0] when no
    document is selected; both are [float_zero] here. *)
Definition _get_enhanced_context (documents : list Document) (query : string)
    (chat_id : option string) : M EnhancedContext :=
  match documents with
  | [] =>
      logger INFO (NoDocumentsRetrieved query);;
      mret {| context := no_information_text; sources := [];
              relevance := float_zero |}
  | _ =>
      logger INFO (ProcessingDocuments (length documents) chat_id);;
      let selected_docs := select_documents documents in
      match context_loop 1 selected_docs [] [] float_zero with
      | Some (context_parts, sources, total_relevance) =>
          let avg_relevance :=
            match selected_docs with
            | [] => float_zero
            | _ => float_div total_relevance
                     (float_of_nat (length selected_docs))
            end in
          mret {| context :=
                    match context_parts with
                    | [] => low_relevance_text
                    | _ => String.concat (newline +:+ newline) context_parts
                    end;
                  sources := sources;
                  relevance := avg_relevance |}
      | None =>
          logger ERROR ContextRetrievalError;;
          mret {| context := error_context_text; sources := [];
                  relevance := float_zero |}
      end
  end.

(** Whether [_create_enhanced_rag_chain] yields a chain depends on the
    vector store module, which is outside these sources; its outcome is
    a field of the environment of a call.  The other fields are the
    clock reading taken on entry, the retriever ([None] when it raises)
    and the fragments the completion service streams for a prompt. *)
Inductive Stream : Type :=
| StreamEnd
| StreamRaise (e : string)
| StreamChunk (chunk : string) (now : Q) (rest : Stream).

Record Env : Type := mkEnv {
  start_time : Q;
  chain_creatable : bool;
  retriever_invoke : string → option (list Document);
  llm_stream : PromptInput → Stream
}.

Definition _initialize_chain (env : Env) : M unit :=
  set_chain (chain_creatable env);;
  if chain_creatable env then logger INFO ChainInitialized
  else logger WARNING ChainInitFailed.

Definition _ensure_chain_availability (env : Env) : M bool :=
  available ← get_chain;
  when (negb available)
       (logger INFO ChainNotAvailable;; _initialize_chain env);;
  available ← get_chain;
  match available with
  | false => logger ERROR ChainRecreateFailed;; mret false
  | true => mret true
  end.

Definition get_context_and_history (env : Env) (x : ChainInput) : M PromptInput :=
  let query := ci_input x in
  let chat_id := ci_chat_id x in
  record_call (Retrieve query);;
  match retriever_invoke env query with
  | Some documents =>
      context_info ← _get_enhanced_context documents query chat_id;
      match chat_id with
      | Some c => when (truthy c) (switch_to_chat c ≫= λ _, mret tt)
      | None => mret tt
      end;;
      history ← load_memory_variables;
      mret {| p_context := context context_info;
              p_history := history;
              p_input := query;
              p_sources := sources context_info;
              p_relevance_score := relevance context_info |}
  | None =>
      logger ERROR ContextHistoryError;;
      mret {| p_context := "Error retrieving information. Please try again.";
              p_history := [];
              p_input := query;
              p_sources := [];
              p_relevance_score := float_zero |}
  end.

(** [self.chain.stream(chain_input)]: the first step of the chain builds
    the prompt, the completion service then streams its fragments. *)
Definition chain_stream (env : Env) (x : ChainInput) : M Stream :=
  prompt ← get_context_and_history env x;
  record_call (Generate prompt);;
  mret (llm_stream env prompt).

(** Python's [str.isspace] on the code points below 256. *)
Definition isspace (a : ascii) : bool :=
  let n := nat_of_ascii a in
  ((9 <=? n) && (n <=? 13) || (28 <=? n) && (n <=? 32)
   || (n =? 133) || (n =? 160))%nat.

Fixpoint lstrip (s : string) : string :=
  match s with
  | EmptyString => EmptyString
  | String a s' => if isspace a then lstrip s' else s
  end.

Definition rstrip (s : string) : string := String.rev (lstrip (String.rev s)).

Definition strip (s : string) : string := rstrip (lstrip s).

(** [str.lower] on the code points below 256. *)
Definition lower_char (a : ascii) : ascii :=
  let n := nat_of_ascii a in
  if ((65 <=? n) && (n <=? 90) || (192 <=? n) && (n <=? 222) && negb (n =? 215))%nat
  then ascii_of_nat (n + 32) else a.

Fixpoint lower (s : string) : string :=
  match s with
  | EmptyString => EmptyString
  | String a s' => String (lower_char a) (lower s')
  end.

(** [needle in s]. *)
Fixpoint contains (needle s : string) : bool :=
  String.prefix needle s ||
  match s with
  | EmptyString => false
  | String _ s' => contains needle s'
  end.

Inductive Validation : Type :=
| Invalid (reason : string)
| Valid (processed_query : string).

Definition max_query_length : nat := 2000.

Definition _validate_query (query : string) : Validation :=
  if negb (truthy query) || negb (truthy (strip query)) then
    Invalid "Empty query"
  else if (String.length (strip query) <? 1)%nat then
    Invalid "Query too short"
  else if (max_query_length <? String.length query)%nat then
    Invalid "Query too long"
  else Valid (strip query).

(** The streaming loop of [process_query].  A fragment is forwarded only
    if it is not empty; the clock is read after each forwarded fragment
    and the loop is left once more than 60 seconds have passed. *)
Inductive Outcome : Type :=
| Finished (full_response : string) (chunk_count : nat)
           (yielded : list string) (timed_out : bool)
| Faulted (yielded : list string) (e : string).

Definition streaming_timeout : Q := 60.

Fixpoint stream_loop (start : Q) (s : Stream) (full_response : string)
    (chunk_count : nat) (yielded : list string) : Outcome :=
  match s with
  | StreamEnd => Finished full_response chunk_count yielded false
  | StreamRaise e => Faulted yielded e
  | StreamChunk chunk now rest =>
      if truthy chunk then
        if negb (Qle_bool (now - start) streaming_timeout)
        then Finished (full_response +:+ chunk) (S chunk_count)
                      (yielded ++ [chunk]) true
        else stream_loop start rest (full_response +:+ chunk) (S chunk_count)
                         (yielded ++ [chunk])
      else stream_loop start rest full_response chunk_count yielded
  end.

Definition error_fragment (e : string) : string :=
  if contains "rate limit" (lower e) then
    "Rate limit exceeded. Please wait a moment and try again."
  else if contains "timeout" (lower e) then
    "Request timed out. Please try with a shorter query."
  else if contains "context" (lower e) then
    "Context processing error. Please ensure documents are properly loaded."
  else "An error occurred while processing your query. Please try again.".

Definition unavailable_text : string :=
  "RAG system is currently unavailable. Please ensure documents are loaded and try again.".

(** [process_query] is a generator; its value here is the list of the
    fragments it yields when it is run to its end. *)
Definition process_query (env : Env) (query : string) (chat_id : option string)
    : M (list string) :=
  logger INFO (ProcessingQuery chat_id query);;
  match _validate_query query with
  | Invalid reason =>
      let error_msg := "Invalid query: " +:+ reason in
      logger WARNING (InvalidQuery reason);;
      mret [error_msg]
  | Valid processed_query =>
      match chat_id with
      | Some c =>
          when (truthy c)
               (switched ← switch_to_chat c;
                when (negb switched) (logger WARNING (SwitchFailedContinuing c)))
      | None => mret tt
      end;;
      available ← _ensure_chain_availability env;
      match available with
      | false => logger ERROR SystemUnavailable;; mret [unavailable_text]
      | true =>
          stream ← chain_stream env (mkChainInput processed_query chat_id);
          match stream_loop (start_time env) stream "" 0 [] with
          | Finished full_response chunk_count yielded timed_out =>
              when timed_out (logger WARNING TimeoutReached);;
              logger INFO (QueryProcessed chunk_count);;
              (if truthy (strip full_response) then
                 save_success ← save_context processed_query full_response;
                 match save_success with
                 | true => logger INFO (SavedToChat chat_id)
                 | false => logger WARNING (SaveToChatFailed chat_id)
                 end
               else logger WARNING EmptyResponse);;
              mret yielded
          | Faulted yielded e =>
              logger ERROR (ProcessingError e);;
              mret (yielded ++ [error_fragment e])
          end
      end
  end.

(** ** Worlds, sessions and runs *)

Definition init_world (uuid4 : nat → string) : World :=
  {| memory_manager := ChatMemoryManager_init; chain := false; logs := [];
     uuid4 := uuid4; uuid_calls := 0; calls := [] |}.

Definition test_uuid4 (n : nat) : string := "uuid-" +:+ pretty n.

Definition user_msg (s : string) : PyMessage := Dict (Some "user") (Some s).

Definition assistant_msg (s : string) : PyMessage :=
  Dict (Some "Virtual Assistant") (Some s).

(** The messages a list of (human, assistant) pairs occupies in a chat
    history. *)
Definition pair_messages (ps : list (string * string)) : list BaseMessage :=
  ps ≫= λ p, [HumanMessage p.1; AIMessage p.2].

(** The buffer and the whole history of a session, empty when the
    session has no memory. *)
Definition buffer_of (w : World) (chat_id : string) : list BaseMessage :=
  from_option Langchain.buffer [] (chat_memories (memory_manager w) !! chat_id).

Definition messages_of (w : World) (chat_id : string) : list BaseMessage :=
  from_option Langchain.messages [] (chat_memories (memory_manager w) !! chat_id).

(** The public operations of the manager and the pipeline entry point,
    as a caller may sequence them. *)
Inductive Op : Type :=
| OpCreate (chat_id : string)
| OpSwitch (chat_id : string)
| OpSave (input output : string)
| OpRead
| OpClear
| OpDelete (chat_id : string)
| OpRehydrate (chat_id : string) (chat_messages : list PyMessage)
| OpQuery (env : Env) (query : string) (chat_id : option string).

Definition run_op (op : Op) : M unit :=
  match op with
  | OpCreate c => create_new_chat_memory c ≫= λ _, mret tt
  | OpSwitch c => switch_to_chat c ≫= λ _, mret tt
  | OpSave i o => save_context i o ≫= λ _, mret tt
  | OpRead => load_memory_variables ≫= λ _, mret tt
  | OpClear => clear_current_chat_memory ≫= λ _, mret tt
  | OpDelete c => delete_chat_memory c ≫= λ _, mret tt
  | OpRehydrate c msgs => load_chat_messages_from_history c msgs ≫= λ _, mret tt
  | OpQuery env query c => process_query env query c ≫= λ _, mret tt
  end.

Fixpoint run_ops (ops : list Op) : M unit :=
  match ops with
  | [] => mret tt
  | op :: ops => run_op op;; run_ops ops
  end.

(** A manager with an empty registry and window size [W]. *)
Definition new_manager (W : Z) : ChatMemoryManager :=
  {| chat_memories := ∅; current_chat_id := None; max_memory_size := W |}.

Definition world_of (mgr : ChatMemoryManager) (uuid4 : nat → string) : World :=
  {| memory_manager := mgr; chain := false; logs := [];
     uuid4 := uuid4; uuid_calls := 0; calls := [] |}.

(** ** The manager after each operation *)

Definition add_logs (ls : list LogRecord) (w : World) : World :=
  {| memory_manager := memory_manager w; chain := chain w;
     logs := logs w ++ ls;
     uuid4 := uuid4 w; uuid_calls := uuid_calls w; calls := calls w |}.

Definition with_manager (mgr : ChatMemoryManager) (w : World) : World :=
  {| memory_manager := mgr; chain := chain w; logs := logs w;
     uuid4 := uuid4 w; uuid_calls := uuid_calls w; calls := calls w |}.

Ltac munfold :=
  unfold mbind, mret, M_bind, M_ret, when, logger, put_manager, get_manager,
    uuid_uuid4, record_call, get_chain, set_chain in *.

(** The identifier [create_new_chat_memory] ends up using. *)
Definition minted_id (chat_id : string) (w : World) : string :=
  if truthy chat_id then chat_id else uuid4 w (uuid_calls w).

(** The manager after [switch_to_chat]. *)
Definition switched (chat_id : string) (w : World) : ChatMemoryManager :=
  let mgr := memory_manager w in
  set_current_chat_id (Some chat_id)
    (match chat_memories mgr !! chat_id with
     | Some _ => mgr
     | None => set_chat_memory (minted_id chat_id w)
                 (Langchain.new (max_memory_size mgr)) mgr
     end).

Global Arguments switched : simpl never.

(** The manager after a [save_context], a [clear] or a [delete]. *)
Definition on_current
    (f : ConversationBufferWindowMemory → ConversationBufferWindowMemory)
    (mgr : ChatMemoryManager) : ChatMemoryManager :=
  match get_current_memory mgr, current_chat_id mgr with
  | Some _, Some c =>
      {| chat_memories := alter f c (chat_memories mgr);
         current_chat_id := current_chat_id mgr;
         max_memory_size := max_memory_size mgr |}
  | _, _ => mgr
  end.

Definition deleted (chat_id : string) (mgr : ChatMemoryManager)
    : ChatMemoryManager :=
  match chat_memories mgr !! chat_id with
  | Some _ =>
      {| chat_memories := delete chat_id (chat_memories mgr);
         current_chat_id :=
           if bool_decide (current_chat_id mgr = Some chat_id) then None
           else current_chat_id mgr;
         max_memory_size := max_memory_size mgr |}
  | None => mgr
  end.

(** ** Transcripts as slots *)

(** A transcript seen as its adjacent slots [(chat_messages[i],
    chat_messages[i+1])], [i] even. *)
Definition Slot : Type := PyMessage * PyMessage.

Definition slot_messages (s : Slot) : list PyMessage := [s.1; s.2].

Definition transcript (slots : list Slot) : list PyMessage :=
  slots ≫= slot_messages.

Definition slot_valid (s : Slot) : bool := valid_message_pair s.1 s.2.

Definition slot_contents (s : Slot) : string * string :=
  (content_of s.1, content_of s.2).

(** The contents of the well-formed slots, in transcript order. *)
Definition valid_contents (slots : list Slot) : list (string * string) :=
  slot_contents <$> filter (λ s, slot_valid s) slots.

Fixpoint slot_warnings (chat_id : string) (i : nat) (slots : list Slot)
    : list LogRecord :=
  match slots with
  | [] => []
  | s :: slots =>
      (if slot_valid s then [] else [mkLog WARNING (InvalidMessagePair i chat_id)])
      ++ slot_warnings chat_id (i + 2) slots
  end.

(** A session is in focus: its identifier is the current one, is truthy
    and has a memory. *)
Definition focused (mgr : ChatMemoryManager) (c : string)
    (m : ConversationBufferWindowMemory) : Prop :=
  current_chat_id mgr = Some c ∧ truthy c = true ∧ chat_memories mgr !! c = Some m.

Definition switch_logs (chat_id : string) (w : World) : list LogRecord :=
  match chat_memories (memory_manager w) !! chat_id with
  | Some _ => []
  | None => [mkLog INFO (CreatedMemory chat_id)]
  end ++ [mkLog INFO (SwitchedTo chat_id)].

(** The memory a session has once it is in focus: its own, or a fresh
    one. *)
Definition memory_or_new (chat_id : string) (w : World)
    : ConversationBufferWindowMemory :=
  default (Langchain.new (max_memory_size (memory_manager w)))
          (chat_memories (memory_manager w) !! chat_id).

(** The pairs rehydration keeps: [message_pairs[-max_pairs:]]. *)
Definition recent_pairs_of (W : Z) (message_pairs : list (string * string))
    : list (string * string) :=
  slice_last (Z.to_nat (max_pairs_of W)) message_pairs.

Definition rehydrated (chat_id : string) (slots : list Slot) (w : World)
    : ChatMemoryManager :=
  let W := max_memory_size (memory_manager w) in
  set_chat_memory chat_id
    (mkMemory (k (memory_or_new chat_id w))
       (pair_messages (recent_pairs_of W (valid_contents slots))))
    (switched chat_id w).

Definition rehydrate_logs (chat_id : string) (slots : list Slot)
    (tail : list PyMessage) (w : World) : list LogRecord :=
  let W := max_memory_size (memory_manager w) in
  let n := length (recent_pairs_of W (valid_contents slots)) in
  switch_logs chat_id w ++ [mkLog INFO (ClearedMemory (Some chat_id))] ++
  match transcript slots ++ tail with
  | [] => [mkLog INFO (NoMessagesToLoad chat_id)]
  | _ => slot_warnings chat_id 0 slots ++
         replicate n (mkLog INFO (ContextSaved (Some chat_id))) ++
         [mkLog INFO (LoadedPairs n n chat_id)]
  end.

(** ** The registry invariant *)

(** Every memory of the registry was created with [k = max_memory_size]
    and its history is a sequence of whole (human, assistant) pairs. *)
Definition memory_ok (W : Z) (m : ConversationBufferWindowMemory) : Prop :=
  k m = W ∧ ∃ ps, messages m = pair_messages ps.

Definition manager_ok (W : Z) (mgr : ChatMemoryManager) : Prop :=
  max_memory_size mgr = W ∧
  ∀ c m, chat_memories mgr !! c = Some m → memory_ok W m.

Definition preserves (W : Z) {A} (c : M A) : Prop :=
  ∀ w, manager_ok W (memory_manager w) → manager_ok W (memory_manager (c w).2).

(** The transcript of a list of (question, answer) pairs as the session
    store holds it. *)
Definition pair_slot (p : string * string) : Slot :=
  (user_msg p.1, assistant_msg p.2).

Definition stored_transcript (ps : list (string * string)) : list PyMessage :=
  transcript (pair_slot <$> ps).

Definition non_empty_pair (p : string * string) : Prop :=
  truthy p.1 = true ∧ truthy p.2 = true.

Definition seven_pairs : list (string * string) :=
  [("q1", "a1"); ("q2", "a2"); ("q3", "a3"); ("q4", "a4");
   ("q5", "a5"); ("q6", "a6"); ("q7", "a7")].

(** A transcript with three malformed slots between two well-formed
    ones: an assistant turn under another role tag, a user turn without
    content and an assistant turn with empty content. *)
Definition malformed_slots : list Slot :=
  [(user_msg "q1", assistant_msg "a1");
   (user_msg "q2", Dict (Some "assistant") (Some "a2"));
   (Dict (Some "user") None, assistant_msg "a3");
   (user_msg "q4", Dict (Some "Virtual Assistant") (Some ""));
   (user_msg "q5", assistant_msg "a5")].

(** Four well-formed slots around a malformed one. *)
Definition four_around_one : list Slot :=
  [(user_msg "q1", assistant_msg "a1");
   (Dict (Some "user") None, assistant_msg "a");
   (user_msg "q2", assistant_msg "a2");
   (user_msg "q3", assistant_msg "a3");
   (user_msg "q4", assistant_msg "a4")].

(** One turn of each side under the role tags ["user"] and
    ["assistant"]. *)
Definition assistant_tagged : list PyMessage :=
  [Dict (Some "user") (Some "q1"); Dict (Some "assistant") (Some "a1")].

(** The operations that commit a list of pairs to session [c]. *)
Definition commit_ops (c : string) (ps : list (string * string)) : list Op :=
  OpSwitch c :: ((λ p, OpSave p.1 p.2) <$> ps).

(** A world in which session ["s"] is in focus and holds one pair. *)
Definition one_pair_world : World :=
  (run_ops [OpSwitch "s"; OpSave "q" "a"] (init_world test_uuid4)).2.

(** ** Scores *)

Global Instance Qeq_decision (x y : Q) : Decision (x == y)%Q := Qeq_dec x y.

Global Instance Qle_decision (x y : Q) : Decision (x <= y)%Q :=
  match Qlt_le_dec y x with
  | left H => right (Qlt_not_le _ _ H)
  | right H => left H
  end.

(** The comparisons [x <= y], [x < y] and [x == y] of Python on floats,
    as propositions.  None of them holds of a NaN; [0.0] and [-0.0] are
    equal. *)
Definition float_le (x y : spec_float) : Prop := SFleb x y = true.

Definition float_lt (x y : spec_float) : Prop := SFltb x y = true.

Definition float_eq (x y : spec_float) : Prop := SFeqb x y = true.

Global Instance float_le_dec x y : Decision (float_le x y).
Proof. unfold float_le. apply _. Defined.

Global Instance float_lt_dec x y : Decision (float_lt x y).
Proof. unfold float_lt. apply _. Defined.

Global Instance float_eq_dec x y : Decision (float_eq x y).
Proof. unfold float_eq. apply _. Defined.

(** The position of a float that is not a NaN in the order of the
    comparisons: sign class, exponent and mantissa, compared in that
    order.  [SpecFloat] compares finite numbers of one sign by exponent
    first, which is the order of their values on the numbers of the
    format, whose mantissas have 53 bits except at the least exponent. *)
Definition float_rank (x : spec_float) : Z * Z * Z :=
  match x with
  | S754_nan => (0, 0, 0)
  | S754_zero _ => (0, 0, 0)
  | S754_infinity s => (if s then -2 else 2, 0, 0)
  | S754_finite s m e => if s then (-1, - e, - Z.pos m) else (1, e, Z.pos m)
  end.

Definition rank_lt (a b : Z * Z * Z) : Prop :=
  a.1.1 < b.1.1 ∨
  (a.1.1 = b.1.1 ∧ (a.1.2 < b.1.2 ∨ (a.1.2 = b.1.2 ∧ a.2 < b.2))).

(** Descending order of scores. *)
Definition score_ge (a b : Document) : Prop := float_le (score b) (score a).

(** The sum the loop accumulates, from [0] and in the order of the
    list, and what the code returns as the mean of the scores of a list
    of documents: that sum divided by their number, each operation
    rounded. *)
Definition float_sum (l : list spec_float) : spec_float :=
  foldl float_add float_zero l.

Definition mean_score (l : list Document) : spec_float :=
  match l with
  | [] => float_zero
  | _ => float_div (float_sum (score <$> l)) (float_of_nat (length l))
  end.

(** The documents whose text can be read. *)
Definition has_content (d : Document) : Prop := is_Some (page_content d).

Definition text_of (d : Document) : string := default "" (page_content d).

(** The record the handler of [_get_enhanced_context] returns. *)
Definition error_context : EnhancedContext :=
  {| context := error_context_text; sources := []; relevance := float_zero |}.

(** The float literal with the decimal digits of [n / 10], which is the
    float nearest to that fraction, as is the quotient of the two
    integers. *)
Definition tenths (n : nat) : spec_float :=
  float_div (float_of_nat n) (float_of_nat 10).

Definition doc (content : string) (s : option spec_float) : Document :=
  {| page_content := Some content;
     metadata := {| filename := None; page := None |};
     relevance_score := s |}.


Definition sample_documents : list Document :=
  [doc "a" (Some (tenths 2)); doc "b" None; doc "c" (Some (tenths 9));
   doc "d" (Some (tenths 5)); doc "e" (Some (tenths 3)); doc "f" (Some (tenths 9));
   doc "g" (Some (tenths 10)); doc "h" (Some (tenths 4))].

(** ** Queries and streams *)

Fixpoint whitespace_only (s : string) : bool :=
  match s with
  | EmptyString => true
  | String a s' => isspace a && whitespace_only s'
  end.

(** A stream that first delivers the fragments of [pre], each with the
    clock reading that follows it, and then goes on as [tail]. *)
Definition prepend (pre : list (string * Q)) (tail : Stream) : Stream :=
  foldr (λ p s, StreamChunk p.1 p.2 s) tail pre.

(** The fragments of [pre] that are forwarded: the non-empty ones. *)
Definition forwarded (pre : list (string * Q)) : list string :=
  filter (λ s, truthy s) (pre.*1).

(** A fragment that does not end the loop: it is empty, so the clock is
    not read, or the reading after it is within the limit. *)
Definition in_time (start : Q) (p : string * Q) : Prop :=
  truthy p.1 = false ∨ (p.2 - start <= streaming_timeout)%Q.

(** [full_response] after the fragments [l] were appended in turn. *)
Definition concat_fragments (l : list string) : string :=
  foldl String.append "" l.

(** What [process_query] does once the loop is over. *)
Definition after_stream (processed_query : string) (chat_id : option string)
    (o : Outcome) : M (list string) :=
  match o with
  | Finished full_response chunk_count yielded timed_out =>
      when timed_out (logger WARNING TimeoutReached);;
      logger INFO (QueryProcessed chunk_count);;
      (if truthy (strip full_response) then
         save_success ← save_context processed_query full_response;
         match save_success with
         | true => logger INFO (SavedToChat chat_id)
         | false => logger WARNING (SaveToChatFailed chat_id)
         end
       else logger WARNING EmptyResponse);;
      mret yielded
  | Faulted yielded e =>
      logger ERROR (ProcessingError e);;
      mret (yielded ++ [error_fragment e])
  end.

(** Operations that leave the memory manager [mgr] as it is. *)
Definition keeps (mgr : ChatMemoryManager) {A} (c : M A) : Prop :=
  ∀ w, memory_manager w = mgr → memory_manager (c w).2 = mgr.

(** The last fragment forwarded from the rest of a stream that ends the
    loop at once. *)
Definition last_fragment (tail : Stream) : list string :=
  match tail with
  | StreamChunk chunk _ _ => [chunk]
  | _ => []
  end.

Definition late_env : Env :=
  {| start_time := 0;
     chain_creatable := true;
     retriever_invoke := λ _, Some sample_documents;
     llm_stream := λ _,
       prepend [("Hel", 1%Q); ("", 2%Q)]
         (StreamChunk "lo" 61 (StreamChunk "more" 62 StreamEnd)) |}.

(** * Part I, continued: the rest of the modules *)

(** ** core/memory_manager.py: summaries *)

(** The dictionary [get_chat_memory_summary] returns; ["is_current"] is
    present only for a session that has a memory. *)
Record MemorySummary : Type := mkSummary {
  summary_exists : bool;
  summary_message_count : nat;
  summary_is_current : option bool
}.

Definition get_chat_memory_summary (chat_id : string) (mgr : ChatMemoryManager)
    : MemorySummary :=
  match chat_memories mgr !! chat_id with
  | None =>
      {| summary_exists := false; summary_message_count := 0;
         summary_is_current := None |}
  | Some memory =>
      let history := Langchain.load_memory_variables memory in
      {| summary_exists := true;
         summary_message_count := length history;
         summary_is_current :=
           Some (bool_decide (current_chat_id mgr = Some chat_id)) |}
  end.

(** [list(self.chat_memories.keys())].  The keys come in the order of the
    finite map, not in insertion order; the statements below use
    membership and length only. *)
Definition get_all_active_chats (mgr : ChatMemoryManager) : list string :=
  (map_to_list (chat_memories mgr)).*1.

(** ** core/rag_engine.py: status *)

(** [get_chain_status]; whether the vector store is available is asked of
    the vector store module and is an argument here.  The entry
    ["retrieval_config"] is the constant [VECTOR_STORE_CONFIG] and is left
    out. *)
Record ChainStatus : Type := mkStatus {
  chain_available : bool;
  vector_store_available : bool;
  memory_manager_active : bool;
  active_chats : nat
}.

Definition get_chain_status (vector_store_is_available : bool) (w : World)
    : ChainStatus :=
  {| chain_available := chain w;
     vector_store_available := vector_store_is_available;
     memory_manager_active :=
       bool_decide (current_chat_id (memory_manager w) ≠ None);
     active_chats := length (get_all_active_chats (memory_manager w)) |}.

(** ** Vocabulary of the further statements *)

(** The worlds a caller can reach from an empty registry. *)
Definition reachable (W : Z) (w : World) : Prop :=
  ∃ uuid4 ops, w = (run_ops ops (world_of (new_manager W) uuid4)).2.

(** Every transcript is a sequence of slots followed by at most one
    message. *)
Fixpoint slots_of (msgs : list PyMessage) : list Slot :=
  match msgs with
  | u :: a :: rest => (u, a) :: slots_of rest
  | _ => []
  end.

Fixpoint tail_of (msgs : list PyMessage) : list PyMessage :=
  match msgs with
  | _ :: _ :: rest => tail_of rest
  | l => l
  end.

(** Projections of a world rebuilt by [add_logs] and [with_manager]. *)
Ltac wsimpl :=
  cbn [fst snd memory_manager chain logs calls uuid4 uuid_calls
       add_logs with_manager] in *.

(** [lstrip] and [strip] on the list of the characters of a string. *)
Fixpoint lstrip_list (l : list ascii) : list ascii :=
  match l with
  | [] => []
  | a :: l' => if isspace a then lstrip_list l' else l
  end.

Definition strip_list (l : list ascii) : list ascii :=
  reverse (lstrip_list (reverse (lstrip_list l))).

(** Operations that make no call to the retriever or to the completion
    service. *)
Definition keeps_calls {A} (c : M A) : Prop :=
  ∀ w, calls (c w).2 = calls w.

(** The four messages [process_query] can yield for a fault of the
    stream. *)
Definition fault_messages : list string :=
  ["Rate limit exceeded. Please wait a moment and try again.";
   "Request timed out. Please try with a shorter query.";
   "Context processing error. Please ensure documents are properly loaded.";
   "An error occurred while processing your query. Please try again."].

(** The prompt the chain builds for a query on session [c] in world [w]:
    the assembled context of the retrieved documents and the buffer of
    the session, or the fallback when the retriever raises. *)
Definition prompt_for (env : Env) (q : string) (c : string) (w : World)
    : PromptInput :=
  match retriever_invoke env q with
  | Some documents =>
      let context_info := (_get_enhanced_context documents q (Some c) w).1 in
      {| p_context := context context_info;
         p_history := buffer_of w c;
         p_input := q;
         p_sources := sources context_info;
         p_relevance_score := relevance context_info |}
  | None =>
      {| p_context := "Error retrieving information. Please try again.";
         p_history := [];
         p_input := q;
         p_sources := [];
         p_relevance_score := float_zero |}
  end.

(** The world in which [process_query] checks the chain: the first log
    line is written and the session, if one is given, is in focus. *)
Definition entered (query : string) (chat_id : option string) (w : World)
    : World :=
  (match chat_id with
   | Some c =>
       when (truthy c)
            (switched ← switch_to_chat c;
             when (negb switched) (logger WARNING (SwitchFailedContinuing c)))
   | None => mret tt
   end (logger INFO (ProcessingQuery chat_id query) w).2).2.

(** Operations that neither create nor drop the chain. *)
Definition keeps_chain {A} (c : M A) : Prop :=
  ∀ w, chain (c w).2 = chain w.

(** ** services/chat_service.py *)

(** The history file holds one JSON object: chat identifier to chat.
    Python dictionaries and JSON objects keep the order of insertion, and
    [get_all_chats] depends on it, so a dictionary is a list of entries
    with distinct keys.  A chat read from the file may lack any of its
    keys (the code reads most of them with [.get] and a default); a
    message is any JSON value, of which the code reads the keys of an
    object.  Values of other types than the ones the service writes are
    outside this model. *)
Module ChatService.

Inductive StoredMessage : Type :=
| NotAnObject
| MessageObject (seq : option Z) (role content timestamp : option string).

Record Chat : Type := mkChat {
  created_at : option string;
  updated_at : option string;
  title : option string;
  messages : option (list StoredMessage);
  fresh_context : option bool;
  message_count : option Z
}.

(** [key in d], [d.get(key)]. *)
Fixpoint dict_get (key : string) (d : list (string * Chat)) : option Chat :=
  match d with
  | [] => None
  | (k', v) :: d' => if decide (k' = key) then Some v else dict_get key d'
  end.

(** [d[key] = v]: an existing key keeps its place, a new one goes last. *)
Fixpoint dict_set (key : string) (v : Chat) (d : list (string * Chat))
    : list (string * Chat) :=
  match d with
  | [] => [(key, v)]
  | (k', v') :: d' =>
      if decide (k' = key) then (key, v) :: d' else (k', v') :: dict_set key v d'
  end.

(** [del d[key]], for a key that is present. *)
Fixpoint dict_del (key : string) (d : list (string * Chat))
    : list (string * Chat) :=
  match d with
  | [] => []
  | (k', v) :: d' => if decide (k' = key) then d' else (k', v) :: dict_del key d'
  end.

(** The history file: absent, present but not readable as JSON (or not
    readable at all), or holding a dictionary of chats. *)
Inductive FileState : Type :=
| Missing
| Unreadable
| Stored (chat_data : list (string * Chat)).

Inductive ServiceLog : Type :=
| LoadHistoryError
| SaveHistoryError
| CreatedChat (chat_id : string)
| UpdatedTitle (chat_id title : string)
| TitleChatNotFound (chat_id : string)
| SavedMessage (chat_id : string)
| MessageChatNotFound (chat_id : string)
| SaveMessageError (chat_id : string)
| ChatNotFound (chat_id : string)
| DeletedChat (chat_id : string)
| DeleteChatNotFound (chat_id : string)
| CleanedUp (n : nat).

(** What the service acts on: the file, whether it can be opened for
    writing, the clock ([now n] is the value of the [n]-th call of
    [datetime.now().isoformat()]), the uuid source and the log. *)
Record ServiceWorld : Type := mkServiceWorld {
  file : FileState;
  writable : bool;
  now : nat → string;
  now_calls : nat;
  uuid4 : nat → string;
  uuid_calls : nat;
  logs : list (LogLevel * ServiceLog)
}.

Definition S (A : Type) : Type := ServiceWorld → A * ServiceWorld.

Global Instance S_ret : MRet S := λ A a w, (a, w).

Global Instance S_bind : MBind S := λ A B f c w, let '(a, w') := c w in f a w'.

Definition get_file : S FileState := λ w, (file w, w).

Definition get_writable : S bool := λ w, (writable w, w).

Definition put_file (f : FileState) : S unit := λ w,
  (tt, {| file := f; writable := writable w; now := now w;
          now_calls := now_calls w; uuid4 := uuid4 w;
          uuid_calls := uuid_calls w; logs := logs w |}).

Definition datetime_now_isoformat : S string := λ w,
  (now w (now_calls w),
   {| file := file w; writable := writable w; now := now w;
      now_calls := Datatypes.S (now_calls w); uuid4 := uuid4 w;
      uuid_calls := uuid_calls w; logs := logs w |}).

Definition uuid_uuid4 : S string := λ w,
  (uuid4 w (uuid_calls w),
   {| file := file w; writable := writable w; now := now w;
      now_calls := now_calls w; uuid4 := uuid4 w;
      uuid_calls := Datatypes.S (uuid_calls w); logs := logs w |}).

Definition logger (lv : LogLevel) (m : ServiceLog) : S unit := λ w,
  (tt, {| file := file w; writable := writable w; now := now w;
          now_calls := now_calls w; uuid4 := uuid4 w;
          uuid_calls := uuid_calls w; logs := logs w ++ [(lv, m)] |}).

(** [load_chat_history]: an absent file reads as the empty dictionary,
    and so does, after an error line, one that cannot be read. *)
Definition load_chat_history : S (list (string * Chat)) :=
  f ← get_file;
  match f with
  | Stored chat_data => mret chat_data
  | Missing => mret []
  | Unreadable => logger ERROR LoadHistoryError;; mret []
  end.

(** [save_chat_history]: when the file cannot be opened for writing it
    is left as it is. *)
Definition save_chat_history (chat_data : list (string * Chat)) : S bool :=
  ok ← get_writable;
  match ok with
  | true => put_file (Stored chat_data);; mret true
  | false => logger ERROR SaveHistoryError;; mret false
  end.

(** The loop [while new_chat_id in chat_data]; [None] when [fuel] draws
    did not give an unused identifier. *)
Fixpoint ensure_unique (fuel : nat) (chat_data : list (string * Chat))
    (new_chat_id : string) : S (option string) :=
  match dict_get new_chat_id chat_data with
  | None => mret (Some new_chat_id)
  | Some _ =>
      match fuel with
      | O => mret None
      | Datatypes.S fuel =>
          new_chat_id ← uuid_uuid4;
          ensure_unique fuel chat_data new_chat_id
      end
  end.

Definition create_new_chat (fuel : nat) (custom_id : option string)
    : S (option string) :=
  chat_data ← load_chat_history;
  new_chat_id ← match custom_id with
                | Some c => if truthy c then mret c else uuid_uuid4
                | None => uuid_uuid4
                end;
  unique ← ensure_unique fuel chat_data new_chat_id;
  match unique with
  | None => mret None
  | Some new_chat_id =>
      created ← datetime_now_isoformat;
      updated ← datetime_now_isoformat;
      let chat_data :=
        dict_set new_chat_id
          {| created_at := Some created;
             updated_at := Some updated;
             title := Some "New Chat";
             messages := Some [];
             fresh_context := Some true;
             message_count := Some 0 |} chat_data in
      save_chat_history chat_data;;
      logger INFO (CreatedChat new_chat_id);;
      mret (Some new_chat_id)
  end.

Definition get_chat_by_id (chat_id : string) : S (option Chat) :=
  chat_data ← load_chat_history;
  mret (dict_get chat_id chat_data).

(** The title stored for a first message. *)
Definition title_of (first_message : string) : string :=
  let title := strip first_message in
  if (30 <? String.length title)%nat
  then String.substring 0 27 title +:+ "..."
  else title.

Definition update_chat_title (chat_id first_message : string) : S bool :=
  chat_data ← load_chat_history;
  match dict_get chat_id chat_data with
  | Some chat =>
      let title := title_of first_message in
      updated ← datetime_now_isoformat;
      let chat :=
        {| created_at := created_at chat;
           updated_at := Some updated;
           title := Some title;
           messages := messages chat;
           fresh_context := fresh_context chat;
           message_count := message_count chat |} in
      save_chat_history (dict_set chat_id chat chat_data);;
      logger INFO (UpdatedTitle chat_id title);;
      mret true
  | None =>
      logger WARNING (TitleChatNotFound chat_id);;
      mret false
  end.

(** [save_message_to_chat]: a chat without a ["messages"] key raises on
    the first read and the method returns [False]; the result of the
    write is not looked at. *)
Definition save_message_to_chat (chat_id role content : string) : S bool :=
  chat_data ← load_chat_history;
  match dict_get chat_id chat_data with
  | Some chat =>
      match messages chat with
      | None => logger ERROR (SaveMessageError chat_id);; mret false
      | Some chat_messages =>
          let next_seq := (Z.of_nat (length chat_messages) + 1)%Z in
          timestamp ← datetime_now_isoformat;
          let message :=
            MessageObject (Some next_seq) (Some role) (Some content)
                          (Some timestamp) in
          let chat_messages := chat_messages ++ [message] in
          updated ← datetime_now_isoformat;
          let chat :=
            {| created_at := created_at chat;
               updated_at := Some updated;
               title := title chat;
               messages := Some chat_messages;
               fresh_context := fresh_context chat;
               message_count := Some (Z.of_nat (length chat_messages)) |} in
          save_chat_history (dict_set chat_id chat chat_data);;
          logger INFO (SavedMessage chat_id);;
          mret true
      end
  | None =>
      logger WARNING (MessageChatNotFound chat_id);;
      mret false
  end.

Definition get_chat_messages (chat_id : string) : S (list StoredMessage) :=
  chat_data ← load_chat_history;
  match dict_get chat_id chat_data with
  | Some chat => mret (default [] (messages chat))
  | None => logger WARNING (ChatNotFound chat_id);; mret []
  end.

Definition delete_chat (chat_id : string) : S bool :=
  chat_data ← load_chat_history;
  match dict_get chat_id chat_data with
  | Some _ =>
      save_chat_history (dict_del chat_id chat_data);;
      logger INFO (DeletedChat chat_id);;
      mret true
  | None =>
      logger WARNING (DeleteChatNotFound chat_id);;
      mret false
  end.

(** The sort key of [get_all_chats]. *)
Definition sort_key (chat : Chat) : string :=
  default (default "" (created_at chat)) (updated_at chat).

(** [sorted(..., reverse=True)] is stable: an entry goes behind the
    entries of strictly greater key and before the others.  Strings are
    compared by code point. *)
Fixpoint insert_by_key (x : string * Chat) (l : list (string * Chat))
    : list (string * Chat) :=
  match l with
  | [] => [x]
  | y :: l' =>
      if String.leb (sort_key y.2) (sort_key x.2) then x :: y :: l'
      else y :: insert_by_key x l'
  end.

Definition sorted_by_key (chat_data : list (string * Chat))
    : list (string * Chat) :=
  foldr insert_by_key [] chat_data.

Definition get_all_chats : S (list (string * Chat)) :=
  chat_data ← load_chat_history;
  mret (sorted_by_key chat_data).

Record ChatSummary : Type := mkChatSummary {
  summary_id : string;
  summary_title : string;
  summary_created_at : option string;
  summary_updated_at : option string;
  summary_count : Z;
  has_messages : bool
}.

(** [get_chat_summary]; [None] is the empty dictionary. *)
Definition get_chat_summary (chat_id : string) : S (option ChatSummary) :=
  chat_data ← load_chat_history;
  match dict_get chat_id chat_data with
  | Some chat =>
      let chat_messages := default [] (messages chat) in
      mret (Some {| summary_id := chat_id;
                    summary_title := default "Untitled Chat" (title chat);
                    summary_created_at := created_at chat;
                    summary_updated_at := updated_at chat;
                    summary_count :=
                      default (Z.of_nat (length chat_messages))
                              (message_count chat);
                    has_messages := (0 <? length chat_messages)%nat |})
  | None => mret None
  end.

Definition is_empty_chat (chat_info : Chat) : bool :=
  (length (default [] (messages chat_info)) =? 0)%nat.

(** The first loop of [cleanup_empty_chats]. *)
Definition empty_chats_of (chat_data : list (string * Chat)) : list string :=
  (filter (λ kv, is_empty_chat kv.2 = true) chat_data).*1.

Definition cleanup_empty_chats : S nat :=
  chat_data ← load_chat_history;
  let empty_chats := empty_chats_of chat_data in
  let chat_data := foldl (λ d chat_id, dict_del chat_id d) chat_data empty_chats in
  match empty_chats with
  | [] => mret tt
  | _ =>
      save_chat_history chat_data;;
      logger INFO (CleanedUp (length empty_chats))
  end;;
  mret (length empty_chats).

(** The message as [load_chat_messages_from_history] reads it. *)
Definition as_py_message (m : StoredMessage) : PyMessage :=
  match m with
  | NotAnObject => NotADict
  | MessageObject _ role content _ => Dict role content
  end.

End ChatService.

(** ** ui/pages/chatbot.py: switching sessions *)

(** The three entries of [st.session_state] that
    [_handle_chat_switching] reads or writes. *)
Record SessionState : Type := mkSessionState {
  session_current_chat_id : option string;
  memory_loaded_for_chat : option string;
  current_chat_messages : list ChatService.StoredMessage
}.

Inductive PageLog : Type :=
| LoadedMemoryFor (chat_id : string)
| FailedToLoadMemoryFor (chat_id : string).

(** The page acts on the memory manager, the chat service and the
    session state. *)
Record Page : Type := mkPage {
  page_world : World;
  page_service : ChatService.ServiceWorld;
  session_state : SessionState;
  page_logs : list (LogLevel * PageLog)
}.

Definition _handle_chat_switching (p : Page) : Page :=
  let st := session_state p in
  match session_current_chat_id st with
  | None => p
  | Some current_chat_id =>
      if truthy current_chat_id then
        if bool_decide (memory_loaded_for_chat st ≠ Some current_chat_id) then
          let '(chat_messages, service) :=
            ChatService.get_chat_messages current_chat_id (page_service p) in
          let '(loaded, world) :=
            load_chat_messages_from_history current_chat_id
              (ChatService.as_py_message <$> chat_messages) (page_world p) in
          {| page_world := world;
             page_service := service;
             session_state :=
               {| session_current_chat_id := session_current_chat_id st;
                  memory_loaded_for_chat :=
                    if loaded then Some current_chat_id
                    else memory_loaded_for_chat st;
                  current_chat_messages := chat_messages |};
             page_logs :=
               page_logs p ++
               [if loaded then (INFO, LoadedMemoryFor current_chat_id)
                else (WARNING, FailedToLoadMemoryFor current_chat_id)] |}
        else p
      else p
  end.

(** ** Vocabulary of the statements on the chat service *)

(** The dictionary the service reads from the file. *)
Definition chats_of (s : ChatService.ServiceWorld)
    : list (string * ChatService.Chat) :=
  (ChatService.load_chat_history s).1.

(** A caller saving messages one after the other, each given by its role
    and its content. *)
Fixpoint save_messages (chat_id : string) (l : list (string * string))
    : ChatService.S unit :=
  match l with
  | [] => mret tt
  | (role, content) :: l' =>
      ChatService.save_message_to_chat chat_id role content;;
      save_messages chat_id l'
  end.

(** The message [save_message_to_chat] appends as the [n]-th of a chat
    (counting from 0), stamped with the clock reading number [t]. *)
Definition saved_message (s : ChatService.ServiceWorld) (n t : nat)
    (m : string * string) : ChatService.StoredMessage :=
  ChatService.MessageObject (Some (Z.of_nat n + 1)) (Some m.1) (Some m.2)
                            (Some (ChatService.now s t)).

Ltac sunfold :=
  unfold ChatService.load_chat_history, ChatService.save_chat_history,
    ChatService.get_file, ChatService.get_writable, ChatService.put_file,
    ChatService.datetime_now_isoformat, ChatService.uuid_uuid4,
    ChatService.logger, mbind, mret, ChatService.S_bind, ChatService.S_ret in *.

(** A disk without a history file, and the disk after one chat was
    created on it. *)
Definition empty_disk : ChatService.ServiceWorld :=
  {| ChatService.file := ChatService.Missing;
     ChatService.writable := true;
     ChatService.now := λ n, "t" +:+ pretty n;
     ChatService.now_calls := 0;
     ChatService.uuid4 := test_uuid4;
     ChatService.uuid_calls := 0;
     ChatService.logs := [] |}.

Definition one_chat_disk : ChatService.ServiceWorld :=
  (ChatService.create_new_chat 1 (Some "c") empty_disk).2.

(** The same disk, no longer writable. *)
Definition read_only (s : ChatService.ServiceWorld) : ChatService.ServiceWorld :=
  {| ChatService.file := ChatService.file s;
     ChatService.writable := false;
     ChatService.now := ChatService.now s;
     ChatService.now_calls := ChatService.now_calls s;
     ChatService.uuid4 := ChatService.uuid4 s;
     ChatService.uuid_calls := ChatService.uuid_calls s;
     ChatService.logs := ChatService.logs s |}.

(** A disk with a chat that has one message and a chat that has none. *)
Definition two_chat_disk : ChatService.ServiceWorld :=
  (save_messages "c" [("user", "hi")]
     (ChatService.create_new_chat 2 (Some "d") one_chat_disk).2).2.

(** The order of [get_all_chats]: the key of the first chat is not
    before the key of the second. *)
Definition key_ge (a b : string * ChatService.Chat) : Prop :=
  String.leb (ChatService.sort_key b.2) (ChatService.sort_key a.2) = true.

(** The roles and contents a caller passes to [save_message_to_chat] to
    record question and answer pairs. *)
Definition pair_rows (ps : list (string * string)) : list (string * string) :=
  ps ≫= λ p, [("user", p.1); ("Virtual Assistant", p.2)].

(** A page on a fresh manager and the disk after one exchange was
    saved, with the chat selected and nothing loaded yet. *)
Definition sample_page : Page :=
  {| page_world := init_world test_uuid4;
     page_service :=
       (save_messages "c" (pair_rows [("hi", "hello")]) one_chat_disk).2;
     session_state :=
       {| session_current_chat_id := Some "c";
          memory_loaded_for_chat := None;
          current_chat_messages := [] |};
     page_logs := [] |}.

(** * Part II: properties *)

(** ** Lists and pairs *)

Section ListFacts.

Context {A : Type}.

Implicit Types l : list A.

Lemma slice_last_length n l : length (slice_last n l) = (length l `min` n)%nat.
Proof. unfold slice_last. rewrite length_drop. lia. Qed.

Lemma slice_last_all n l : (length l ≤ n)%nat → slice_last n l = l.
Proof.
  intros H. unfold slice_last.
  replace (length l - n)%nat with 0%nat by lia. done.
Qed.

Lemma slice_last_snoc n l x :
  slice_last (S n) (l ++ [x]) = slice_last n l ++ [x].
Proof.
  unfold slice_last. rewrite length_app. simpl.
  replace (length l + 1 - S n)%nat with (length l - n)%nat by lia.
  rewrite drop_app_le by lia. done.
Qed.

Lemma slice_last_idemp_snoc n l x :
  slice_last n (slice_last n l ++ [x]) = slice_last n (l ++ [x]).
Proof.
  destruct n as [|n].
  - unfold slice_last. rewrite !Nat.sub_0_r, !drop_all. done.
  - rewrite !slice_last_snoc. f_equal.
    unfold slice_last. rewrite length_drop, drop_drop. f_equal. lia.
Qed.

End ListFacts.

Lemma pair_messages_app ps qs :
  pair_messages (ps ++ qs) = pair_messages ps ++ pair_messages qs.
Proof. unfold pair_messages. apply bind_app. Qed.

Lemma pair_messages_length ps : length (pair_messages ps) = (2 * length ps)%nat.
Proof. induction ps as [|p ps IH]; simpl; [done|]. rewrite IH. lia. Qed.

Lemma pair_messages_drop j ps :
  drop (2 * j) (pair_messages ps) = pair_messages (drop j ps).
Proof.
  revert ps. induction j as [|j IH]; intros ps; [done|].
  destruct ps as [|p ps]; [done|].
  replace (2 * S j)%nat with (S (S (2 * j))) by lia. simpl. apply IH.
Qed.

Lemma pair_messages_slice_last n ps :
  slice_last (2 * n) (pair_messages ps) = pair_messages (slice_last n ps).
Proof.
  unfold slice_last. rewrite pair_messages_length, <- pair_messages_drop.
  f_equal. lia.
Qed.


(** ** The effect of each operation on the manager *)

Lemma add_logs_nil w : add_logs [] w = w.
Proof. destruct w. unfold add_logs. simpl. by rewrite app_nil_r. Qed.

Lemma add_logs_add_logs l1 l2 w :
  add_logs l2 (add_logs l1 w) = add_logs (l1 ++ l2) w.
Proof. unfold add_logs. simpl. by rewrite app_assoc. Qed.

Lemma with_manager_add_logs mgr ls w :
  with_manager mgr (add_logs ls w) = add_logs ls (with_manager mgr w).
Proof. done. Qed.

Lemma with_manager_with_manager m1 m2 w :
  with_manager m2 (with_manager m1 w) = with_manager m2 w.
Proof. done. Qed.


Lemma create_new_chat_memory_manager chat_id w :
  let r := create_new_chat_memory chat_id w in
  r.1 = minted_id chat_id w ∧
  memory_manager r.2 =
    set_chat_memory (minted_id chat_id w)
      (Langchain.new (max_memory_size (memory_manager w))) (memory_manager w).
Proof.
  unfold create_new_chat_memory, minted_id. munfold.
  destruct (truthy chat_id); simpl; done.
Qed.

Lemma switch_to_chat_manager chat_id w :
  let r := switch_to_chat chat_id w in
  r.1 = true ∧ memory_manager r.2 = switched chat_id w ∧
  chain r.2 = chain w ∧ calls r.2 = calls w.
Proof.
  unfold switch_to_chat, switched, create_new_chat_memory, minted_id. munfold.
  simpl. case_bool_decide as H.
  - rewrite H. destruct (truthy chat_id); simpl; done.
  - destruct (chat_memories (memory_manager w) !! chat_id); done.
Qed.

Lemma save_context_manager input output w :
  let r := save_context input output w in
  r.1 = bool_decide (is_Some (get_current_memory (memory_manager w))) ∧
  memory_manager r.2 =
    on_current (Langchain.save_context input output) (memory_manager w) ∧
  chain r.2 = chain w ∧ calls r.2 = calls w.
Proof.
  unfold save_context, on_current, update_current_memory. munfold. simpl.
  destruct (get_current_memory (memory_manager w)) eqn:E; simpl; [|done].
  unfold get_current_memory in E.
  destruct (current_chat_id (memory_manager w)); [|done]. simpl.
  done.
Qed.

Lemma clear_current_chat_memory_manager w :
  let r := clear_current_chat_memory w in
  r.1 = bool_decide (is_Some (get_current_memory (memory_manager w))) ∧
  memory_manager r.2 = on_current Langchain.clear (memory_manager w).
Proof.
  unfold clear_current_chat_memory, on_current, update_current_memory.
  munfold. simpl.
  destruct (get_current_memory (memory_manager w)) eqn:E; simpl; [|done].
  unfold get_current_memory in E.
  destruct (current_chat_id (memory_manager w)); [|done]. simpl.
  done.
Qed.

Lemma load_memory_variables_manager w :
  let r := load_memory_variables w in
  r.1 = from_option Langchain.buffer [] (get_current_memory (memory_manager w)) ∧
  memory_manager r.2 = memory_manager w.
Proof.
  unfold load_memory_variables. munfold. simpl.
  destruct (get_current_memory (memory_manager w)); done.
Qed.

Lemma delete_chat_memory_manager chat_id w :
  let r := delete_chat_memory chat_id w in
  r.1 = bool_decide (is_Some (chat_memories (memory_manager w) !! chat_id)) ∧
  memory_manager r.2 = deleted chat_id (memory_manager w).
Proof.
  unfold delete_chat_memory, deleted. munfold. simpl.
  destruct (chat_memories (memory_manager w) !! chat_id) eqn:E.
  - rewrite bool_decide_eq_true_2 by eauto. simpl.
    case_bool_decide; simpl; [done|].
    split; [done|]. by destruct (memory_manager w).
  - rewrite bool_decide_eq_false_2 by (intros [? ?]; done). done.
Qed.


(** ** Rehydration, step by step *)

Lemma collect_message_pairs_slots chat_id slots tail i w :
  (length tail ≤ 1)%nat →
  collect_message_pairs chat_id i (transcript slots ++ tail) w =
    (valid_contents slots, add_logs (slot_warnings chat_id i slots) w).
Proof.
  intros Htail. revert i w.
  induction slots as [|[u a] slots IH]; intros i w.
  - simpl. rewrite add_logs_nil.
    destruct tail as [|m [|m' tail]]; simpl in *; [done|done|lia].
  - simpl. unfold valid_contents, slot_valid. simpl.
    destruct (valid_message_pair u a) eqn:E; munfold; rewrite IH; simpl.
    + unfold valid_contents.
      rewrite filter_cons_True by (simpl; by rewrite E). done.
    + unfold valid_contents.
      rewrite filter_cons_False by (simpl; rewrite E; intros []).
      unfold add_logs. simpl. by rewrite <- app_assoc.
Qed.

Lemma slot_warnings_elem chat_id slots i j s :
  slots !! j = Some s → slot_valid s = false →
  mkLog WARNING (InvalidMessagePair (i + 2 * j) chat_id)
    ∈ slot_warnings chat_id i slots.
Proof.
  revert i j. induction slots as [|s' slots IH]; intros i j Hj Hs; [done|].
  destruct j as [|j]; simpl in *.
  - injection Hj as ->. rewrite Hs. rewrite Nat.add_0_r. set_solver.
  - apply elem_of_app. right.
    replace (i + S (j + S (j + 0)))%nat with ((i + 2) + 2 * j)%nat by lia.
    by apply IH.
Qed.


Lemma focused_current mgr c m : focused mgr c m → get_current_memory mgr = Some m.
Proof. intros (Hc & Ht & Hm). unfold get_current_memory. by rewrite Hc, Ht. Qed.

Lemma focused_on_current f mgr c m :
  focused mgr c m → on_current f mgr = set_chat_memory c (f m) mgr.
Proof.
  intros H. unfold on_current. rewrite (focused_current _ _ _ H).
  destruct H as (Hc & Ht & Hm). rewrite Hc. unfold set_chat_memory. f_equal; [|done].
  apply map_eq. intros i. rewrite lookup_alter, lookup_insert.
  case_decide; subst; by rewrite ?Hm.
Qed.

Lemma focused_set mgr c m m' : focused mgr c m → focused (set_chat_memory c m' mgr) c m'.
Proof.
  intros (Hc & Ht & Hm). repeat split; try done. simpl. apply lookup_insert_eq.
Qed.

Lemma set_chat_memory_twice c m1 m2 mgr :
  set_chat_memory c m2 (set_chat_memory c m1 mgr) = set_chat_memory c m2 mgr.
Proof. unfold set_chat_memory. simpl. by rewrite insert_insert_eq. Qed.

Lemma save_context_focused input output w c m :
  focused (memory_manager w) c m →
  save_context input output w =
    (true, add_logs [mkLog INFO (ContextSaved (Some c))]
             (with_manager (set_chat_memory c (Langchain.save_context input output m)
                              (memory_manager w)) w)).
Proof.
  intros H. pose proof (focused_on_current (Langchain.save_context input output) _ _ _ H) as Hon.
  pose proof (focused_current _ _ _ H) as Hcur.
  unfold save_context, update_current_memory. munfold. simpl.
  rewrite Hcur. unfold on_current in Hon. rewrite Hcur in Hon.
  destruct H as (Hc & Ht & Hm). rewrite Hc in *. simpl. by rewrite Hon.
Qed.


Lemma clear_focused w c m :
  focused (memory_manager w) c m →
  clear_current_chat_memory w =
    (true, add_logs [mkLog INFO (ClearedMemory (Some c))]
             (with_manager (set_chat_memory c (Langchain.clear m) (memory_manager w)) w)).
Proof.
  intros H. pose proof (focused_on_current Langchain.clear _ _ _ H) as Hon.
  pose proof (focused_current _ _ _ H) as Hcur.
  unfold clear_current_chat_memory, update_current_memory. munfold. simpl.
  rewrite Hcur. unfold on_current in Hon. rewrite Hcur in Hon.
  destruct H as (Hc & Ht & Hm). rewrite Hc in *. simpl. by rewrite Hon.
Qed.

Lemma load_recent_pairs_focused chat_id ps w c m :
  focused (memory_manager w) c m →
  load_recent_pairs chat_id ps w =
    (length ps,
     add_logs (replicate (length ps) (mkLog INFO (ContextSaved (Some c))))
       (with_manager
          (set_chat_memory c (mkMemory (k m) (messages m ++ pair_messages ps))
             (memory_manager w)) w)).
Proof.
  revert w m. induction ps as [|[u a] ps IH]; intros w m H.
  - simpl. munfold. rewrite app_nil_r, add_logs_nil. f_equal.
    destruct H as (Hc & Ht & Hm). destruct w as [mgr ? ? ? ? ?]. simpl in *.
    unfold with_manager. simpl. f_equal.
    destruct mgr as [cm cur mx]. unfold set_chat_memory. simpl in *. f_equal.
    symmetry. apply insert_id. rewrite Hm. by destruct m.
  - simpl. unfold mbind at 1, M_bind at 1.
    rewrite (save_context_focused _ _ _ _ _ H). simpl.
    unfold mbind, M_bind. simpl. unfold mret at 1, M_ret at 1.
    erewrite IH; last (simpl; by eapply focused_set).
    simpl. unfold mret, M_ret. f_equal.
    rewrite with_manager_add_logs, add_logs_add_logs, with_manager_with_manager.
    simpl. rewrite set_chat_memory_twice, <- app_assoc. done.
Qed.

Lemma switch_to_chat_truthy chat_id w :
  truthy chat_id = true →
  switch_to_chat chat_id w =
    (true, add_logs (switch_logs chat_id w) (with_manager (switched chat_id w) w)).
Proof.
  intros Ht.
  unfold switch_to_chat, switched, switch_logs, create_new_chat_memory, minted_id.
  munfold. simpl. rewrite Ht. simpl.
  destruct (chat_memories (memory_manager w) !! chat_id) eqn:E; simpl.
  - done.
  - unfold add_logs, with_manager. simpl. by rewrite <- app_assoc.
Qed.

Lemma switched_focused chat_id w :
  truthy chat_id = true →
  focused (switched chat_id w) chat_id (memory_or_new chat_id w).
Proof.
  intros Ht. unfold switched, memory_or_new, minted_id. rewrite Ht.
  destruct (chat_memories (memory_manager w) !! chat_id) eqn:E;
    repeat split; simpl; try done.
  apply lookup_insert_eq.
Qed.

Lemma switched_max_memory_size chat_id w :
  max_memory_size (switched chat_id w) = max_memory_size (memory_manager w).
Proof.
  unfold switched. by destruct (chat_memories (memory_manager w) !! chat_id).
Qed.

Lemma recent_pairs_of_eq W (message_pairs : list (string * string)) :
  (if bool_decide (max_pairs_of W < Z.of_nat (length message_pairs))
   then slice_last (Z.to_nat (max_pairs_of W)) message_pairs
   else message_pairs) = recent_pairs_of W message_pairs.
Proof.
  unfold recent_pairs_of. case_bool_decide; [done|].
  symmetry. apply slice_last_all. lia.
Qed.

Lemma load_chat_messages_from_history_slots chat_id slots tail w :
  truthy chat_id = true → (length tail ≤ 1)%nat →
  let W := max_memory_size (memory_manager w) in
  load_chat_messages_from_history chat_id (transcript slots ++ tail) w =
    (match transcript slots ++ tail with
     | [] => true
     | _ => bool_decide (0 < length (recent_pairs_of W (valid_contents slots)))%nat
     end,
     add_logs (rehydrate_logs chat_id slots tail w)
       (with_manager (rehydrated chat_id slots w) w)).
Proof.
  intros Ht Htail W. unfold load_chat_messages_from_history.
  unfold mbind at 1, M_bind at 1. rewrite (switch_to_chat_truthy _ _ Ht). simpl.
  pose proof (switched_focused chat_id w Ht) as Hf.
  unfold mbind at 1, M_bind at 1.
  erewrite clear_focused; last (simpl; exact Hf). simpl.
  unfold mbind at 1, M_bind at 1. unfold mret at 1, M_ret at 1.
  rewrite with_manager_add_logs, add_logs_add_logs, with_manager_with_manager.
  unfold rehydrate_logs, rehydrated.
  destruct (transcript slots ++ tail) as [|m0 msgs] eqn:Emsgs.
  - assert (slots = []) as -> by (by destruct slots).
    munfold. unfold add_logs, with_manager. simpl.
    by rewrite <- !app_assoc.
  - rewrite <- Emsgs. clear Emsgs.
    unfold mbind at 1, M_bind at 1.
    rewrite (collect_message_pairs_slots _ _ _ _ _ Htail).
    rewrite add_logs_add_logs.
    unfold mbind at 1, M_bind at 1. unfold get_manager at 1.
    cbv beta iota.
    cbn [memory_manager add_logs with_manager max_memory_size set_chat_memory].
    rewrite switched_max_memory_size. fold W.
    rewrite recent_pairs_of_eq.
    unfold mbind at 1, M_bind at 1.
    erewrite load_recent_pairs_focused;
      last (simpl; eapply focused_set; exact Hf).
    munfold. simpl. rewrite set_chat_memory_twice.
    unfold add_logs, with_manager. simpl.
    rewrite <- !app_assoc. done.
Qed.

Lemma load_chat_messages_from_history_even chat_id slots w :
  truthy chat_id = true →
  load_chat_messages_from_history chat_id (transcript slots) w =
    (match slots with
     | [] => true
     | _ => bool_decide (0 < length (recent_pairs_of
                (max_memory_size (memory_manager w)) (valid_contents slots)))%nat
     end,
     add_logs (rehydrate_logs chat_id slots [] w)
       (with_manager (rehydrated chat_id slots w) w)).
Proof.
  intros Ht. rewrite <- (app_nil_r (transcript slots)) at 1.
  rewrite (load_chat_messages_from_history_slots _ _ [] _ Ht) by (simpl; lia).
  by destruct slots.
Qed.

(** ** The registry invariant is preserved *)

Section Invariant.

Variable W : Z.

Lemma preserves_ret {A} (a : A) : preserves W (mret a).
Proof. by intros w. Qed.

Lemma preserves_bind {A B} (c : M A) (f : A → M B) :
  preserves W c → (∀ a, preserves W (f a)) → preserves W (c ≫= f).
Proof.
  intros Hc Hf w Hw. unfold mbind, M_bind.
  specialize (Hc w Hw). destruct (c w) as [a w']. by apply Hf.
Qed.

Lemma preserves_logger lv m : preserves W (logger lv m).
Proof. by intros w. Qed.

Lemma preserves_when b (c : M unit) : preserves W c → preserves W (when b c).
Proof. destruct b; [done|]. intros _. apply preserves_ret. Qed.

Lemma memory_ok_new : memory_ok W (Langchain.new W).
Proof. split; [done|]. by exists []. Qed.

Lemma memory_ok_clear m : memory_ok W m → memory_ok W (Langchain.clear m).
Proof. intros [Hk _]. split; [done|]. by exists []. Qed.

Lemma memory_ok_save_context i o m :
  memory_ok W m → memory_ok W (Langchain.save_context i o m).
Proof.
  intros [Hk [ps Hps]]. split; [done|]. exists (ps ++ [(i, o)]).
  simpl. by rewrite Hps, pair_messages_app.
Qed.

Lemma manager_ok_set c m mgr :
  manager_ok W mgr → memory_ok W m → manager_ok W (set_chat_memory c m mgr).
Proof.
  intros [HW Hall] Hm. split; [done|]. intros c' m'. simpl.
  rewrite lookup_insert. case_decide; [by intros [= <-]|]. apply Hall.
Qed.

Lemma manager_ok_on_current f mgr :
  (∀ m, memory_ok W m → memory_ok W (f m)) →
  manager_ok W mgr → manager_ok W (on_current f mgr).
Proof.
  intros Hf [HW Hall]. unfold on_current.
  destruct (get_current_memory mgr) as [cur|]; [|done].
  destruct (current_chat_id mgr) as [c|]; [|done].
  split; [done|]. intros c' m'. simpl. rewrite lookup_alter.
  case_decide; [|apply Hall]. subst c'.
  destruct (chat_memories mgr !! c) as [m0|] eqn:E; [|done].
  intros [= <-]. apply Hf. by eapply Hall.
Qed.

Lemma manager_ok_deleted c mgr :
  manager_ok W mgr → manager_ok W (deleted c mgr).
Proof.
  intros [HW Hall]. unfold deleted.
  destruct (chat_memories mgr !! c); [|done].
  split; [done|]. intros c' m'. simpl.
  rewrite lookup_delete. case_decide; [done|]. apply Hall.
Qed.

Lemma manager_ok_switched c w :
  manager_ok W (memory_manager w) → manager_ok W (switched c w).
Proof.
  intros Hok. unfold switched.
  destruct (chat_memories (memory_manager w) !! c).
  - destruct Hok as [HW Hall]. by split.
  - assert (manager_ok W (set_chat_memory (minted_id c w)
             (Langchain.new (max_memory_size (memory_manager w)))
             (memory_manager w))) as [HW Hall].
    { apply manager_ok_set; [done|]. destruct Hok as [-> _]. apply memory_ok_new. }
    by split.
Qed.

Lemma preserves_create c : preserves W (create_new_chat_memory c).
Proof.
  intros w Hok.
  destruct (create_new_chat_memory_manager c w) as [_ ->].
  apply manager_ok_set; [done|]. destruct Hok as [-> _]. apply memory_ok_new.
Qed.

Lemma preserves_switch c : preserves W (switch_to_chat c).
Proof.
  intros w Hok. destruct (switch_to_chat_manager c w) as (_ & -> & _).
  by apply manager_ok_switched.
Qed.

Lemma preserves_save i o : preserves W (save_context i o).
Proof.
  intros w Hok. destruct (save_context_manager i o w) as (_ & -> & _).
  apply manager_ok_on_current; [|done]. apply memory_ok_save_context.
Qed.

Lemma preserves_clear : preserves W clear_current_chat_memory.
Proof.
  intros w Hok. destruct (clear_current_chat_memory_manager w) as (_ & ->).
  apply manager_ok_on_current; [|done]. apply memory_ok_clear.
Qed.

Lemma preserves_read : preserves W load_memory_variables.
Proof.
  intros w Hok. by destruct (load_memory_variables_manager w) as (_ & ->).
Qed.

Lemma preserves_delete c : preserves W (delete_chat_memory c).
Proof.
  intros w Hok. destruct (delete_chat_memory_manager c w) as (_ & ->).
  by apply manager_ok_deleted.
Qed.

Lemma preserves_collect c msgs i : preserves W (collect_message_pairs c i msgs).
Proof.
  revert i. induction msgs as [msgs IH] using (induction_ltof1 _ length).
  unfold ltof in IH. intros i.
  destruct msgs as [|u [|a rest]]; simpl; try apply preserves_ret.
  destruct (valid_message_pair u a).
  - apply preserves_bind; [apply IH; simpl; lia|]. intros ?. apply preserves_ret.
  - apply preserves_bind; [apply preserves_logger|]. intros _.
    apply IH. simpl. lia.
Qed.

Lemma preserves_load_recent c ps : preserves W (load_recent_pairs c ps).
Proof.
  induction ps as [|[u a] ps IH]; simpl; [apply preserves_ret|].
  apply preserves_bind; [apply preserves_save|]. intros saved.
  apply preserves_bind; [apply preserves_when, preserves_logger|]. intros _.
  apply preserves_bind; [apply IH|]. intros ?. apply preserves_ret.
Qed.

Lemma preserves_rehydrate c msgs :
  preserves W (load_chat_messages_from_history c msgs).
Proof.
  unfold load_chat_messages_from_history.
  apply preserves_bind; [apply preserves_switch|]. intros switched.
  destruct (negb switched).
  { apply preserves_bind; [apply preserves_logger|]. intros _. apply preserves_ret. }
  apply preserves_bind; [apply preserves_clear|]. intros cleared.
  apply preserves_bind; [apply preserves_when, preserves_logger|]. intros _.
  destruct msgs as [|m0 msgs].
  { apply preserves_bind; [apply preserves_logger|]. intros _. apply preserves_ret. }
  apply preserves_bind; [apply preserves_collect|]. intros pairs.
  apply preserves_bind; [by intros w|]. intros mgr.
  apply preserves_bind; [apply preserves_load_recent|]. intros n.
  apply preserves_bind; [apply preserves_logger|]. intros _. apply preserves_ret.
Qed.

Lemma preserves_get_enhanced_context documents query chat_id :
  preserves W (_get_enhanced_context documents query chat_id).
Proof.
  unfold _get_enhanced_context. destruct documents as [|d documents].
  - apply preserves_bind; [apply preserves_logger|]. intros _. apply preserves_ret.
  - apply preserves_bind; [apply preserves_logger|]. intros _.
    destruct (context_loop 1 (select_documents (d :: documents)) [] []
                float_zero) as [[[? ?] ?]|].
    + apply preserves_ret.
    + apply preserves_bind; [apply preserves_logger|]. intros _. apply preserves_ret.
Qed.

Lemma preserves_ensure_chain_availability env :
  preserves W (_ensure_chain_availability env).
Proof.
  unfold _ensure_chain_availability, _initialize_chain.
  apply preserves_bind; [by intros w|]. intros a.
  apply preserves_bind.
  { apply preserves_when, preserves_bind; [apply preserves_logger|]. intros _.
    apply preserves_bind; [by intros w|]. intros _.
    destruct (chain_creatable env); apply preserves_logger. }
  intros _. apply preserves_bind; [by intros w|]. intros [|].
  - apply preserves_ret.
  - apply preserves_bind; [apply preserves_logger|]. intros _. apply preserves_ret.
Qed.

Lemma preserves_chain_stream env x : preserves W (chain_stream env x).
Proof.
  unfold chain_stream, get_context_and_history.
  apply preserves_bind; [|intros p; apply preserves_bind;
                           [by intros w|intros _; apply preserves_ret]].
  apply preserves_bind; [by intros w|]. intros _.
  destruct (retriever_invoke env (ci_input x)) as [documents|].
  - apply preserves_bind; [apply preserves_get_enhanced_context|]. intros ci.
    apply preserves_bind.
    { destruct (ci_chat_id x) as [c|]; [|apply preserves_ret].
      apply preserves_when, preserves_bind; [apply preserves_switch|].
      intros _. apply preserves_ret. }
    intros _. apply preserves_bind; [apply preserves_read|]. intros h.
    apply preserves_ret.
  - apply preserves_bind; [apply preserves_logger|]. intros _. apply preserves_ret.
Qed.

Lemma preserves_process_query env query chat_id :
  preserves W (process_query env query chat_id).
Proof.
  unfold process_query.
  apply preserves_bind; [apply preserves_logger|]. intros _.
  destruct (_validate_query query) as [reason|q].
  { apply preserves_bind; [apply preserves_logger|]. intros _. apply preserves_ret. }
  apply preserves_bind.
  { destruct chat_id as [c|]; [|apply preserves_ret].
    apply preserves_when, preserves_bind; [apply preserves_switch|].
    intros b. apply preserves_when, preserves_logger. }
  intros _. apply preserves_bind; [apply preserves_ensure_chain_availability|].
  intros [|].
  2:{ apply preserves_bind; [apply preserves_logger|]. intros _. apply preserves_ret. }
  apply preserves_bind; [apply preserves_chain_stream|]. intros stream.
  destruct (stream_loop (start_time env) stream "" 0 []) as [full n ys t|ys e].
  - apply preserves_bind; [apply preserves_when, preserves_logger|]. intros _.
    apply preserves_bind; [apply preserves_logger|]. intros _.
    apply preserves_bind; [|intros _; apply preserves_ret].
    destruct (truthy (strip full)); [|apply preserves_logger].
    apply preserves_bind; [apply preserves_save|].
    intros [|]; apply preserves_logger.
  - apply preserves_bind; [apply preserves_logger|]. intros _. apply preserves_ret.
Qed.

Lemma preserves_run_op op : preserves W (run_op op).
Proof.
  destruct op; simpl; (apply preserves_bind; [|intros ?; apply preserves_ret]).
  - apply preserves_create.
  - apply preserves_switch.
  - apply preserves_save.
  - apply preserves_read.
  - apply preserves_clear.
  - apply preserves_delete.
  - apply preserves_rehydrate.
  - apply preserves_process_query.
Qed.

Lemma preserves_run_ops ops : preserves W (run_ops ops).
Proof.
  induction ops as [|op ops IH]; simpl; [apply preserves_ret|].
  apply preserves_bind; [apply preserves_run_op|]. by intros _.
Qed.

Lemma manager_ok_new : manager_ok W (new_manager W).
Proof. split; [done|]. intros c m. simpl. by rewrite lookup_empty. Qed.

End Invariant.

(** ** Window bound and FIFO eviction *)

Lemma buffer_pairs W m qs :
  0 ≤ W → k m = W → messages m = pair_messages qs →
  Langchain.buffer m = pair_messages (slice_last (Z.to_nat W) qs).
Proof.
  intros HW Hk Hqs. unfold Langchain.buffer. rewrite Hk, Hqs.
  destruct (0 <? W) eqn:E.
  - replace (Z.to_nat (W * 2)) with (2 * Z.to_nat W)%nat by lia.
    apply pair_messages_slice_last.
  - apply Z.ltb_ge in E. replace W with 0 by lia. simpl.
    unfold slice_last. by rewrite Nat.sub_0_r, drop_all.
Qed.

Lemma slice_last_room {A} n (l : list A) x :
  (length l < n)%nat → slice_last n (l ++ [x]) = l ++ [x].
Proof. intros H. apply slice_last_all. rewrite length_app. simpl. lia. Qed.

Lemma slice_last_full {A} n (l : list A) x :
  length l = n → (0 < n)%nat → slice_last n (l ++ [x]) = drop 1 l ++ [x].
Proof.
  intros H Hn. unfold slice_last. rewrite length_app. simpl.
  replace (length l + 1 - n)%nat with 1%nat by lia.
  destruct l; [simpl in *; lia|done].
Qed.

(** C1. Starting from an empty registry with window size [W], after any
    sequence of manager operations and queries the buffer of every
    session holds whole (human, assistant) pairs, at most [W] of them; a
    commit to the focused session appends the new pair while there is
    room and otherwise drops the oldest pair first. *)
Theorem buffer_window_bound (W : Z) (uuid4 : nat → string) (ops : list Op)
    (chat_id : string) (m : ConversationBufferWindowMemory) :
  0 ≤ W →
  let w := (run_ops ops (world_of (new_manager W) uuid4)).2 in
  chat_memories (memory_manager w) !! chat_id = Some m →
  ∃ ps, Langchain.buffer m = pair_messages ps ∧
        (length ps ≤ Z.to_nat W)%nat ∧
        (focused (memory_manager w) chat_id m →
         ∀ input output,
           let w' := (save_context input output w).2 in
           ((length ps < Z.to_nat W)%nat →
            buffer_of w' chat_id = pair_messages (ps ++ [(input, output)])) ∧
           (length ps = Z.to_nat W → 0 < W →
            buffer_of w' chat_id = pair_messages (drop 1 ps ++ [(input, output)]))).
Proof.
  intros HW w Hm.
  assert (manager_ok W (memory_manager w)) as Hok.
  { apply preserves_run_ops. simpl. apply manager_ok_new. }
  destruct Hok as [Hmax Hall]. destruct (Hall _ _ Hm) as [Hk [qs Hqs]].
  exists (slice_last (Z.to_nat W) qs).
  split; [by apply buffer_pairs|].
  split; [rewrite slice_last_length; lia|].
  intros Hf input output w'.
  assert (buffer_of w' chat_id =
          pair_messages (slice_last (Z.to_nat W)
             (slice_last (Z.to_nat W) qs ++ [(input, output)]))) as Hbuf.
  { unfold w', buffer_of. rewrite (save_context_focused _ _ _ _ _ Hf). simpl.
    rewrite lookup_insert_eq. simpl.
    rewrite slice_last_idemp_snoc. apply buffer_pairs; [done|done|].
    simpl. by rewrite Hqs, pair_messages_app. }
  split.
  - intros Hlen. rewrite Hbuf. by rewrite slice_last_room.
  - intros Hlen HW'. rewrite Hbuf. rewrite slice_last_full; [done|done|lia].
Qed.

Lemma buffer_window_bound_witness :
  0 ≤ 6 ∧
  ∃ ps, Langchain.buffer (mkMemory 6 [HumanMessage "q"; AIMessage "a"])
          = pair_messages ps ∧
        (length ps ≤ Z.to_nat 6)%nat.
Proof.
  split; [lia|].
  destruct (buffer_window_bound 6 test_uuid4 [OpSwitch "s"; OpSave "q" "a"] "s"
              (mkMemory 6 [HumanMessage "q"; AIMessage "a"]))
    as (ps & H1 & H2 & _).
  - lia.
  - vm_compute. reflexivity.
  - exists ps. split; assumption.
Defined.

(** ** Rehydration *)

Lemma valid_contents_stored ps :
  Forall non_empty_pair ps → valid_contents (pair_slot <$> ps) = ps.
Proof.
  unfold valid_contents. induction 1 as [|[u a] ps [Hu Ha] _ IH]; [done|].
  rewrite fmap_cons, filter_cons_True.
  - rewrite fmap_cons, IH. done.
  - unfold slot_valid, valid_message_pair. simpl in *. by rewrite Hu, Ha.
Qed.

Lemma max_pairs_of_bounds W : 0 < W → 1 ≤ max_pairs_of W ≤ W.
Proof.
  intros HW. unfold max_pairs_of. split; [lia|].
  apply Z.max_lub; [lia|]. apply Z.div_le_upper_bound; lia.
Qed.

Lemma memory_or_new_k W c w :
  manager_ok W (memory_manager w) → k (memory_or_new c w) = W.
Proof.
  intros [HW Hall]. unfold memory_or_new.
  destruct (chat_memories (memory_manager w) !! c) as [m|] eqn:E; simpl.
  - by destruct (Hall _ _ E).
  - done.
Qed.

(** After rehydration the buffer of the session holds exactly the kept
    pairs. *)
Lemma rehydrated_buffer W c slots tail w :
  truthy c = true → (length tail ≤ 1)%nat →
  manager_ok W (memory_manager w) → 0 < W →
  buffer_of (load_chat_messages_from_history c (transcript slots ++ tail) w).2 c =
    pair_messages (recent_pairs_of W (valid_contents slots)).
Proof.
  intros Ht Htail Hok HW.
  rewrite (load_chat_messages_from_history_slots _ _ _ _ Ht Htail).
  unfold buffer_of, rehydrated. simpl. rewrite lookup_insert_eq. simpl.
  destruct (Hok) as [-> _].
  erewrite buffer_pairs; [| |by eapply memory_or_new_k|done]; [|lia].
  f_equal. apply slice_last_all. unfold recent_pairs_of.
  rewrite slice_last_length.
  pose proof (max_pairs_of_bounds _ HW). lia.
Qed.

(** What rehydration keeps of more pairs than the window holds.
    Rehydrating a transcript of [N] well-formed pairs with
    [N > window_size] succeeds and leaves in the buffer the most recent
    [max(1, window_size // 2)] pairs, oldest first. *)
Lemma rehydration_keeps_recent (W : Z) (chat_id : string)
    (ps : list (string * string)) (w : World) :
  truthy chat_id = true →
  manager_ok W (memory_manager w) → 0 < W →
  Forall non_empty_pair ps →
  W < Z.of_nat (length ps) →
  let r := load_chat_messages_from_history chat_id (stored_transcript ps) w in
  r.1 = true ∧
  buffer_of r.2 chat_id =
    pair_messages (slice_last (Z.to_nat (Z.max 1 (W `div` 2))) ps).
Proof.
  intros Ht Hok HW Hps HN r.
  pose proof (max_pairs_of_bounds _ HW) as Hmax.
  split.
  - unfold r, stored_transcript.
    rewrite <- (app_nil_r (transcript _)).
    rewrite (load_chat_messages_from_history_slots _ _ [] _ Ht) by (simpl; lia).
    cbn [fst]. rewrite valid_contents_stored by done.
    destruct Hok as [-> _].
    assert (0 < length (recent_pairs_of W ps))%nat.
    { unfold recent_pairs_of. rewrite slice_last_length. lia. }
    destruct ps as [|p ps]; [simpl in HN; lia|].
    rewrite fmap_cons. simpl. by apply bool_decide_eq_true.
  - unfold r, stored_transcript. rewrite <- (app_nil_r (transcript _)).
    rewrite (rehydrated_buffer W) by (simpl; done || lia).
    by rewrite valid_contents_stored.
Qed.

Lemma rehydration_keeps_recent_witness :
  let r := load_chat_messages_from_history "s" (stored_transcript seven_pairs)
             (init_world test_uuid4) in
  r.1 = true ∧
  buffer_of r.2 "s" =
    pair_messages (slice_last (Z.to_nat (Z.max 1 (6 `div` 2))) seven_pairs).
Proof.
  apply (rehydration_keeps_recent 6 "s" seven_pairs (init_world test_uuid4)).
  - reflexivity.
  - apply manager_ok_new.
  - lia.
  - repeat constructor.
  - simpl. lia.
Defined.

(** C2.  The window of a session holds [window_size] pairs and the
    commit path keeps that many: of seven pairs committed with the
    window size 6 of the settings, the buffer holds the last six.
    Rehydrating the transcript of the same seven pairs, all well-formed,
    leaves the last three, [max(1, 6 // 2)], and not the last six: the
    loader halves the window it is said to fill. *)
Theorem rehydration_window_divergence :
  let w0 := init_world test_uuid4 in
  let r := load_chat_messages_from_history "s" (stored_transcript seven_pairs) w0 in
  let committed := run_ops (commit_ops "s" seven_pairs) w0 in
  max_memory_size (memory_manager w0) = 6 ∧
  Forall non_empty_pair seven_pairs ∧
  length seven_pairs = 7%nat ∧
  buffer_of committed.2 "s" = pair_messages (slice_last 6 seven_pairs) ∧
  r.1 = true ∧
  buffer_of r.2 "s" =
    [HumanMessage "q5"; AIMessage "a5"; HumanMessage "q6"; AIMessage "a6";
     HumanMessage "q7"; AIMessage "a7"] ∧
  buffer_of r.2 "s" = pair_messages (slice_last 3 seven_pairs) ∧
  buffer_of r.2 "s" ≠ pair_messages (slice_last 6 seven_pairs).
Proof.
  intros w0 r committed.
  split; [reflexivity|]. split; [repeat constructor|].
  split; [reflexivity|]. split; [vm_compute; reflexivity|].
  split; [vm_compute; reflexivity|]. split; [vm_compute; reflexivity|].
  split; [vm_compute; reflexivity|].
  vm_compute. discriminate.
Qed.

Lemma valid_contents_skip pre s post :
  slot_valid s = false →
  valid_contents (pre ++ s :: post) = valid_contents (pre ++ post).
Proof.
  intros Hs. unfold valid_contents.
  rewrite !filter_app, filter_cons_False; [done|].
  rewrite Hs. intros [].
Qed.

Lemma rehydrate_logs_warning c slots tail w j s :
  slots !! j = Some s → slot_valid s = false →
  mkLog WARNING (InvalidMessagePair (2 * j) c) ∈ rehydrate_logs c slots tail w.
Proof.
  intros Hj Hs. unfold rehydrate_logs.
  destruct slots as [|s0 slots]; [done|].
  change (transcript (s0 :: slots) ++ tail)
    with (s0.1 :: s0.2 :: (transcript slots ++ tail)).
  cbv iota. rewrite !elem_of_app. right. right. left.
  change (2 * j)%nat with (0 + 2 * j)%nat. by eapply slot_warnings_elem.
Qed.

Lemma truthy_content c :
  truthy (default "" c) = true ↔ ∃ s, c = Some s ∧ s ≠ "".
Proof.
  destruct c as [[|a s]|]; simpl; split; try done.
  - by intros (s & [= <-] & H).
  - intros _. by eexists.
  - by intros (s & ? & _).
Qed.

(** A slot is well-formed when its messages are dicts tagged ["user"]
    and ["Virtual Assistant"], in that order, each with a non-empty
    content. *)
Lemma slot_valid_iff (s : Slot) :
  slot_valid s = true ↔
  ∃ u a, s = (Dict (Some "user") (Some u), Dict (Some "Virtual Assistant") (Some a))
         ∧ u ≠ "" ∧ a ≠ "".
Proof.
  destruct s as [m1 m2]. unfold slot_valid, valid_message_pair. cbn [fst snd].
  rewrite !andb_true_iff, !bool_decide_eq_true, !truthy_content.
  split.
  - intros (((((H1 & H2) & Hr1) & Hr2) & (u & Hu & Hune)) & (a & Ha & Hane)).
    destruct m1 as [|r1 c1], m2 as [|r2 c2]; try done.
    simpl in *. subst. by exists u, a.
  - intros (u & a & [= -> ->] & Hu & Ha). simpl.
    repeat split; try done; by eexists.
Qed.

Lemma slot_warnings_level c i slots :
  filter (λ r, level r = WARNING) (slot_warnings c i slots) = slot_warnings c i slots.
Proof.
  revert i. induction slots as [|s slots IH]; intros i; simpl; [done|].
  destruct (slot_valid s); simpl; [apply IH|].
  rewrite filter_cons_True by done. by rewrite IH.
Qed.

Lemma slot_warnings_length c i slots :
  length (slot_warnings c i slots) =
  length (filter (λ s, slot_valid s = false) slots).
Proof.
  revert i. induction slots as [|s slots IH]; intros i; simpl; [done|].
  rewrite filter_cons. destruct (slot_valid s) eqn:E; simpl.
  - apply IH.
  - by rewrite IH.
Qed.

Lemma filter_replicate_info (n : nat) (m : LogMsg) :
  filter (λ r, level r = WARNING) (replicate n (mkLog INFO m)) = [].
Proof. induction n as [|n IH]; [done|]. simpl. by rewrite filter_cons_False. Qed.

(** The warnings of a rehydration are those of its malformed slots. *)
Lemma rehydrate_logs_slot_warnings c slots w :
  filter (λ r, level r = WARNING) (rehydrate_logs c slots [] w) =
  slot_warnings c 0 slots.
Proof.
  unfold rehydrate_logs, switch_logs. rewrite !filter_app.
  assert (∀ l : list LogRecord, Forall (λ r, level r = INFO) l →
            filter (λ r, level r = WARNING) l = []) as Hinfo.
  { induction 1 as [|r l Hr _ IH]; [done|].
    rewrite filter_cons_False; [done|]. by rewrite Hr. }
  rewrite (Hinfo (match _ with Some _ => _ | None => _ end))
    by (destruct (chat_memories _ !! c); repeat constructor).
  rewrite !(Hinfo [_]) by repeat constructor. simpl.
  destruct slots as [|s slots]; [done|].
  change (transcript (s :: slots) ++ [])
    with (s.1 :: s.2 :: (transcript slots ++ [])).
  cbv iota. rewrite !filter_app, slot_warnings_level, filter_replicate_info.
  rewrite (Hinfo [_]) by repeat constructor. by rewrite !app_nil_r.
Qed.

Lemma valid_contents_nil slots :
  valid_contents slots = [] ↔ Forall (λ s, slot_valid s = false) slots.
Proof.
  unfold valid_contents. induction slots as [|s slots IH]; [done|].
  rewrite filter_cons, Forall_cons.
  destruct (slot_valid s) eqn:E.
  - rewrite decide_True by done. split; [done|by intros [? _]].
  - rewrite decide_False by (intros []). rewrite IH. tauto.
Qed.

(** C7. Rehydrating a transcript of adjacent slots, a slot being
    well-formed when its two messages are tagged ["user"] and
    ["Virtual Assistant"] and have non-empty contents.  A malformed slot
    is skipped: the pairs loaded are the most recent of the well-formed
    ones, in order and with the last of them among them, and the manager
    is left exactly as if the malformed slot were absent from the
    transcript.  Every malformed slot is reported by a warning carrying
    its index, and there are no other warnings.  The call succeeds if
    and only if the transcript is empty or at least one pair reached the
    buffer, and none does exactly when every slot is malformed. *)
Theorem rehydration_skips_malformed (W : Z) (chat_id : string)
    (slots : list Slot) (w : World) :
  truthy chat_id = true →
  manager_ok W (memory_manager w) → 0 < W →
  let r := load_chat_messages_from_history chat_id (transcript slots) w in
  let well_formed (s : Slot) : Prop :=
    ∃ u a, s = (Dict (Some "user") (Some u),
                Dict (Some "Virtual Assistant") (Some a)) ∧ u ≠ "" ∧ a ≠ "" in
  (∀ s, slot_valid s = true ↔ well_formed s) ∧
  (∃ dropped loaded,
     valid_contents slots = dropped ++ loaded ∧
     buffer_of r.2 chat_id = pair_messages loaded ∧
     (valid_contents slots ≠ [] → loaded ≠ [])) ∧
  (∀ pre s post, slots = pre ++ s :: post → ¬ well_formed s →
     memory_manager r.2 =
       memory_manager
         (load_chat_messages_from_history chat_id (transcript (pre ++ post)) w).2) ∧
  (∀ j s, slots !! j = Some s → ¬ well_formed s →
     mkLog WARNING (InvalidMessagePair (2 * j) chat_id) ∈ logs r.2) ∧
  (∃ new, logs r.2 = logs w ++ new ∧
     length (filter (λ l, level l = WARNING) new) =
     length (filter (λ s, slot_valid s = false) slots)) ∧
  (r.1 = true ↔ slots = [] ∨ buffer_of r.2 chat_id ≠ []) ∧
  (r.1 = false ↔ slots ≠ [] ∧ buffer_of r.2 chat_id = []) ∧
  (buffer_of r.2 chat_id = [] ↔ Forall (λ s, ¬ well_formed s) slots).
Proof.
  intros Ht Hok HW r well_formed.
  assert (∀ s, slot_valid s = false ↔ ¬ well_formed s) as Hbad.
  { intros s. unfold well_formed. rewrite <- slot_valid_iff.
    by destruct (slot_valid s). }
  assert (buffer_of r.2 chat_id =
          pair_messages (recent_pairs_of W (valid_contents slots))) as Hbuf.
  { unfold r. rewrite <- (app_nil_r (transcript slots)).
    apply rehydrated_buffer; simpl; done || lia. }
  assert (r = (match slots with
               | [] => true
               | _ => bool_decide
                        (0 < length (recent_pairs_of W (valid_contents slots)))%nat
               end,
               add_logs (rehydrate_logs chat_id slots [] w)
                 (with_manager (rehydrated chat_id slots w) w))) as Hrun.
  { unfold r. rewrite <- (app_nil_r (transcript slots)).
    rewrite (load_chat_messages_from_history_slots _ _ [] _ Ht) by (simpl; lia).
    destruct Hok as [-> _]. by destruct slots. }
  assert (r.1 = match slots with
                | [] => true
                | _ => bool_decide (0 < length (recent_pairs_of W (valid_contents slots)))%nat
                end) as Hret by by rewrite Hrun.
  assert (buffer_of r.2 chat_id = [] ↔
          length (recent_pairs_of W (valid_contents slots)) = 0%nat) as Hnil.
  { rewrite Hbuf. split.
    - intros H. apply (f_equal length) in H.
      rewrite pair_messages_length in H. simpl in H. lia.
    - intros H. apply nil_length_inv in H. by rewrite H. }
  assert (length (recent_pairs_of W (valid_contents slots)) = 0%nat ↔
          valid_contents slots = []) as Hlen.
  { unfold recent_pairs_of. rewrite slice_last_length.
    pose proof (max_pairs_of_bounds _ HW) as Hmax. split.
    - intros H0. apply nil_length_inv. lia.
    - by intros ->. }
  split; [intros s; apply slot_valid_iff|].
  split.
  { exists (take (length (valid_contents slots) - Z.to_nat (max_pairs_of W))
                 (valid_contents slots)),
           (recent_pairs_of W (valid_contents slots)).
    split; [unfold recent_pairs_of, slice_last; by rewrite take_drop|].
    split; [exact Hbuf|].
    intros Hne Hrec. apply Hne, Hlen. by rewrite Hrec. }
  split.
  { intros pre s post -> Hs%Hbad. unfold r.
    rewrite <- (app_nil_r (transcript (pre ++ s :: post))).
    rewrite <- (app_nil_r (transcript (pre ++ post))).
    rewrite !(load_chat_messages_from_history_slots _ _ [] _ Ht) by (simpl; lia).
    simpl. unfold rehydrated. by rewrite (valid_contents_skip _ _ _ Hs). }
  split.
  { intros j s Hj Hs%Hbad. rewrite Hrun. simpl.
    apply elem_of_app. right. by eapply rehydrate_logs_warning. }
  split.
  { exists (rehydrate_logs chat_id slots [] w). rewrite Hrun. simpl.
    split; [done|].
    by rewrite rehydrate_logs_slot_warnings, (slot_warnings_length chat_id 0). }
  split.
  { rewrite Hret, Hnil. destruct slots as [|s slots].
    + split; [by left|done].
    + rewrite bool_decide_eq_true. split.
      * intros H. right. lia.
      * intros [H|H]; [done|lia]. }
  split.
  { rewrite Hret, Hnil. destruct slots as [|s slots].
    + split; [done|]. by intros [? _].
    + rewrite bool_decide_eq_false. split.
      * intros H. split; [done|lia].
      * intros [_ H]. lia. }
  rewrite Hnil, Hlen, valid_contents_nil.
  split; intros Hall; (eapply Forall_impl; [exact Hall|]); intros s; apply Hbad.
Qed.

Lemma rehydration_skips_malformed_witness :
  let r := load_chat_messages_from_history "s" (transcript malformed_slots)
             (init_world test_uuid4) in
  buffer_of r.2 "s" =
    [HumanMessage "q1"; AIMessage "a1"; HumanMessage "q5"; AIMessage "a5"] ∧
  mkLog WARNING (InvalidMessagePair 2 "s") ∈ logs r.2 ∧
  mkLog WARNING (InvalidMessagePair 4 "s") ∈ logs r.2 ∧
  mkLog WARNING (InvalidMessagePair 6 "s") ∈ logs r.2 ∧
  length (filter (λ l, level l = WARNING) (logs r.2)) = 3%nat ∧
  r.1 = true.
Proof.
  intros r.
  assert (buffer_of r.2 "s" =
            [HumanMessage "q1"; AIMessage "a1"; HumanMessage "q5"; AIMessage "a5"])
    as Hbuf by (vm_compute; reflexivity).
  destruct (rehydration_skips_malformed 6 "s" malformed_slots (init_world test_uuid4))
    as (Hwf & _ & _ & Hwarn & _ & Hret & _).
  - reflexivity.
  - apply manager_ok_new.
  - lia.
  - assert (∀ s, slot_valid s = false →
              ¬ ∃ u a, s = (Dict (Some "user") (Some u),
                            Dict (Some "Virtual Assistant") (Some a))
                       ∧ u ≠ "" ∧ a ≠ "") as Hbad.
    { intros s Hs Hw. apply Hwf in Hw. congruence. }
    split; [exact Hbuf|].
    split; [apply (Hwarn 1%nat _ eq_refl), Hbad; reflexivity|].
    split; [apply (Hwarn 2%nat _ eq_refl), Hbad; reflexivity|].
    split; [apply (Hwarn 3%nat _ eq_refl), Hbad; reflexivity|].
    split; [vm_compute; reflexivity|].
    apply Hret. right. fold r. rewrite Hbuf. discriminate.
Defined.

(** C7 as stated fails on a transcript tagged as the session store
    contract writes it: under the role tag ["assistant"] a pair with
    both contents is reported as invalid, nothing is loaded and the call
    reports failure. *)
Lemma rehydration_assistant_tag_counterexample :
  let r := load_chat_messages_from_history "s" assistant_tagged
             (init_world test_uuid4) in
  assistant_tagged =
    [Dict (Some "user") (Some "q1"); Dict (Some "assistant") (Some "a1")] ∧
  r.1 = false ∧
  buffer_of r.2 "s" = [] ∧
  logs r.2 =
    [mkLog INFO (CreatedMemory "s"); mkLog INFO (SwitchedTo "s");
     mkLog INFO (ClearedMemory (Some "s"));
     mkLog WARNING (InvalidMessagePair 0 "s");
     mkLog INFO (LoadedPairs 0 0 "s")].
Proof. repeat split; vm_compute; reflexivity. Qed.

(** How many of the well-formed pairs are loaded is what
    [max_pairs] allows: with the window size 6, of four well-formed
    slots around a malformed one the last three are loaded. *)
Example rehydration_four_around_one :
  let r := load_chat_messages_from_history "s" (transcript four_around_one)
             (init_world test_uuid4) in
  r.1 = true ∧
  buffer_of r.2 "s" =
    [HumanMessage "q2"; AIMessage "a2"; HumanMessage "q3"; AIMessage "a3";
     HumanMessage "q4"; AIMessage "a4"].
Proof. split; vm_compute; reflexivity. Qed.

Lemma rehydrate_logs_warnings c slots m w :
  filter (λ r, level r = WARNING) (rehydrate_logs c slots [m] w) =
  filter (λ r, level r = WARNING) (rehydrate_logs c slots [] w).
Proof.
  unfold rehydrate_logs. destruct slots as [|s slots]; [|done].
  simpl. by rewrite !filter_app.
Qed.

(** C10, as the code has it.  The last message of an odd-length
    transcript is never loaded and raises no warning of its own; when at
    least one complete slot precedes it, the call behaves exactly as on
    the transcript without it. *)
Theorem trailing_message_ignored (chat_id : string) (slots : list Slot)
    (last : PyMessage) (w : World) :
  truthy chat_id = true →
  let r1 := load_chat_messages_from_history chat_id (transcript slots ++ [last]) w in
  let r0 := load_chat_messages_from_history chat_id (transcript slots) w in
  memory_manager r1.2 = memory_manager r0.2 ∧
  filter (λ r, level r = WARNING) (logs r1.2) =
    filter (λ r, level r = WARNING) (logs r0.2) ∧
  (slots ≠ [] → r1 = r0).
Proof.
  intros Ht r1 r0. unfold r1, r0.
  rewrite (load_chat_messages_from_history_slots _ _ _ _ Ht) by (simpl; lia).
  rewrite (load_chat_messages_from_history_even _ _ _ Ht).
  cbn [fst snd memory_manager logs add_logs with_manager].
  split; [done|]. split.
  - by rewrite !filter_app, rehydrate_logs_warnings.
  - intros Hne. destruct slots as [|s slots]; [done|].
    unfold rehydrate_logs. done.
Qed.

Lemma trailing_message_ignored_witness :
  let slots := [(user_msg "q1", assistant_msg "a1")] in
  load_chat_messages_from_history "s" (transcript slots ++ [user_msg "q2"])
    (init_world test_uuid4) =
  load_chat_messages_from_history "s" (transcript slots) (init_world test_uuid4).
Proof.
  apply (trailing_message_ignored "s" [(user_msg "q1", assistant_msg "a1")]
           (user_msg "q2") (init_world test_uuid4)).
  - reflexivity.
  - discriminate.
Defined.

(** C10 as stated fails on a transcript of a single message: the call
    reports failure, although without that message it reports success. *)
Lemma trailing_message_counterexample :
  (load_chat_messages_from_history "s" [user_msg "q1"] (init_world test_uuid4)).1
    = false ∧
  (load_chat_messages_from_history "s" [] (init_world test_uuid4)).1 = true.
Proof. split; vm_compute; reflexivity. Qed.

(** ** Deleting and creating sessions *)

(** C8. Deleting a session that has a buffer removes that buffer and no
    other, and reports success; if the session was in focus the focus is
    cleared and the next read returns the empty history; otherwise the
    focus is kept.  Deleting a session without a buffer reports failure
    and leaves the manager as it was. *)
Theorem delete_chat_memory_spec (chat_id : string) (w : World) :
  let r := delete_chat_memory chat_id w in
  let mgr := memory_manager w in
  let mgr' := memory_manager r.2 in
  match chat_memories mgr !! chat_id with
  | Some _ =>
      r.1 = true ∧
      chat_memories mgr' !! chat_id = None ∧
      (∀ c, c ≠ chat_id → chat_memories mgr' !! c = chat_memories mgr !! c) ∧
      (current_chat_id mgr = Some chat_id →
         current_chat_id mgr' = None ∧ (load_memory_variables r.2).1 = []) ∧
      (current_chat_id mgr ≠ Some chat_id →
         current_chat_id mgr' = current_chat_id mgr)
  | None => r.1 = false ∧ mgr' = mgr
  end.
Proof.
  intros r mgr mgr'.
  destruct (delete_chat_memory_manager chat_id w) as [Hret Hmgr].
  fold r in Hret, Hmgr. fold mgr in Hret, Hmgr. fold mgr' in Hmgr.
  unfold deleted in Hmgr.
  destruct (chat_memories mgr !! chat_id) as [m|] eqn:E.
  - rewrite bool_decide_eq_true_2 in Hret by eauto.
    split; [done|]. rewrite Hmgr. simpl.
    split; [apply lookup_delete_eq|].
    split; [intros c Hc; by apply lookup_delete_ne|].
    split.
    + intros Hcur. rewrite bool_decide_eq_true_2 by done. split; [done|].
      destruct (load_memory_variables_manager r.2) as [-> _].
      fold mgr'. rewrite Hmgr. unfold get_current_memory. simpl.
      by rewrite bool_decide_eq_true_2.
    + intros Hcur. by rewrite bool_decide_eq_false_2.
  - rewrite bool_decide_eq_false_2 in Hret by (intros [? ?]; done). done.
Qed.

Lemma delete_chat_memory_spec_witness :
  let r := delete_chat_memory "s" one_pair_world in
  r.1 = true ∧
  chat_memories (memory_manager r.2) !! "s" = None ∧
  current_chat_id (memory_manager r.2) = None ∧
  (load_memory_variables r.2).1 = [].
Proof.
  pose proof (delete_chat_memory_spec "s" one_pair_world) as H.
  cbv zeta in H.
  destruct (chat_memories (memory_manager one_pair_world) !! "s") eqn:E;
    [|vm_compute in E; discriminate E].
  destruct H as (H1 & H2 & _ & H4 & _).
  destruct H4 as [H5 H6]; [vm_compute; reflexivity|].
  repeat split; assumption.
Defined.

(** C9 as stated fails: [create_new_chat_memory] on an identifier that
    already has a buffer discards the buffer's contents. *)
Lemma create_new_chat_memory_counterexample :
  messages_of one_pair_world "s" = [HumanMessage "q"; AIMessage "a"] ∧
  messages_of (create_new_chat_memory "s" one_pair_world).2 "s" = [].
Proof. split; vm_compute; reflexivity. Qed.

(** C9, as the code has it.  [create_new_chat_memory] returns the
    identifier it was given, or, given none, the value newly drawn from
    [uuid4]; it assigns that identifier a fresh empty memory of window
    [max_memory_size], replacing any memory the identifier had, and
    leaves every other session and the focus as they were.  Allocation
    only when absent is what [switch_to_chat] does: it succeeds, puts the
    session in focus and keeps the registry unchanged when the identifier
    already has a memory. *)
Theorem create_new_chat_memory_spec (chat_id : string) (w : World) :
  let r := create_new_chat_memory chat_id w in
  let mgr := memory_manager w in
  let mgr' := memory_manager r.2 in
  r.1 = (if truthy chat_id then chat_id else uuid4 w (uuid_calls w)) ∧
  uuid_calls r.2 = (if truthy chat_id then uuid_calls w else S (uuid_calls w)) ∧
  chat_memories mgr' !! r.1 = Some (Langchain.new (max_memory_size mgr)) ∧
  buffer_of r.2 r.1 = [] ∧
  (∀ c, c ≠ r.1 → chat_memories mgr' !! c = chat_memories mgr !! c) ∧
  current_chat_id mgr' = current_chat_id mgr ∧
  let s := switch_to_chat chat_id w in
  s.1 = true ∧
  current_chat_id (memory_manager s.2) = Some chat_id ∧
  (is_Some (chat_memories mgr !! chat_id) →
     chat_memories (memory_manager s.2) = chat_memories mgr).
Proof.
  intros r mgr mgr'.
  destruct (create_new_chat_memory_manager chat_id w) as [Hret Hmgr].
  fold r in Hret, Hmgr. fold mgr in Hmgr. fold mgr' in Hmgr.
  unfold minted_id in *.
  split; [done|]. split.
  { unfold r, create_new_chat_memory. munfold. by destruct (truthy chat_id). }
  assert (chat_memories mgr' !! r.1 = Some (Langchain.new (max_memory_size mgr))) as Hnew.
  { rewrite Hmgr, Hret. simpl. apply lookup_insert_eq. }
  split; [done|]. split.
  { unfold buffer_of. fold mgr'. rewrite Hnew. simpl.
    unfold Langchain.buffer. simpl. by destruct (0 <? max_memory_size mgr). }
  split.
  { intros c Hc. rewrite Hmgr. simpl. rewrite lookup_insert_ne; [done|].
    by rewrite <- Hret. }
  split; [by rewrite Hmgr|].
  cbv zeta. destruct (switch_to_chat_manager chat_id w) as (Hs & Hsm & _).
  split; [done|]. rewrite Hsm. unfold switched. fold mgr.
  split; [done|]. intros [m Hm]. by rewrite Hm.
Qed.

Lemma create_new_chat_memory_spec_witness :
  let r := create_new_chat_memory "" one_pair_world in
  r.1 = "uuid-0" ∧
  buffer_of r.2 "uuid-0" = [] ∧
  messages_of r.2 "s" = [HumanMessage "q"; AIMessage "a"].
Proof.
  destruct (create_new_chat_memory_spec "" one_pair_world)
    as (H1 & _ & _ & H4 & H5 & _).
  assert ((create_new_chat_memory "" one_pair_world).1 = "uuid-0") as Hid.
  { rewrite H1. vm_compute. reflexivity. }
  rewrite Hid in H4, H5.
  split; [exact Hid|]. split; [exact H4|].
  unfold messages_of. rewrite H5 by discriminate. vm_compute. reflexivity.
Defined.

(** ** Floats: the order of the comparisons *)

Lemma SFcompare_rank a b :
  a ≠ S754_nan → b ≠ S754_nan →
  SFcompare a b =
    Some (if decide (rank_lt (float_rank a) (float_rank b)) then Lt
          else if decide (float_rank a = float_rank b) then Eq else Gt).
Proof.
  intros Ha Hb. unfold rank_lt.
  destruct a as [sa|sa| |sa ma ea], b as [sb|sb| |sb mb eb]; try done;
    try destruct sa; try destruct sb; simpl; try done.
  all: rewrite ?Pos.compare_cont_spec; simpl.
  all: try (destruct (Z.compare_spec ea eb); destruct (Pos.compare_spec ma mb)).
  all: repeat case_decide; simpl; try done; try (exfalso; simplify_eq/=; lia).
  all: try (exfalso; match goal with H : ¬ _ |- _ => apply H end; simpl; lia).
  all: try (exfalso; match goal with H : ¬ (_ = _) |- _ => apply H end; repeat f_equal; lia).
Qed.

Lemma SFcompare_nan a b :
  a = S754_nan ∨ b = S754_nan → SFcompare a b = None.
Proof. intros [-> | ->]; [done|]. by destruct a. Qed.

Lemma float_le_rank a b :
  float_le a b ↔
  a ≠ S754_nan ∧ b ≠ S754_nan ∧
  (rank_lt (float_rank a) (float_rank b) ∨ float_rank a = float_rank b).
Proof.
  unfold float_le, SFleb.
  destruct (decide (a = S754_nan)) as [Ha|Ha].
  { rewrite SFcompare_nan by auto. split; [done|tauto]. }
  destruct (decide (b = S754_nan)) as [Hb|Hb].
  { rewrite SFcompare_nan by auto. split; [done|tauto]. }
  rewrite SFcompare_rank by done.
  repeat case_decide; split; try done; tauto.
Qed.

Lemma float_lt_rank a b :
  float_lt a b ↔
  a ≠ S754_nan ∧ b ≠ S754_nan ∧ rank_lt (float_rank a) (float_rank b).
Proof.
  unfold float_lt, SFltb.
  destruct (decide (a = S754_nan)) as [Ha|Ha].
  { rewrite SFcompare_nan by auto. split; [done|tauto]. }
  destruct (decide (b = S754_nan)) as [Hb|Hb].
  { rewrite SFcompare_nan by auto. split; [done|tauto]. }
  rewrite SFcompare_rank by done.
  repeat case_decide; split; try done; tauto.
Qed.

Lemma float_eq_rank a b :
  float_eq a b ↔
  a ≠ S754_nan ∧ b ≠ S754_nan ∧ float_rank a = float_rank b.
Proof.
  unfold float_eq, SFeqb.
  destruct (decide (a = S754_nan)) as [Ha|Ha].
  { rewrite SFcompare_nan by auto. split; [done|tauto]. }
  destruct (decide (b = S754_nan)) as [Hb|Hb].
  { rewrite SFcompare_nan by auto. split; [done|tauto]. }
  rewrite SFcompare_rank by done.
  repeat case_decide; split; try done; try tauto.
  intros (_ & _ & Heq). exfalso.
  unfold rank_lt in *. rewrite Heq in *. lia.
Qed.

Lemma rank_lt_trans a b c : rank_lt a b → rank_lt b c → rank_lt a c.
Proof. unfold rank_lt. lia. Qed.

Lemma rank_lt_irrefl a : ¬ rank_lt a a.
Proof. unfold rank_lt. lia. Qed.

Lemma rank_trichotomy a b : rank_lt a b ∨ a = b ∨ rank_lt b a.
Proof.
  destruct a as [[a1 a2] a3], b as [[b1 b2] b3]. unfold rank_lt. simpl.
  destruct (decide (a1 = b1)), (decide (a2 = b2)), (decide (a3 = b3));
    subst; auto; lia.
Qed.

Lemma float_le_trans x y z : float_le x y → float_le y z → float_le x z.
Proof.
  rewrite !float_le_rank. intros (Hx & Hy & Hxy) (_ & Hz & Hyz).
  split; [done|]. split; [done|].
  destruct Hxy as [Hxy|Hxy], Hyz as [Hyz|Hyz].
  - left. by eapply rank_lt_trans.
  - left. by rewrite <- Hyz.
  - left. by rewrite Hxy.
  - right. congruence.
Qed.

Lemma float_le_refl x : x ≠ S754_nan → float_le x x.
Proof. intros Hx. apply float_le_rank. auto. Qed.

(** [not (x <= y)] is [y < x] unless one of the two is a NaN. *)
Lemma float_le_false x y :
  x ≠ S754_nan → y ≠ S754_nan → SFleb x y = false → float_lt y x.
Proof.
  intros Hx Hy H. apply float_lt_rank. split; [done|]. split; [done|].
  destruct (rank_trichotomy (float_rank x) (float_rank y)) as [Hr|[Hr|Hr]];
    [| |done].
  - assert (float_le x y) as Hle by (apply float_le_rank; auto).
    unfold float_le in Hle. congruence.
  - assert (float_le x y) as Hle by (apply float_le_rank; auto).
    unfold float_le in Hle. congruence.
Qed.

Lemma float_lt_le x y : float_lt x y → float_le x y.
Proof. rewrite float_lt_rank, float_le_rank. tauto. Qed.

Lemma float_lt_not_le x y : float_lt x y → ¬ float_le y x.
Proof.
  rewrite float_lt_rank, float_le_rank. intros (_ & _ & H) (_ & _ & [H'|H']).
  - eapply rank_lt_irrefl, rank_lt_trans; eassumption.
  - rewrite H' in H. by eapply rank_lt_irrefl.
Qed.

Lemma float_lt_not_eq x y z : float_lt x y → float_eq x z → ¬ float_eq y z.
Proof.
  rewrite float_lt_rank, !float_eq_rank.
  intros (_ & _ & H) (_ & _ & H1) (_ & _ & H2).
  rewrite H1, H2 in H. by eapply rank_lt_irrefl.
Qed.

(** The literals are the floats nearest to the decimal fractions: the
    division of the format rounds the exact quotient of two integers. *)
Example float_literals :
  float_0_3 = tenths 3 ∧ float_0_5 = tenths 5 ∧
  float_of_nat 5 = S754_finite false 5629499534213120 (-50) ∧
  float_lt float_0_3 float_0_5.
Proof. repeat split; vm_compute; reflexivity. Qed.

Lemma float_eq_le x y z : float_eq x z → float_eq y z → float_le x y.
Proof.
  rewrite !float_eq_rank, float_le_rank.
  intros (Hx & _ & H1) (Hy & _ & H2). split; [done|]. split; [done|].
  right. congruence.
Qed.

Lemma score_not_nan d :
  relevance_score d ≠ Some S754_nan → score d ≠ S754_nan.
Proof. unfold score. destruct (relevance_score d); [congruence|done]. Qed.

(** ** Context assembly *)

Lemma insert_by_score_perm d l : insert_by_score d l ≡ₚ d :: l.
Proof.
  induction l as [|y l IH]; simpl; [done|].
  destruct (float_ge (score d) (score y)); [done|].
  rewrite IH. apply perm_swap.
Qed.

Lemma sorted_by_score_perm l : sorted_by_score l ≡ₚ l.
Proof.
  induction l as [|d l IH]; simpl; [done|].
  rewrite insert_by_score_perm. by rewrite IH.
Qed.

Lemma insert_by_score_sorted d l :
  score d ≠ S754_nan → Forall (λ y, score y ≠ S754_nan) l →
  StronglySorted score_ge l → StronglySorted score_ge (insert_by_score d l).
Proof.
  intros Hd Hl. induction 1 as [|y l Hs IH Hy]; simpl.
  - repeat constructor.
  - apply Forall_cons in Hl as [Hyn Hl].
    destruct (float_ge (score d) (score y)) eqn:E.
    + constructor; [by constructor|].
      constructor; [done|].
      eapply Forall_impl; [exact Hy|]. intros z Hz. unfold score_ge in *.
      by eapply float_le_trans.
    + apply float_le_false in E; [|done..]. constructor; [by apply IH|].
      rewrite insert_by_score_perm. constructor; [|done].
      by apply float_lt_le.
Qed.

Lemma sorted_by_score_sorted l :
  Forall (λ y, score y ≠ S754_nan) l → StronglySorted score_ge (sorted_by_score l).
Proof.
  induction 1 as [|d l Hd Hl IH]; simpl; [constructor|].
  apply insert_by_score_sorted; [done| |done].
  by rewrite sorted_by_score_perm.
Qed.

Lemma insert_by_score_class (x : spec_float) d l :
  filter (λ y, float_eq (score y) x) (insert_by_score d l) =
  filter (λ y, float_eq (score y) x) (d :: l).
Proof.
  induction l as [|y l IH]; simpl; [done|].
  destruct (float_ge (score d) (score y)) eqn:E; [done|].
  rewrite filter_cons, IH, !filter_cons.
  repeat case_decide; try done.
  assert (float_le (score y) (score d)) as Hle by by eapply float_eq_le.
  unfold float_ge in E. unfold float_le in Hle. congruence.
Qed.

Lemma sorted_by_score_stable (x : spec_float) l :
  filter (λ y, float_eq (score y) x) (sorted_by_score l) =
  filter (λ y, float_eq (score y) x) l.
Proof.
  induction l as [|d l IH]; simpl; [done|].
  rewrite insert_by_score_class, !filter_cons, IH. done.
Qed.

Lemma filter_threshold l :
  List.filter (λ doc, float_ge (score doc) relevance_threshold) l =
  filter (λ d, float_le relevance_threshold (score d)) l.
Proof.
  induction l as [|d l IH]; simpl; [done|].
  rewrite filter_cons, IH. unfold float_ge.
  destruct (decide (float_le relevance_threshold (score d))) as [H|H];
    unfold float_le in H.
  - by rewrite H.
  - by apply not_true_is_false in H as ->.
Qed.

Lemma context_loop_spec i selected parts srcs total :
  Forall has_content selected →
  context_loop i selected parts srcs total =
    Some (parts ++ imap (λ j d, formatted_content (i + j) d (text_of d)) selected,
          srcs ++ imap (λ j d, (source_of (i + j) d, page_of d)) selected,
          foldl float_add total (score <$> selected)).
Proof.
  intros Hall. revert i parts srcs total.
  induction Hall as [|d l [content Hd] _ IH]; intros i parts srcs total; simpl.
  - by rewrite !app_nil_r.
  - rewrite Hd, IH, Nat.add_0_r, <- !app_assoc. simpl.
    unfold text_of at 2. rewrite Hd. simpl.
    do 3 f_equal.
    + f_equal. f_equal. apply imap_ext. intros j x _. simpl. f_equal. lia.
    + f_equal. f_equal. apply imap_ext. intros j x _. simpl. do 2 f_equal. lia.
Qed.

Lemma context_loop_fault i selected parts srcs total :
  ¬ Forall has_content selected →
  context_loop i selected parts srcs total = None.
Proof.
  revert i parts srcs total.
  induction selected as [|d l IH]; intros i parts srcs total Hno; simpl.
  - destruct Hno. constructor.
  - destruct (page_content d) as [content|] eqn:Hd; [|done].
    apply IH. intros Hl. apply Hno. constructor; [|done].
    unfold has_content. by rewrite Hd.
Qed.

Lemma select_documents_eq documents :
  select_documents documents =
    take max_docs (filter (λ d, float_le relevance_threshold (score d))
                          (sorted_by_score documents)).
Proof. unfold select_documents. by rewrite filter_threshold. Qed.

Lemma select_documents_low documents :
  Forall (λ d, float_lt (score d) relevance_threshold) documents →
  select_documents documents = [].
Proof.
  intros Hlow. rewrite select_documents_eq.
  rewrite <- sorted_by_score_perm in Hlow.
  induction Hlow as [|d l Hd _ IH]; [done|].
  rewrite filter_cons_False; [done|]. by apply float_lt_not_le.
Qed.

(** The result when every selected document can be read, and when one
    cannot. *)
Lemma get_enhanced_context_selected documents query chat_id w :
  documents ≠ [] →
  let selected := select_documents documents in
  Forall has_content selected →
  (_get_enhanced_context documents query chat_id w).1 =
    {| context :=
         match selected with
         | [] => low_relevance_text
         | _ => String.concat (newline +:+ newline)
                  (imap (λ j d, formatted_content (S j) d (text_of d)) selected)
         end;
       sources := imap (λ j d, (source_of (S j) d, page_of d)) selected;
       relevance := mean_score selected |}.
Proof.
  intros Hne selected Hall. unfold _get_enhanced_context.
  destruct documents as [|d0 documents]; [done|]. munfold.
  fold selected. rewrite (context_loop_spec 1 selected [] [] float_zero Hall).
  simpl. unfold mean_score, float_sum.
  by destruct selected.
Qed.

Lemma get_enhanced_context_fault documents query chat_id w :
  ¬ Forall has_content (select_documents documents) →
  (_get_enhanced_context documents query chat_id w).1 = error_context.
Proof.
  intros Hno. unfold _get_enhanced_context.
  destruct documents as [|d0 documents].
  { destruct Hno. constructor. }
  munfold. by rewrite (context_loop_fault 1 _ [] [] float_zero Hno).
Qed.

(** C3. Without documents the result is the fixed "no information"
    text with no sources and score 0; with documents that all score
    below the threshold it is the "low relevance" text, again with no
    sources and score 0, and the two texts differ. *)
Theorem enhanced_context_empty_and_low (query : string)
    (chat_id : option string) (w : World) :
  (_get_enhanced_context [] query chat_id w).1 =
    {| context := no_information_text; sources := [];
       relevance := float_zero |} ∧
  (∀ documents,
     documents ≠ [] →
     Forall (λ d, float_lt (score d) relevance_threshold) documents →
     (_get_enhanced_context documents query chat_id w).1 =
       {| context := low_relevance_text; sources := [];
          relevance := float_zero |}) ∧
  low_relevance_text ≠ no_information_text.
Proof.
  split; [done|]. split; [|done].
  intros documents Hne Hlow.
  unfold _get_enhanced_context.
  destruct documents as [|d0 documents]; [done|]. munfold.
  rewrite (select_documents_low _ Hlow). done.
Qed.

Lemma enhanced_context_empty_and_low_witness :
  (_get_enhanced_context [doc "a" (Some (tenths 2))] "q" None
     (init_world test_uuid4)).1 =
    {| context := low_relevance_text; sources := [];
       relevance := float_zero |}.
Proof.
  destruct (enhanced_context_empty_and_low "q" None (init_world test_uuid4))
    as (_ & H & _).
  apply H; [discriminate|].
  constructor; [|constructor]. reflexivity.
Defined.

(** C4. For a non-empty list of documents whose scores are numbers, the
    documents are stably sorted by [relevance_score], 0.5 standing for a
    missing score, highest first (a permutation, in descending order, in
    which documents of equal score keep their retrieval order); the
    documents scoring at least 0.3 are kept, at most five of them, in
    that order.  When the text of every kept document can be read,
    sources and context list the kept documents in that order and the
    relevance is what double-precision arithmetic gives for their mean:
    the scores are added in that order, starting from 0, and the sum is
    divided by their number, each operation rounded; it is 0 if none is
    kept.  Otherwise the result is the fixed error record. *)
Theorem enhanced_context_selection (documents : list Document)
    (query : string) (chat_id : option string) (w : World) :
  documents ≠ [] →
  Forall (λ d, relevance_score d ≠ Some S754_nan) documents →
  let key (d : Document) : spec_float :=
    match relevance_score d with
    | Some x => x
    | None => S754_finite false 4503599627370496 (-53)
    end in
  let r := (_get_enhanced_context documents query chat_id w).1 in
  ∃ sorted_docs selected : list Document,
    sorted_docs ≡ₚ documents ∧
    StronglySorted (λ a b, float_le (key b) (key a)) sorted_docs ∧
    (∀ x : spec_float, filter (λ d, float_eq (key d) x) sorted_docs =
                       filter (λ d, float_eq (key d) x) documents) ∧
    selected =
      take 5 (filter (λ d, float_le (S754_finite false 5404319552844595 (-54))
                                    (key d)) sorted_docs) ∧
    (Forall has_content selected →
       sources r = imap (λ j d, (source_of (S j) d, page_of d)) selected ∧
       context r =
         match selected with
         | [] => low_relevance_text
         | _ => String.concat (newline +:+ newline)
                  (imap (λ j d, formatted_content (S j) d (text_of d)) selected)
         end ∧
       relevance r =
         match selected with
         | [] => S754_zero false
         | _ => float_div (foldl float_add (S754_zero false) (key <$> selected))
                          (float_of_nat (length selected))
         end) ∧
    (¬ Forall has_content selected → r = error_context).
Proof.
  intros Hne Hnum key r.
  assert (Forall (λ d, score d ≠ S754_nan) documents) as Hnan.
  { eapply Forall_impl; [exact Hnum|]. apply score_not_nan. }
  exists (sorted_by_score documents), (select_documents documents).
  split; [apply sorted_by_score_perm|].
  split; [exact (sorted_by_score_sorted documents Hnan)|].
  split; [intros x; exact (sorted_by_score_stable x documents)|].
  split; [exact (select_documents_eq documents)|].
  split.
  - intros Hall. unfold r.
    rewrite (get_enhanced_context_selected documents query chat_id w Hne Hall).
    done.
  - intros Hno. by apply get_enhanced_context_fault.
Qed.

Lemma enhanced_context_selection_witness :
  let r := (_get_enhanced_context sample_documents "q" None
              (init_world test_uuid4)).1 in
  (∃ sorted_docs selected : list Document,
     sorted_docs ≡ₚ sample_documents ∧
     selected =
       take 5 (filter (λ d, float_le (S754_finite false 5404319552844595 (-54))
                                     (score d)) sorted_docs) ∧
     (Forall has_content selected →
        relevance r =
          match selected with
          | [] => S754_zero false
          | _ => float_div
                   (foldl float_add (S754_zero false) (score <$> selected))
                   (float_of_nat (length selected))
          end)) ∧
  page_content <$> select_documents sample_documents =
    [Some "g"; Some "c"; Some "f"; Some "b"; Some "d"] ∧
  sources r =
    [("Document 1", "Unknown"); ("Document 2", "Unknown");
     ("Document 3", "Unknown"); ("Document 4", "Unknown");
     ("Document 5", "Unknown")] ∧
  context r =
    String.concat (newline +:+ newline)
      ["Source 1 (from Document 1):" +:+ newline +:+ "g";
       "Source 2 (from Document 2):" +:+ newline +:+ "c";
       "Source 3 (from Document 3):" +:+ newline +:+ "f";
       "Source 4 (from Document 4):" +:+ newline +:+ "b";
       "Source 5 (from Document 5):" +:+ newline +:+ "d"] ∧
  relevance r = S754_finite false 6845471433603154 (-53).
Proof.
  intros r. split; [|repeat split; vm_compute; reflexivity].
  destruct (enhanced_context_selection sample_documents "q" None
              (init_world test_uuid4))
    as (sorted_docs & selected & H1 & _ & _ & H4 & H5 & _).
  - discriminate.
  - repeat constructor; discriminate.
  - exists sorted_docs, selected. split; [exact H1|]. split; [exact H4|].
    intros Hall. by destruct (H5 Hall) as (_ & _ & Hr).
Defined.

(** C4 as stated fails: three documents that all score 0.4 have the
    mean 0.4, and the relevance returned is the next float above it,
    0.4000000000000001. *)
Lemma enhanced_context_mean_counterexample :
  let documents := [doc "a" (Some (tenths 4)); doc "b" (Some (tenths 4));
                    doc "c" (Some (tenths 4))] in
  let r := (_get_enhanced_context documents "q" None (init_world test_uuid4)).1 in
  tenths 4 = S754_finite false 7205759403792794 (-54) ∧
  select_documents documents = documents ∧
  relevance r = S754_finite false 7205759403792795 (-54) ∧
  ¬ float_eq (relevance r) (tenths 4) ∧
  float_lt (tenths 4) (relevance r).
Proof.
  intros documents r.
  split; [vm_compute; reflexivity|]. split; [vm_compute; reflexivity|].
  split; [vm_compute; reflexivity|]. split; [|vm_compute; reflexivity].
  vm_compute. discriminate.
Qed.

(** The mean of the scores 1.0, 0.5 and 0.5 is the float
    0.6666666666666666, which is below two thirds. *)
Example mean_of_three :
  relevance (_get_enhanced_context
               [doc "a" (Some (tenths 10)); doc "b" None; doc "c" (Some (tenths 5))]
               "q" None (init_world test_uuid4)).1 =
    S754_finite false 6004799503160661 (-53).
Proof. vm_compute. reflexivity. Qed.

(** The kept documents of the sample, in order: ties (["c"] and ["f"],
    ["b"] and ["d"]) keep their retrieval order and the cut is at five. *)
Example select_sample_documents :
  page_content <$> select_documents sample_documents =
    [Some "g"; Some "c"; Some "f"; Some "b"; Some "d"].
Proof. vm_compute. reflexivity. Qed.

(** A score of exactly 0.3 passes the threshold, the float just below
    it does not. *)
Example select_at_threshold :
  select_documents
    [doc "u" (Some (S754_finite false 5404319552844594 (-54)));
     doc "v" (Some (tenths 3))] = [doc "v" (Some (tenths 3))].
Proof. vm_compute. reflexivity. Qed.

(** ** Query validation *)

Lemma lstrip_whitespace_only s : whitespace_only s = true → lstrip s = "".
Proof.
  induction s as [|a s IH]; simpl; [done|].
  intros [Ha Hs]%andb_true_iff. rewrite Ha. by apply IH.
Qed.

Lemma strip_whitespace_only s : whitespace_only s = true → strip s = "".
Proof. intros H. unfold strip. by rewrite (lstrip_whitespace_only _ H). Qed.

Lemma truthy_length s : truthy s = true → (1 ≤ String.length s)%nat.
Proof. destruct s; simpl; [done|lia]. Qed.

Lemma validate_query_invalid query :
  query = "" ∨ whitespace_only query = true
    ∨ (max_query_length < String.length query)%nat →
  _validate_query query = Invalid "Empty query" ∨
  _validate_query query = Invalid "Query too long".
Proof.
  intros H. unfold _validate_query.
  destruct (truthy query) eqn:Hq; simpl; [|by left].
  destruct (truthy (strip query)) eqn:Hs; simpl; [|by left].
  apply truthy_length in Hs.
  destruct (String.length (strip query) <? 1)%nat eqn:E.
  { apply Nat.ltb_lt in E. lia. }
  destruct H as [->|[H|H]].
  - done.
  - rewrite (strip_whitespace_only _ H) in Hs. simpl in Hs. lia.
  - apply Nat.ltb_lt in H. rewrite H. by right.
Qed.

(** C5. A query that is empty, consists of whitespace only or is longer
    than [max_query_length] characters makes [process_query] yield exactly
    one fragment, the validation error; no retrieval or generation call
    is made and the memory manager, hence every buffer, is left as it
    was. *)
Theorem invalid_query_short_circuit (env : Env) (query : string)
    (chat_id : option string) (w : World) :
  query = "" ∨ whitespace_only query = true
    ∨ (max_query_length < String.length query)%nat →
  let r := process_query env query chat_id w in
  (r.1 = ["Invalid query: Empty query"] ∨
   r.1 = ["Invalid query: Query too long"]) ∧
  calls r.2 = calls w ∧
  memory_manager r.2 = memory_manager w ∧
  chain r.2 = chain w.
Proof.
  intros H r. unfold r, process_query. munfold.
  destruct (validate_query_invalid _ H) as [-> | ->]; simpl; auto.
Qed.

Lemma invalid_query_short_circuit_witness :
  let r := process_query
             {| start_time := 0; chain_creatable := true;
                retriever_invoke := λ _, Some sample_documents;
                llm_stream := λ _, StreamChunk "answer" 1 StreamEnd |}
             "   " (Some "s") one_pair_world in
  r.1 = ["Invalid query: Empty query"] ∧
  calls r.2 = [] ∧
  memory_manager r.2 = memory_manager one_pair_world.
Proof.
  destruct (invalid_query_short_circuit
              {| start_time := 0; chain_creatable := true;
                 retriever_invoke := λ _, Some sample_documents;
                 llm_stream := λ _, StreamChunk "answer" 1 StreamEnd |}
              "   " (Some "s") one_pair_world) as (H1 & H2 & H3 & _).
  - right. left. reflexivity.
  - split; [|split; [exact H2|exact H3]].
    destruct H1 as [H1|H1]; [exact H1|]. vm_compute in H1. discriminate H1.
Defined.

(** ** Streaming, timeout and commit *)

Lemma stream_loop_prepend start pre tail full n out :
  Forall (in_time start) pre →
  stream_loop start (prepend pre tail) full n out =
    stream_loop start tail (foldl String.append full (forwarded pre))
      (n + length (forwarded pre)) (out ++ forwarded pre).
Proof.
  intros Hpre. revert full n out.
  induction Hpre as [|[chunk now] pre Hp _ IH]; intros full n out; simpl.
  - by rewrite Nat.add_0_r, app_nil_r.
  - unfold forwarded. simpl. destruct (truthy chunk) eqn:Hc.
    + rewrite filter_cons_True by (by rewrite Hc).
      destruct Hp as [Hp|Hp]; [simpl in Hp; congruence|].
      simpl in Hp. apply Qle_bool_iff in Hp. rewrite Hp. simpl.
      rewrite IH. unfold forwarded.
      f_equal; [unfold fmap; lia | by rewrite <- app_assoc].
    + rewrite filter_cons_False by (rewrite Hc; intros []).
      apply IH.
Qed.

Lemma stream_loop_timeout start pre chunk now rest :
  Forall (in_time start) pre → truthy chunk = true →
  (streaming_timeout < now - start)%Q →
  stream_loop start (prepend pre (StreamChunk chunk now rest)) "" 0 [] =
    Finished (concat_fragments (forwarded pre ++ [chunk]))
             (S (length (forwarded pre))) (forwarded pre ++ [chunk]) true.
Proof.
  intros Hpre Hc Hlate. rewrite (stream_loop_prepend _ _ _ _ _ _ Hpre).
  simpl. rewrite Hc.
  destruct (Qle_bool (now - start) streaming_timeout) eqn:E.
  - apply Qle_bool_iff in E. exfalso. by eapply Qlt_not_le.
  - simpl. unfold concat_fragments. by rewrite foldl_app.
Qed.

Lemma set_current_same c mgr :
  current_chat_id mgr = Some c → set_current_chat_id (Some c) mgr = mgr.
Proof. intros H. destruct mgr. simpl in *. by subst. Qed.

Lemma switched_when_focused c m w mgr :
  memory_manager w = mgr → focused mgr c m → switched c w = mgr.
Proof.
  intros <- (Hc & _ & Hm). unfold switched. rewrite Hm. by apply set_current_same.
Qed.

Lemma bind_run {A B} (c : M A) (f : A → M B) w :
  (c ≫= f) w = f (c w).1 (c w).2.
Proof. unfold mbind, M_bind. by destruct (c w). Qed.

Section Keeps.

Variable mgr : ChatMemoryManager.

Lemma keeps_ret {A} (a : A) : keeps mgr (mret a).
Proof. by intros w. Qed.

Lemma keeps_bind {A B} (c : M A) (f : A → M B) :
  keeps mgr c → (∀ a, keeps mgr (f a)) → keeps mgr (c ≫= f).
Proof. intros Hc Hf w Hw. rewrite bind_run. apply Hf. by apply Hc. Qed.

Lemma keeps_logger lv m : keeps mgr (logger lv m).
Proof. by intros w. Qed.

Lemma keeps_record_call c : keeps mgr (record_call c).
Proof. by intros w. Qed.

Lemma keeps_get_chain : keeps mgr get_chain.
Proof. by intros w. Qed.

Lemma keeps_set_chain b : keeps mgr (set_chain b).
Proof. by intros w. Qed.

Lemma keeps_when b (c : M unit) : keeps mgr c → keeps mgr (when b c).
Proof. destruct b; [done|]. intros _. apply keeps_ret. Qed.

Lemma keeps_read : keeps mgr load_memory_variables.
Proof.
  intros w Hw. by destruct (load_memory_variables_manager w) as (_ & ->).
Qed.

Lemma keeps_switch_focused c m :
  focused mgr c m → keeps mgr (switch_to_chat c).
Proof.
  intros Hf w Hw. destruct (switch_to_chat_manager c w) as (_ & -> & _).
  by eapply switched_when_focused.
Qed.

Lemma keeps_get_enhanced_context documents query chat_id :
  keeps mgr (_get_enhanced_context documents query chat_id).
Proof.
  unfold _get_enhanced_context. destruct documents as [|d documents].
  - apply keeps_bind; [apply keeps_logger|]. intros _. apply keeps_ret.
  - apply keeps_bind; [apply keeps_logger|]. intros _.
    destruct (context_loop 1 (select_documents (d :: documents)) [] []
                float_zero) as [[[? ?] ?]|].
    + apply keeps_ret.
    + apply keeps_bind; [apply keeps_logger|]. intros _. apply keeps_ret.
Qed.

Lemma keeps_ensure_chain_availability env :
  keeps mgr (_ensure_chain_availability env).
Proof.
  unfold _ensure_chain_availability, _initialize_chain.
  apply keeps_bind; [apply keeps_get_chain|]. intros a.
  apply keeps_bind.
  { apply keeps_when, keeps_bind; [apply keeps_logger|]. intros _.
    apply keeps_bind; [apply keeps_set_chain|]. intros _.
    destruct (chain_creatable env); apply keeps_logger. }
  intros _. apply keeps_bind; [apply keeps_get_chain|]. intros [|].
  - apply keeps_ret.
  - apply keeps_bind; [apply keeps_logger|]. intros _. apply keeps_ret.
Qed.

Lemma keeps_get_context_and_history env q c m :
  focused mgr c m →
  keeps mgr (get_context_and_history env (mkChainInput q (Some c))).
Proof.
  intros Hf. unfold get_context_and_history. simpl.
  apply keeps_bind; [apply keeps_record_call|]. intros _.
  destruct (retriever_invoke env q) as [documents|].
  - apply keeps_bind; [apply keeps_get_enhanced_context|]. intros ci.
    apply keeps_bind.
    { apply keeps_when, keeps_bind; [by eapply keeps_switch_focused|].
      intros _. apply keeps_ret. }
    intros _. apply keeps_bind; [apply keeps_read|]. intros h. apply keeps_ret.
  - apply keeps_bind; [apply keeps_logger|]. intros _. apply keeps_ret.
Qed.

Lemma keeps_chain_stream env q c m :
  focused mgr c m → keeps mgr (chain_stream env (mkChainInput q (Some c))).
Proof.
  intros Hf. unfold chain_stream.
  apply keeps_bind; [by eapply keeps_get_context_and_history|]. intros p.
  apply keeps_bind; [apply keeps_record_call|]. intros _. apply keeps_ret.
Qed.

End Keeps.

Lemma ensure_chain_availability_result env w :
  chain w = true ∨ chain_creatable env = true →
  (_ensure_chain_availability env w).1 = true.
Proof.
  unfold _ensure_chain_availability, _initialize_chain. munfold. simpl.
  destruct (chain w) eqn:Hc; simpl.
  - by rewrite Hc.
  - destruct (chain_creatable env) eqn:He; simpl; [done|].
    intros [?|?]; done.
Qed.

Lemma chain_stream_result env x w :
  ∃ p, (chain_stream env x w).1 = llm_stream env p.
Proof.
  unfold chain_stream. rewrite bind_run.
  exists (get_context_and_history env x w).1. done.
Qed.

(** The run of [process_query] up to the end of the streaming loop, for
    a valid query, a session identifier and an available chain. *)
Lemma process_query_run env query q' c w :
  _validate_query query = Valid q' → truthy c = true →
  chain w = true ∨ chain_creatable env = true →
  ∃ w' p, memory_manager w' = switched c w ∧
    process_query env query (Some c) w =
      after_stream q' (Some c)
        (stream_loop (start_time env) (llm_stream env p) "" 0 []) w'.
Proof.
  intros Hv Ht Hchain. unfold process_query. rewrite Hv, Ht. unfold when at 1.
  rewrite bind_run.
  set (w1 := (logger INFO (ProcessingQuery (Some c) query) w).2).
  rewrite bind_run.
  match goal with |- context [(when true ?x w1).2] =>
    set (w2 := (when true x w1).2) end.
  assert (memory_manager w2 = switched c w) as Hw2.
  { unfold w2, when. rewrite bind_run.
    destruct (switch_to_chat_manager c w1) as (-> & Hsw & _). by simpl. }
  assert (chain w2 = chain w) as Hc2.
  { unfold w2, when. rewrite bind_run.
    destruct (switch_to_chat_manager c w1) as (-> & _ & Hch & _). simpl.
    by rewrite Hch. }
  rewrite bind_run.
  rewrite ensure_chain_availability_result by (by rewrite Hc2).
  rewrite bind_run.
  set (w3 := (_ensure_chain_availability env w2).2).
  destruct (chain_stream_result env (mkChainInput q' (Some c)) w3) as [p Hp].
  exists (chain_stream env (mkChainInput q' (Some c)) w3).2, p.
  split; [|by rewrite Hp].
  eapply keeps_chain_stream.
  - by apply switched_focused.
  - by apply keeps_ensure_chain_availability.
Qed.

Lemma after_stream_finished q chat_id full n yielded timed_out w c m :
  focused (memory_manager w) c m →
  let r := after_stream q chat_id (Finished full n yielded timed_out) w in
  r.1 = yielded ∧
  memory_manager r.2 =
    if truthy (strip full)
    then set_chat_memory c (Langchain.save_context q full m) (memory_manager w)
    else memory_manager w.
Proof.
  intros Hf. unfold after_stream. rewrite !bind_run.
  set (w1 := (when timed_out (logger WARNING TimeoutReached) w).2).
  set (w2 := (logger INFO (QueryProcessed n) w1).2).
  assert (memory_manager w2 = memory_manager w) as Hw2.
  { unfold w2, w1. by destruct timed_out. }
  split; [done|]. simpl. clearbody w2.
  destruct (truthy (strip full)).
  - rewrite bind_run. rewrite <- Hw2 in Hf.
    rewrite (save_context_focused _ _ _ _ _ Hf). simpl. by rewrite Hw2.
  - done.
Qed.

Lemma stream_loop_shape start pre tail :
  Forall (in_time start) pre →
  tail = StreamEnd ∨
    (∃ chunk now rest, tail = StreamChunk chunk now rest ∧
       truthy chunk = true ∧ (streaming_timeout < now - start)%Q) →
  ∃ n t, stream_loop start (prepend pre tail) "" 0 [] =
           Finished (concat_fragments (forwarded pre ++ last_fragment tail)) n
                    (forwarded pre ++ last_fragment tail) t.
Proof.
  intros Hpre [->|(chunk & now & rest & -> & Hc & Hlate)].
  - rewrite (stream_loop_prepend _ _ _ _ _ _ Hpre). simpl.
    rewrite app_nil_r. by eexists _, _.
  - rewrite (stream_loop_timeout _ _ _ _ _ Hpre Hc Hlate). by eexists _, _.
Qed.

(** C6. For a valid query on session [c] with the chain available: if
    the stream delivers fragments within the limit and then either ends
    or delivers a fragment after which more than 60 seconds have passed,
    [process_query] yields exactly the non-empty fragments up to and
    including that one, whatever the stream would have delivered
    afterwards; the session's history gains the pair (query, accumulated
    response) if the response is not blank after trimming and is left
    unchanged if it is blank; the other sessions are untouched. *)
Theorem streaming_timeout_commit (env : Env) (query q' c : string) (w : World)
    (pre : list (string * Q)) (tail : Stream) :
  _validate_query query = Valid q' →
  truthy c = true →
  chain w = true ∨ chain_creatable env = true →
  (∀ p, llm_stream env p = prepend pre tail) →
  Forall (in_time (start_time env)) pre →
  tail = StreamEnd ∨
    (∃ chunk now rest, tail = StreamChunk chunk now rest ∧
       truthy chunk = true ∧ (streaming_timeout < now - start_time env)%Q) →
  let r := process_query env query (Some c) w in
  let yielded := forwarded pre ++ last_fragment tail in
  let full_response := concat_fragments yielded in
  r.1 = yielded ∧
  messages_of r.2 c =
    messages_of w c ++
    (if truthy (strip full_response)
     then [HumanMessage q'; AIMessage full_response] else []) ∧
  (∀ c', c' ≠ c →
     chat_memories (memory_manager r.2) !! c' =
     chat_memories (memory_manager w) !! c').
Proof.
  intros Hv Ht Hchain Hstream Hpre Htail r yielded full_response.
  destruct (process_query_run env query q' c w Hv Ht Hchain)
    as (w' & p & Hw' & Hrun).
  destruct (stream_loop_shape _ _ _ Hpre Htail) as (n & t & Hloop).
  unfold r. rewrite Hrun, Hstream, Hloop.
  fold yielded. fold full_response.
  assert (focused (memory_manager w') c (memory_or_new c w)) as Hf.
  { rewrite Hw'. by apply switched_focused. }
  destruct (after_stream_finished q' (Some c) full_response n yielded t w' c _ Hf)
    as [Hy Hm].
  split; [done|].
  assert (messages (memory_or_new c w) = messages_of w c) as Hmsgs.
  { unfold memory_or_new, messages_of.
    by destruct (chat_memories (memory_manager w) !! c). }
  assert (∀ c', c' ≠ c →
            chat_memories (switched c w) !! c' =
            chat_memories (memory_manager w) !! c') as Hother.
  { intros c' Hc'. unfold switched, minted_id. rewrite Ht.
    destruct (chat_memories (memory_manager w) !! c) eqn:E; simpl; [done|].
    by rewrite lookup_insert_ne. }
  split.
  - unfold messages_of at 1. rewrite Hm.
    destruct (truthy (strip full_response)).
    + simpl. rewrite lookup_insert_eq. simpl. by rewrite Hmsgs.
    + destruct Hf as (_ & _ & Hl). rewrite Hl. simpl.
      by rewrite Hmsgs, app_nil_r.
  - intros c' Hc'. rewrite Hm.
    destruct (truthy (strip full_response)).
    + simpl. rewrite lookup_insert_ne by done. rewrite Hw'. by apply Hother.
    + rewrite Hw'. by apply Hother.
Qed.

Lemma streaming_timeout_commit_witness :
  let r := process_query late_env " hi " (Some "s") (init_world test_uuid4) in
  r.1 = ["Hel"; "lo"] ∧
  messages_of r.2 "s" = [HumanMessage "hi"; AIMessage "Hello"].
Proof.
  destruct (streaming_timeout_commit late_env " hi " "hi" "s"
              (init_world test_uuid4) [("Hel", 1%Q); ("", 2%Q)]
              (StreamChunk "lo" 61 (StreamChunk "more" 62 StreamEnd)))
    as (H1 & H2 & _).
  - reflexivity.
  - reflexivity.
  - right. reflexivity.
  - intros p. reflexivity.
  - constructor; [right; simpl; unfold Qle; simpl; lia|].
    constructor; [left; reflexivity|]. constructor.
  - right. exists "lo", 61%Q, (StreamChunk "more" 62 StreamEnd).
    split; [reflexivity|]. split; [reflexivity|].
    unfold Qlt. simpl. lia.
  - split; [exact H1|exact H2].
Defined.

(** A blank response: the fragments are forwarded but nothing is
    committed. *)
Example blank_response_not_committed :
  let env := {| start_time := 0; chain_creatable := true;
                retriever_invoke := λ _, Some [];
                llm_stream := λ _, StreamChunk " " 1 (StreamChunk "" 2 StreamEnd) |} in
  let r := process_query env "hi" (Some "s") one_pair_world in
  r.1 = [" "] ∧ messages_of r.2 "s" = messages_of one_pair_world "s".
Proof. vm_compute. split; reflexivity. Qed.

(** * Part III: further properties *)

(** ** Commit, reset and focus *)

(** X1. [save_context] without a session in focus reports failure and
    leaves the manager as it is; with a session in focus it reports
    success, appends exactly the pair to that session's history and
    leaves every other session and the focus untouched. *)
Theorem save_context_commit (input output : string) (w : World) :
  let r := save_context input output w in
  let mgr := memory_manager w in
  let mgr' := memory_manager r.2 in
  match get_current_memory mgr with
  | None => r.1 = false ∧ mgr' = mgr
  | Some m =>
      r.1 = true ∧
      ∃ c, current_chat_id mgr = Some c ∧
           chat_memories mgr' !! c =
             Some (mkMemory (k m) (messages m ++ [HumanMessage input; AIMessage output])) ∧
           (∀ c', c' ≠ c → chat_memories mgr' !! c' = chat_memories mgr !! c') ∧
           current_chat_id mgr' = Some c
  end.
Proof.
  intros r mgr mgr'.
  destruct (save_context_manager input output w) as (Hr & Hm & _).
  fold r in Hr, Hm. fold mgr in Hr, Hm. fold mgr' in Hm.
  destruct (get_current_memory mgr) as [m|] eqn:E.
  - split; [by rewrite Hr|].
    unfold get_current_memory in E.
    destruct (current_chat_id mgr) as [c|] eqn:Ec; [|done].
    destruct (truthy c) eqn:Ht; [|done].
    exists c. split; [done|].
    assert (focused mgr c m) as Hf by done.
    rewrite Hm, (focused_on_current _ _ _ _ Hf). simpl.
    split; [by rewrite lookup_insert_eq|].
    split; [|done]. intros c' Hc'. by rewrite lookup_insert_ne.
  - split; [by rewrite Hr|]. rewrite Hm. unfold on_current. by rewrite E.
Qed.

(** X2. [clear_current_chat_memory] without a session in focus reports
    failure and changes nothing; otherwise it empties the history of the
    focused session, keeps its window size and its identifier, and
    leaves every other session and the focus untouched. *)
Theorem clear_current_chat_memory_reset (w : World) :
  let r := clear_current_chat_memory w in
  let mgr := memory_manager w in
  let mgr' := memory_manager r.2 in
  match get_current_memory mgr with
  | None => r.1 = false ∧ mgr' = mgr
  | Some m =>
      r.1 = true ∧
      ∃ c, current_chat_id mgr = Some c ∧
           chat_memories mgr' !! c = Some (mkMemory (k m) []) ∧
           (∀ c', c' ≠ c → chat_memories mgr' !! c' = chat_memories mgr !! c') ∧
           current_chat_id mgr' = Some c ∧
           (load_memory_variables r.2).1 = []
  end.
Proof.
  intros r mgr mgr'.
  destruct (clear_current_chat_memory_manager w) as (Hr & Hm).
  fold r in Hr, Hm. fold mgr in Hr, Hm. fold mgr' in Hm.
  destruct (get_current_memory mgr) as [m|] eqn:E.
  - split; [by rewrite Hr|].
    unfold get_current_memory in E.
    destruct (current_chat_id mgr) as [c|] eqn:Ec; [|done].
    destruct (truthy c) eqn:Ht; [|done].
    exists c. split; [done|].
    assert (focused mgr c m) as Hf by done.
    assert (mgr' = set_chat_memory c (Langchain.clear m) mgr) as Hm'.
    { by rewrite Hm, (focused_on_current _ _ _ _ Hf). }
    rewrite Hm'. simpl.
    split; [by rewrite lookup_insert_eq|].
    split; [intros c' Hc'; by rewrite lookup_insert_ne|].
    split; [done|].
    destruct (load_memory_variables_manager r.2) as [-> _]. fold mgr'.
    rewrite Hm'. unfold get_current_memory. simpl. rewrite Ec, Ht.
    rewrite lookup_insert_eq. simpl. unfold Langchain.buffer. simpl.
    by destruct (0 <? k m).
  - split; [by rewrite Hr|]. rewrite Hm. unfold on_current. by rewrite E.
Qed.

(** X3. Focusing a session by a non-empty identifier always succeeds,
    changes no session's history, and makes the next read return that
    session's buffer (empty for a session seen for the first time),
    whichever session was in focus before. *)
Theorem switch_to_chat_then_read (chat_id : string) (w : World) :
  truthy chat_id = true →
  let s := switch_to_chat chat_id w in
  s.1 = true ∧
  current_chat_id (memory_manager s.2) = Some chat_id ∧
  (∀ c, messages_of s.2 c = messages_of w c) ∧
  (∀ c, c ≠ chat_id →
     chat_memories (memory_manager s.2) !! c = chat_memories (memory_manager w) !! c) ∧
  (load_memory_variables s.2).1 = buffer_of w chat_id.
Proof.
  intros Ht s. unfold s. rewrite (switch_to_chat_truthy _ _ Ht). wsimpl.
  pose proof (switched_focused chat_id w Ht) as Hf.
  split; [done|]. split; [by destruct Hf|].
  assert (∀ c, c ≠ chat_id →
            chat_memories (switched chat_id w) !! c =
            chat_memories (memory_manager w) !! c) as Hother.
  { intros c Hc. unfold switched, minted_id. rewrite Ht.
    destruct (chat_memories (memory_manager w) !! chat_id); simpl; [done|].
    by rewrite lookup_insert_ne. }
  split; [|split; [done|]].
  - intros c. unfold messages_of. wsimpl.
    destruct (decide (c = chat_id)) as [->|Hc]; [|by rewrite Hother].
    destruct Hf as (_ & _ & ->). unfold memory_or_new.
    by destruct (chat_memories (memory_manager w) !! chat_id).
  - destruct (load_memory_variables_manager
                (add_logs (switch_logs chat_id w)
                   (with_manager (switched chat_id w) w))) as [-> _].
    wsimpl. rewrite (focused_current _ _ _ Hf). simpl.
    unfold buffer_of, memory_or_new.
    destruct (chat_memories (memory_manager w) !! chat_id); simpl; [done|].
    unfold Langchain.buffer. simpl.
    by destruct (0 <? max_memory_size (memory_manager w)).
Qed.

Lemma switch_to_chat_then_read_witness :
  let w := (run_ops [OpSwitch "a"; OpSave "q" "r"; OpSwitch "b"]
              (init_world test_uuid4)).2 in
  (load_memory_variables (switch_to_chat "a" w).2).1 =
    [HumanMessage "q"; AIMessage "r"].
Proof.
  intros w.
  destruct (switch_to_chat_then_read "a" w) as (_ & _ & _ & _ & H);
    [reflexivity|].
  rewrite H. vm_compute. reflexivity.
Defined.

Lemma switched_other chat_id w c :
  truthy chat_id = true → c ≠ chat_id →
  chat_memories (switched chat_id w) !! c = chat_memories (memory_manager w) !! c.
Proof.
  intros Ht Hc. unfold switched, minted_id. rewrite Ht.
  destruct (chat_memories (memory_manager w) !! chat_id); simpl; [done|].
  by rewrite lookup_insert_ne.
Qed.

Lemma get_current_memory_empty_id mgr :
  current_chat_id mgr = Some "" → get_current_memory mgr = None.
Proof. intros H. unfold get_current_memory. by rewrite H. Qed.

Lemma load_recent_pairs_unfocused chat_id ps w :
  get_current_memory (memory_manager w) = None →
  (load_recent_pairs chat_id ps w).1 = 0%nat ∧
  memory_manager (load_recent_pairs chat_id ps w).2 = memory_manager w.
Proof.
  revert w. induction ps as [|[u a] ps IH]; intros w Hw; [done|].
  simpl. rewrite bind_run.
  destruct (save_context_manager u a w) as (Hr & Hm & _).
  rewrite Hw in Hr. rewrite Hr. simpl negb. unfold when.
  rewrite !bind_run.
  set (w1 := (logger WARNING (FailedToSavePair chat_id) (save_context u a w).2).2).
  assert (memory_manager w1 = memory_manager w) as Hw1.
  { unfold w1. simpl. rewrite Hm. unfold on_current. by rewrite Hw. }
  destruct (IH w1) as [H1 H2]; [by rewrite Hw1|].
  simpl. rewrite H1, H2. done.
Qed.

Lemma collect_message_pairs_manager chat_id msgs i w :
  memory_manager (collect_message_pairs chat_id i msgs w).2 = memory_manager w.
Proof.
  revert i w. induction msgs as [msgs IH] using (induction_ltof1 _ length).
  unfold ltof in IH. intros i w.
  destruct msgs as [|u [|a rest]]; simpl; try done.
  destruct (valid_message_pair u a).
  - rewrite bind_run. simpl. apply IH. simpl. lia.
  - rewrite bind_run. rewrite IH by (simpl; lia). done.
Qed.

(** X4. The empty identifier is not a session: [switch_to_chat ""]
    reports success and records [""] as the current identifier, but no
    memory is in focus afterwards, so the next commit fails and the next
    read is empty; if [""] had no entry, a memory is allocated under a
    newly drawn uuid instead.  Rehydrating under the empty identifier
    loads nothing and fails on every non-empty transcript. *)
Theorem switch_to_chat_empty_id (w : World) :
  let s := switch_to_chat "" w in
  s.1 = true ∧
  current_chat_id (memory_manager s.2) = Some "" ∧
  get_current_memory (memory_manager s.2) = None ∧
  (∀ input output, (save_context input output s.2).1 = false) ∧
  (load_memory_variables s.2).1 = [] ∧
  (chat_memories (memory_manager w) !! "" = None →
     chat_memories (memory_manager s.2) !! uuid4 w (uuid_calls w) =
       Some (Langchain.new (max_memory_size (memory_manager w)))) ∧
  (∀ msgs, msgs ≠ [] →
     (load_chat_messages_from_history "" msgs w).1 = false).
Proof.
  intros s. destruct (switch_to_chat_manager "" w) as (Hr & Hm & _).
  fold s in Hr, Hm.
  assert (current_chat_id (switched "" w) = Some "") as Hcur.
  { unfold switched. by destruct (chat_memories (memory_manager w) !! ""). }
  assert (get_current_memory (memory_manager s.2) = None) as Hnone.
  { rewrite Hm. by apply get_current_memory_empty_id. }
  split; [done|]. split; [by rewrite Hm|]. split; [done|].
  split.
  { intros i o. destruct (save_context_manager i o s.2) as (-> & _).
    by rewrite Hnone. }
  split.
  { destruct (load_memory_variables_manager s.2) as (-> & _). by rewrite Hnone. }
  split.
  { intros Habs. rewrite Hm. unfold switched, minted_id. rewrite Habs. simpl.
    apply lookup_insert_eq. }
  intros msgs Hne. unfold load_chat_messages_from_history.
  rewrite bind_run. fold s. rewrite Hr.
  change (negb true) with false. cbv iota.
  rewrite !bind_run.
  destruct (clear_current_chat_memory_manager s.2) as (Hc & Hcm).
  rewrite Hnone in Hc. rewrite Hc.
  change (negb (bool_decide (is_Some None))) with true. unfold when at 1.
  set (w2 := (logger WARNING (FailedToClear "") (clear_current_chat_memory s.2).2).2).
  assert (get_current_memory (memory_manager w2) = None) as Hw2.
  { unfold w2. simpl. rewrite Hcm. unfold on_current. by rewrite Hnone. }
  destruct msgs as [|m0 msgs]; [done|].
  rewrite !bind_run.
  set (w3 := (collect_message_pairs "" 0 (m0 :: msgs) w2).2).
  set (ps := (collect_message_pairs "" 0 (m0 :: msgs) w2).1).
  assert (get_current_memory (memory_manager w3) = None) as Hw3.
  { unfold w3. by rewrite collect_message_pairs_manager. }
  unfold get_manager. cbn [fst snd].
  match goal with |- context [load_recent_pairs "" ?l w3] =>
    destruct (load_recent_pairs_unfocused "" l w3 Hw3) as [H1 _]; rewrite H1 end.
  done.
Qed.

Lemma transcript_decompose msgs :
  msgs = transcript (slots_of msgs) ++ tail_of msgs ∧
  (length (tail_of msgs) ≤ 1)%nat.
Proof.
  induction msgs as [msgs IH] using (induction_ltof1 _ length).
  unfold ltof in IH.
  destruct msgs as [|u [|a rest]]; simpl; [split; [done|lia]..|].
  destruct (IH rest) as [H1 H2]; [simpl; lia|].
  split; [|done]. by rewrite <- H1.
Qed.

Lemma load_chat_messages_from_history_manager chat_id msgs w :
  truthy chat_id = true →
  memory_manager (load_chat_messages_from_history chat_id msgs w).2 =
    rehydrated chat_id (slots_of msgs) w.
Proof.
  intros Ht. destruct (transcript_decompose msgs) as [Hd Hl].
  rewrite Hd at 1.
  by rewrite (load_chat_messages_from_history_slots _ _ _ _ Ht Hl).
Qed.

Lemma rehydrated_focused chat_id slots w :
  truthy chat_id = true →
  focused (rehydrated chat_id slots w) chat_id
    (mkMemory (k (memory_or_new chat_id w))
       (pair_messages (recent_pairs_of (max_memory_size (memory_manager w))
                         (valid_contents slots)))).
Proof.
  intros Ht. unfold rehydrated. eapply focused_set. by apply switched_focused.
Qed.

(** X5. Rehydration replaces and is local: for a non-empty session
    identifier, what a session holds after rehydration depends only on
    the transcript, not on what the session held before (rehydrating
    after an earlier rehydration gives the manager that rehydrating
    directly gives), and no other session's memory is touched. *)
Theorem rehydration_replaces (chat_id : string) (t1 t2 : list PyMessage)
    (w : World) :
  truthy chat_id = true →
  let w1 := (load_chat_messages_from_history chat_id t1 w).2 in
  memory_manager (load_chat_messages_from_history chat_id t2 w1).2 =
    memory_manager (load_chat_messages_from_history chat_id t2 w).2 ∧
  (∀ c, c ≠ chat_id →
     chat_memories (memory_manager w1) !! c =
     chat_memories (memory_manager w) !! c) ∧
  current_chat_id (memory_manager w1) = Some chat_id.
Proof.
  intros Ht w1.
  assert (memory_manager w1 = rehydrated chat_id (slots_of t1) w) as Hw1.
  { by apply load_chat_messages_from_history_manager. }
  pose proof (rehydrated_focused chat_id (slots_of t1) w Ht) as Hf.
  rewrite <- Hw1 in Hf.
  split; [|split].
  - rewrite !load_chat_messages_from_history_manager by done.
    unfold rehydrated at 1.
    rewrite (switched_when_focused _ _ w1 _ eq_refl Hf).
    unfold memory_or_new at 1. destruct Hf as (_ & _ & ->). simpl.
    assert (max_memory_size (memory_manager w1) = max_memory_size (memory_manager w))
      as ->.
    { rewrite Hw1. unfold rehydrated. simpl. apply switched_max_memory_size. }
    rewrite Hw1. unfold rehydrated. by rewrite set_chat_memory_twice.
  - intros c Hc. rewrite Hw1. unfold rehydrated. simpl.
    rewrite lookup_insert_ne by done. by apply switched_other.
  - by destruct Hf.
Qed.

Lemma rehydration_replaces_witness :
  let w := (run_ops [OpSwitch "a"; OpSave "q" "r"; OpSwitch "b"; OpSave "x" "y"]
              (init_world test_uuid4)).2 in
  let w1 := (load_chat_messages_from_history "a"
               [user_msg "q1"; assistant_msg "a1"] w).2 in
  buffer_of w1 "a" = [HumanMessage "q1"; AIMessage "a1"] ∧
  chat_memories (memory_manager w1) !! "b" = chat_memories (memory_manager w) !! "b".
Proof.
  intros w w1.
  destruct (rehydration_replaces "a" [user_msg "q1"; assistant_msg "a1"] [] w)
    as (_ & H & _); [reflexivity|].
  split; [vm_compute; reflexivity|]. apply H. discriminate.
Defined.

(** ** Summaries and the registry *)

Lemma reachable_ok W w : reachable W w → manager_ok W (memory_manager w).
Proof.
  intros (uuid4 & ops & ->). apply preserves_run_ops. simpl. apply manager_ok_new.
Qed.

(** X6. In every world reachable from an empty registry with window
    size [W], the summary of a session says whether the session has a
    memory and counts the messages of its buffer, not of its whole
    history: the count is even and at most [2 * W]; a session without a
    memory is reported with count 0 and without the ["is_current"] entry,
    and ["is_current"] is true exactly for the focused identifier. *)
Theorem chat_memory_summary_bounds (W : Z) (w : World) (chat_id : string) :
  0 ≤ W → reachable W w →
  let s := get_chat_memory_summary chat_id (memory_manager w) in
  summary_exists s =
    bool_decide (is_Some (chat_memories (memory_manager w) !! chat_id)) ∧
  summary_message_count s = length (buffer_of w chat_id) ∧
  (summary_message_count s ≤ 2 * Z.to_nat W)%nat ∧
  Nat.Even (summary_message_count s) ∧
  (chat_memories (memory_manager w) !! chat_id = None →
     summary_message_count s = 0%nat ∧ summary_is_current s = None) ∧
  (summary_is_current s = Some true ↔
     is_Some (chat_memories (memory_manager w) !! chat_id) ∧
     current_chat_id (memory_manager w) = Some chat_id).
Proof.
  intros HW Hreach s. apply reachable_ok in Hreach as [_ Hall].
  unfold s, get_chat_memory_summary, buffer_of.
  destruct (chat_memories (memory_manager w) !! chat_id) as [m|] eqn:E; simpl.
  - destruct (Hall _ _ E) as [Hk [qs Hqs]].
    unfold Langchain.load_memory_variables.
    rewrite (buffer_pairs W m qs HW Hk Hqs), pair_messages_length, slice_last_length.
    split; [done|]. split; [done|]. split; [lia|].
    split; [by eexists|]. split; [done|].
    split.
    + intros [= H]. apply bool_decide_eq_true in H. eauto.
    + intros [_ H]. by rewrite bool_decide_eq_true_2.
  - split; [done|]. split; [done|]. split; [lia|].
    split; [by exists 0%nat|]. split; [done|].
    split; [done|]. by intros [[? ?] _].
Qed.

Lemma chat_memory_summary_bounds_witness :
  let w := (run_ops [OpRehydrate "s" (stored_transcript seven_pairs)]
              (world_of (new_manager 6) test_uuid4)).2 in
  summary_message_count (get_chat_memory_summary "s" (memory_manager w)) = 6%nat.
Proof.
  intros w.
  destruct (chat_memory_summary_bounds 6 w "s") as (_ & H & _).
  - lia.
  - by exists test_uuid4, [OpRehydrate "s" (stored_transcript seven_pairs)].
  - rewrite H. vm_compute. reflexivity.
Defined.

(** X7. A deleted session does not come back: focusing its identifier
    again allocates a new, empty memory, so its history and the next read
    are empty; the other sessions are as they were before the deletion. *)
Theorem delete_then_switch_is_empty (chat_id : string) (w : World) :
  truthy chat_id = true →
  let w1 := (delete_chat_memory chat_id w).2 in
  let w2 := (switch_to_chat chat_id w1).2 in
  chat_memories (memory_manager w2) !! chat_id =
    Some (Langchain.new (max_memory_size (memory_manager w))) ∧
  messages_of w2 chat_id = [] ∧
  (load_memory_variables w2).1 = [] ∧
  (∀ c, c ≠ chat_id →
     chat_memories (memory_manager w2) !! c = chat_memories (memory_manager w) !! c).
Proof.
  intros Ht w1 w2.
  destruct (delete_chat_memory_manager chat_id w) as [_ Hd]. fold w1 in Hd.
  assert (chat_memories (memory_manager w1) !! chat_id = None) as Habs.
  { rewrite Hd. unfold deleted.
    destruct (chat_memories (memory_manager w) !! chat_id) eqn:E; [|done].
    simpl. apply lookup_delete_eq. }
  assert (max_memory_size (memory_manager w1) = max_memory_size (memory_manager w))
    as Hmax.
  { rewrite Hd. unfold deleted.
    by destruct (chat_memories (memory_manager w) !! chat_id). }
  assert (memory_manager w2 = switched chat_id w1) as Hw2.
  { unfold w2. by rewrite (switch_to_chat_truthy _ _ Ht). }
  pose proof (switched_focused chat_id w1 Ht) as Hf. rewrite <- Hw2 in Hf.
  assert (memory_or_new chat_id w1 =
          Langchain.new (max_memory_size (memory_manager w))) as Hnew.
  { unfold memory_or_new. by rewrite Habs, Hmax. }
  rewrite Hnew in Hf.
  split; [by destruct Hf as (_ & _ & ?)|].
  split; [unfold messages_of; by destruct Hf as (_ & _ & ->)|].
  split.
  { destruct (load_memory_variables_manager w2) as [-> _].
    rewrite (focused_current _ _ _ Hf). simpl. unfold Langchain.buffer. simpl.
    by destruct (0 <? max_memory_size (memory_manager w)). }
  intros c Hc. rewrite Hw2, (switched_other _ _ _ Ht Hc), Hd. unfold deleted.
  destruct (chat_memories (memory_manager w) !! chat_id); [|done].
  simpl. by rewrite lookup_delete_ne.
Qed.

Lemma delete_then_switch_is_empty_witness :
  let w2 := (switch_to_chat "s" (delete_chat_memory "s" one_pair_world).2).2 in
  messages_of one_pair_world "s" = [HumanMessage "q"; AIMessage "a"] ∧
  messages_of w2 "s" = [].
Proof.
  split; [vm_compute; reflexivity|].
  by destruct (delete_then_switch_is_empty "s" one_pair_world) as (_ & H & _).
Defined.

Lemma active_chats_elem mgr c :
  c ∈ get_all_active_chats mgr ↔ is_Some (chat_memories mgr !! c).
Proof.
  unfold get_all_active_chats. rewrite list_elem_of_fmap. split.
  - intros ([c' m] & -> & H). apply elem_of_map_to_list in H. by exists m.
  - intros [m H]. exists (c, m). split; [done|]. by apply elem_of_map_to_list.
Qed.

(** X8. [get_all_active_chats] lists exactly the identifiers that have a
    memory, each once; [get_chain_status] counts them and reports the
    manager active exactly when some identifier is current.  Focusing a
    non-empty identifier puts it on the list; deleting an identifier
    takes it off and, when it was listed, shortens the list by one. *)
Theorem active_chats_listing (vs : bool) (chat_id : string) (w : World) :
  let mgr := memory_manager w in
  (∀ c, c ∈ get_all_active_chats mgr ↔ is_Some (chat_memories mgr !! c)) ∧
  NoDup (get_all_active_chats mgr) ∧
  active_chats (get_chain_status vs w) = size (chat_memories mgr) ∧
  (memory_manager_active (get_chain_status vs w) = true ↔
     is_Some (current_chat_id mgr)) ∧
  (truthy chat_id = true →
     chat_id ∈ get_all_active_chats (memory_manager (switch_to_chat chat_id w).2)) ∧
  (chat_id ∉ get_all_active_chats (memory_manager (delete_chat_memory chat_id w).2)) ∧
  (chat_id ∈ get_all_active_chats mgr →
     S (length (get_all_active_chats
                  (memory_manager (delete_chat_memory chat_id w).2))) =
     length (get_all_active_chats mgr)).
Proof.
  intros mgr.
  split; [intros c; apply active_chats_elem|].
  split; [apply NoDup_fst_map_to_list|].
  split.
  { unfold get_chain_status, get_all_active_chats. simpl.
    by rewrite length_fmap, length_map_to_list. }
  split.
  { unfold get_chain_status. simpl. fold mgr. rewrite bool_decide_eq_true.
    apply not_eq_None_Some. }
  split.
  { intros Ht. apply active_chats_elem.
    rewrite (switch_to_chat_truthy _ _ Ht). wsimpl.
    destruct (switched_focused chat_id w Ht) as (_ & _ & ->). by eexists. }
  destruct (delete_chat_memory_manager chat_id w) as [_ Hd]. rewrite Hd.
  split.
  { rewrite active_chats_elem. unfold deleted. fold mgr.
    destruct (chat_memories mgr !! chat_id) eqn:E; simpl.
    - rewrite lookup_delete_eq. by intros [? ?].
    - rewrite E. by intros [? ?]. }
  intros [m Hm]%active_chats_elem. unfold deleted. fold mgr. rewrite Hm.
  unfold get_all_active_chats. simpl.
  rewrite !length_fmap, !length_map_to_list.
  rewrite map_size_delete_Some; [|by eexists].
  assert (size (chat_memories mgr) ≠ 0%nat); [|lia].
  intros H0. apply map_size_empty_inv in H0. rewrite H0 in Hm. done.
Qed.

Lemma active_chats_listing_witness :
  "s" ∈ get_all_active_chats
          (memory_manager (switch_to_chat "s" (init_world test_uuid4)).2).
Proof.
  destruct (active_chats_listing true "s" (init_world test_uuid4))
    as (_ & _ & _ & _ & H & _).
  by apply H.
Defined.

(** ** Query validation *)

Lemma list_of_lstrip s :
  String.list_ascii_of_string (lstrip s) = lstrip_list (String.list_ascii_of_string s).
Proof. induction s as [|a s IH]; simpl; [done|]. by destruct (isspace a). Qed.

Lemma list_of_rev_app s1 s2 :
  String.list_ascii_of_string (String.rev_app s1 s2) =
    reverse (String.list_ascii_of_string s1) ++ String.list_ascii_of_string s2.
Proof.
  revert s2. induction s1 as [|a s1 IH]; intros s2; simpl; [done|].
  rewrite IH, reverse_cons, <- app_assoc. done.
Qed.

Lemma list_of_rev s :
  String.list_ascii_of_string (String.rev s) = reverse (String.list_ascii_of_string s).
Proof. unfold String.rev. by rewrite list_of_rev_app, app_nil_r. Qed.

Lemma list_of_strip s :
  String.list_ascii_of_string (strip s) = strip_list (String.list_ascii_of_string s).
Proof.
  unfold strip, rstrip, strip_list.
  by rewrite list_of_rev, list_of_lstrip, list_of_rev, list_of_lstrip.
Qed.

Lemma list_of_string_inj s1 s2 :
  String.list_ascii_of_string s1 = String.list_ascii_of_string s2 → s1 = s2.
Proof.
  intros H. rewrite <- (String.string_of_list_ascii_of_string s1),
    <- (String.string_of_list_ascii_of_string s2). by rewrite H.
Qed.

Lemma list_of_string_length s :
  length (String.list_ascii_of_string s) = String.length s.
Proof. induction s; simpl; congruence. Qed.

Lemma lstrip_list_length l : (length (lstrip_list l) ≤ length l)%nat.
Proof.
  induction l as [|a l IH]; simpl; [done|]. destruct (isspace a); simpl; lia.
Qed.

Lemma lstrip_list_idemp l : lstrip_list (lstrip_list l) = lstrip_list l.
Proof.
  induction l as [|a l IH]; simpl; [done|].
  destruct (isspace a) eqn:E; [done|]. simpl. by rewrite E.
Qed.

Lemma lstrip_list_snoc l a :
  isspace a = false → lstrip_list (l ++ [a]) = lstrip_list l ++ [a].
Proof.
  intros Ha. induction l as [|b l IH]; simpl; [by rewrite Ha|].
  by destruct (isspace b).
Qed.

(** A stripped list is empty or starts with a character that is not
    whitespace. *)
Lemma lstrip_list_head l :
  lstrip_list l = [] ∨ ∃ a t, lstrip_list l = a :: t ∧ isspace a = false.
Proof.
  induction l as [|a l IH]; simpl; [by left|].
  destruct (isspace a) eqn:E; [done|]. right. by exists a, l.
Qed.

Lemma strip_list_head l :
  strip_list l = [] ∨ ∃ a t, strip_list l = a :: t ∧ isspace a = false.
Proof.
  unfold strip_list.
  destruct (lstrip_list_head l) as [->|(a & t & -> & Ha)]; [by left|].
  right. rewrite reverse_cons, lstrip_list_snoc by done.
  rewrite reverse_snoc. by eexists _, _.
Qed.

Lemma strip_list_idemp l : strip_list (strip_list l) = strip_list l.
Proof.
  destruct (strip_list_head l) as [H|(a & t & H & Ha)].
  - by rewrite H.
  - unfold strip_list at 1. rewrite H. simpl. rewrite Ha.
    rewrite <- H. unfold strip_list.
    by rewrite reverse_involutive, lstrip_list_idemp.
Qed.

Lemma strip_list_length l : (length (strip_list l) ≤ length l)%nat.
Proof.
  unfold strip_list. rewrite length_reverse.
  etrans; [apply lstrip_list_length|]. rewrite length_reverse.
  apply lstrip_list_length.
Qed.

Lemma lstrip_list_nil l :
  lstrip_list l = [] → forallb isspace l = true.
Proof.
  induction l as [|a l IH]; simpl; [done|].
  destruct (isspace a); [done|]. discriminate.
Qed.

Lemma strip_list_nil l : strip_list l = [] → forallb isspace l = true.
Proof.
  unfold strip_list. intros H.
  destruct (lstrip_list_head l) as [Hl|(a & t & Hl & Ha)].
  - by apply lstrip_list_nil.
  - rewrite Hl, reverse_cons, lstrip_list_snoc in H by done.
    rewrite reverse_snoc in H. discriminate.
Qed.

Lemma whitespace_only_forallb s :
  whitespace_only s = forallb isspace (String.list_ascii_of_string s).
Proof. induction s as [|a s IH]; simpl; [done|]. by rewrite IH. Qed.

Lemma strip_idemp s : strip (strip s) = strip s.
Proof.
  apply list_of_string_inj. by rewrite !list_of_strip, strip_list_idemp.
Qed.

Lemma strip_length s : (String.length (strip s) ≤ String.length s)%nat.
Proof.
  rewrite <- !list_of_string_length, list_of_strip. apply strip_list_length.
Qed.

Lemma truthy_strip s : truthy (strip s) = negb (whitespace_only s).
Proof.
  destruct (whitespace_only s) eqn:E.
  - by rewrite (strip_whitespace_only _ E).
  - destruct (strip s) as [|a t] eqn:Es; [|done].
    assert (strip_list (String.list_ascii_of_string s) = []) as H.
    { by rewrite <- list_of_strip, Es. }
    apply strip_list_nil in H. rewrite <- whitespace_only_forallb in H.
    congruence.
Qed.

Lemma validate_query_eq query :
  _validate_query query =
    (if whitespace_only query then Invalid "Empty query"
     else if (max_query_length <? String.length query)%nat
          then Invalid "Query too long"
          else Valid (strip query)).
Proof.
  unfold _validate_query. rewrite truthy_strip.
  destruct (whitespace_only query) eqn:E.
  - by rewrite orb_true_r.
  - assert (truthy query = true) as -> by (by destruct query).
    simpl. assert (truthy (strip query) = true) as Hs.
    { by rewrite truthy_strip, E. }
    apply truthy_length in Hs.
    destruct (String.length (strip query) <? 1)%nat eqn:E1; [|done].
    apply Nat.ltb_lt in E1. lia.
Qed.

(** X9. [_validate_query] rejects exactly the queries that consist of
    whitespace only (the empty query included), with "Empty query", and
    the other queries of more than 2000 characters, counted before
    trimming, with "Query too long"; every other query is accepted and
    returned trimmed.  "Query too short" is never returned. *)
Theorem validate_query_cases (query : string) :
  (_validate_query query = Invalid "Empty query" ↔ whitespace_only query = true) ∧
  (_validate_query query = Invalid "Query too long" ↔
   whitespace_only query = false ∧
   (max_query_length < String.length query)%nat) ∧
  (∀ q', _validate_query query = Valid q' ↔
         whitespace_only query = false ∧
         (String.length query ≤ max_query_length)%nat ∧
         q' = strip query) ∧
  _validate_query query ≠ Invalid "Query too short".
Proof.
  rewrite validate_query_eq.
  destruct (whitespace_only query) eqn:E.
  { split; [done|]. split; [by split; [|intros [? _]]|].
    split; [|done]. intros q'. by split; [|intros [? _]]. }
  destruct (max_query_length <? String.length query)%nat eqn:El.
  - apply Nat.ltb_lt in El. split; [done|]. split; [done|].
    split; [|done]. intros q'. split; [done|]. intros (_ & Hl & _). lia.
  - apply Nat.ltb_ge in El. split; [done|]. split.
    { split; [done|]. intros [_ Hl]. lia. }
    split; [|done]. intros q'. split.
    + by intros [= <-].
    + by intros (_ & _ & ->).
Qed.

(** X10. An accepted query is handed on trimmed: it is not empty, has
    neither leading nor trailing whitespace (trimming it again changes
    nothing, and its first character is not whitespace) and has at most
    2000 characters. *)
Theorem validate_query_trimmed (query q' : string) :
  _validate_query query = Valid q' →
  q' = strip query ∧
  q' ≠ "" ∧
  strip q' = q' ∧
  lstrip q' = q' ∧
  (String.length q' ≤ max_query_length)%nat.
Proof.
  intros H. rewrite validate_query_eq in H.
  destruct (whitespace_only query) eqn:E; [done|].
  destruct (max_query_length <? String.length query)%nat eqn:El; [done|].
  injection H as <-. apply Nat.ltb_ge in El.
  split; [done|]. split.
  { intros Hs. pose proof (truthy_strip query) as Ht. rewrite Hs, E in Ht. done. }
  split; [apply strip_idemp|]. split.
  - apply list_of_string_inj. rewrite list_of_lstrip, list_of_strip.
    destruct (strip_list_head (String.list_ascii_of_string query))
      as [->|(a & t & -> & Ha)]; [done|].
    simpl. by rewrite Ha.
  - pose proof (strip_length query). lia.
Qed.

Lemma validate_query_trimmed_witness :
  strip "  what is a ration card?  " = "what is a ration card?" ∧
  strip (strip "  what is a ration card?  ") = strip "  what is a ration card?  ".
Proof.
  destruct (validate_query_trimmed "  what is a ration card?  "
              "what is a ration card?") as (H1 & _ & H3 & _).
  - reflexivity.
  - split; [by rewrite <- H1|]. by rewrite <- H1.
Defined.

(** ** The query pipeline on its other paths *)

Lemma keeps_calls_ret {A} (a : A) : keeps_calls (mret a).
Proof. by intros w. Qed.

Lemma keeps_calls_bind {A B} (c : M A) (f : A → M B) :
  keeps_calls c → (∀ a, keeps_calls (f a)) → keeps_calls (c ≫= f).
Proof. intros Hc Hf w. rewrite bind_run, Hf. apply Hc. Qed.

Lemma keeps_calls_logger lv m : keeps_calls (logger lv m).
Proof. by intros w. Qed.

Lemma keeps_calls_when b (c : M unit) : keeps_calls c → keeps_calls (when b c).
Proof. destruct b; [done|]. intros _. apply keeps_calls_ret. Qed.

Lemma keeps_calls_switch c : keeps_calls (switch_to_chat c).
Proof. intros w. by destruct (switch_to_chat_manager c w) as (_ & _ & _ & ->). Qed.

Lemma keeps_calls_save i o : keeps_calls (save_context i o).
Proof. intros w. by destruct (save_context_manager i o w) as (_ & _ & _ & ->). Qed.

Lemma keeps_calls_read : keeps_calls load_memory_variables.
Proof.
  intros w. unfold load_memory_variables. munfold. simpl.
  by destruct (get_current_memory (memory_manager w)).
Qed.

Lemma keeps_calls_get_enhanced_context documents query chat_id :
  keeps_calls (_get_enhanced_context documents query chat_id).
Proof.
  unfold _get_enhanced_context. destruct documents as [|d documents].
  - apply keeps_calls_bind; [apply keeps_calls_logger|]. intros _.
    apply keeps_calls_ret.
  - apply keeps_calls_bind; [apply keeps_calls_logger|]. intros _.
    destruct (context_loop 1 (select_documents (d :: documents)) [] []
                float_zero) as [[[? ?] ?]|].
    + apply keeps_calls_ret.
    + apply keeps_calls_bind; [apply keeps_calls_logger|]. intros _. apply keeps_calls_ret.
Qed.

Lemma keeps_calls_ensure_chain_availability env :
  keeps_calls (_ensure_chain_availability env).
Proof.
  unfold _ensure_chain_availability, _initialize_chain.
  apply keeps_calls_bind; [by intros w|]. intros a.
  apply keeps_calls_bind.
  { apply keeps_calls_when, keeps_calls_bind; [apply keeps_calls_logger|].
    intros _. apply keeps_calls_bind; [by intros w|]. intros _.
    destruct (chain_creatable env); apply keeps_calls_logger. }
  intros _. apply keeps_calls_bind; [by intros w|]. intros [|].
  - apply keeps_calls_ret.
  - apply keeps_calls_bind; [apply keeps_calls_logger|]. intros _.
    apply keeps_calls_ret.
Qed.

Lemma keeps_calls_after_stream q chat_id o : keeps_calls (after_stream q chat_id o).
Proof.
  destruct o as [full n ys t|ys e]; simpl.
  - apply keeps_calls_bind; [apply keeps_calls_when, keeps_calls_logger|].
    intros _. apply keeps_calls_bind; [apply keeps_calls_logger|]. intros _.
    apply keeps_calls_bind; [|intros _; apply keeps_calls_ret].
    destruct (truthy (strip full)); [|apply keeps_calls_logger].
    apply keeps_calls_bind; [apply keeps_calls_save|].
    intros [|]; apply keeps_calls_logger.
  - apply keeps_calls_bind; [apply keeps_calls_logger|]. intros _.
    apply keeps_calls_ret.
Qed.

(** The value of [_get_enhanced_context] does not depend on the world,
    the query or the session. *)
Lemma get_enhanced_context_value documents q1 c1 w1 q2 c2 w2 :
  (_get_enhanced_context documents q1 c1 w1).1 =
  (_get_enhanced_context documents q2 c2 w2).1.
Proof.
  unfold _get_enhanced_context. destruct documents as [|d documents]; [done|].
  munfold.
  by destruct (context_loop 1 (select_documents (d :: documents)) [] []
                 float_zero) as [[[? ?] ?]|].
Qed.

Lemma ensure_chain_availability_unavailable env w :
  chain w = false → chain_creatable env = false →
  (_ensure_chain_availability env w).1 = false.
Proof.
  intros Hc He. unfold _ensure_chain_availability, _initialize_chain.
  munfold. simpl. rewrite Hc. simpl. by rewrite He.
Qed.

Lemma entered_manager query chat_id w :
  memory_manager (entered query chat_id w) =
    match chat_id with
    | Some c => if truthy c then switched c w else memory_manager w
    | None => memory_manager w
    end.
Proof.
  unfold entered. destruct chat_id as [c|]; [|done].
  destruct (truthy c) eqn:Ht; [|done]. unfold when at 1. rewrite bind_run.
  set (w1 := (logger INFO (ProcessingQuery (Some c) query) w).2).
  destruct (switch_to_chat_manager c w1) as (-> & Hm & _). by simpl.
Qed.

Lemma entered_calls query chat_id w : calls (entered query chat_id w) = calls w.
Proof.
  unfold entered. destruct chat_id as [c|]; [|done].
  destruct (truthy c); [|done]. unfold when at 1.
  rewrite (keeps_calls_bind (switch_to_chat c)); [done|apply keeps_calls_switch|].
  intros b. apply keeps_calls_when, keeps_calls_logger.
Qed.

Lemma entered_chain query chat_id w : chain (entered query chat_id w) = chain w.
Proof.
  unfold entered. destruct chat_id as [c|]; [|done].
  destruct (truthy c); [|done]. unfold when at 1. rewrite bind_run.
  set (w1 := (logger INFO (ProcessingQuery (Some c) query) w).2).
  destruct (switch_to_chat_manager c w1) as (-> & _ & Hc & _). simpl.
  by rewrite Hc.
Qed.

(** [process_query] on a valid query, split at the check of the chain. *)
Lemma process_query_valid env query q' chat_id w :
  _validate_query query = Valid q' →
  process_query env query chat_id w =
    (available ← _ensure_chain_availability env;
     match available with
     | false => logger ERROR SystemUnavailable;; mret [unavailable_text]
     | true =>
         stream ← chain_stream env (mkChainInput q' chat_id);
         after_stream q' chat_id (stream_loop (start_time env) stream "" 0 [])
     end) (entered query chat_id w).
Proof.
  intros Hv. unfold process_query. rewrite Hv. rewrite !bind_run. done.
Qed.

Lemma switched_messages chat_id w c :
  truthy chat_id = true →
  from_option Langchain.messages [] (chat_memories (switched chat_id w) !! c) =
  messages_of w c.
Proof.
  intros Ht. unfold messages_of.
  destruct (decide (c = chat_id)) as [->|Hc]; [|by rewrite switched_other].
  destruct (switched_focused chat_id w Ht) as (_ & _ & ->).
  unfold memory_or_new. by destruct (chat_memories (memory_manager w) !! chat_id).
Qed.

Lemma memory_or_new_buffer c w :
  Langchain.buffer (memory_or_new c w) = buffer_of w c.
Proof.
  unfold memory_or_new, buffer_of.
  destruct (chat_memories (memory_manager w) !! c); simpl; [done|].
  unfold Langchain.buffer. simpl.
  by destruct (0 <? max_memory_size (memory_manager w)).
Qed.

Lemma memory_or_new_messages c w :
  Langchain.messages (memory_or_new c w) = messages_of w c.
Proof.
  unfold memory_or_new, messages_of.
  by destruct (chat_memories (memory_manager w) !! c).
Qed.

Lemma ensure_chain_availability_chain env w :
  chain (_ensure_chain_availability env w).2 = chain w || chain_creatable env.
Proof.
  unfold _ensure_chain_availability, _initialize_chain. munfold. simpl.
  destruct (chain w) eqn:Hc; simpl.
  - by rewrite Hc.
  - by destruct (chain_creatable env).
Qed.

Lemma after_stream_value q chat_id o w :
  (after_stream q chat_id o w).1 =
    match o with
    | Finished _ _ yielded _ => yielded
    | Faulted yielded e => yielded ++ [error_fragment e]
    end.
Proof. destruct o; unfold after_stream; by rewrite !bind_run. Qed.

Lemma after_stream_faulted_manager q chat_id ys e w :
  memory_manager (after_stream q chat_id (Faulted ys e) w).2 = memory_manager w.
Proof. done. Qed.

(** The chain on a session in focus: one retrieval, the prompt, one
    generation; the manager is left as it is. *)
Lemma chain_stream_focused_run env q c m w :
  focused (memory_manager w) c m →
  let r := chain_stream env (mkChainInput q (Some c)) w in
  let p :=
    match retriever_invoke env q with
    | Some documents =>
        let context_info := (_get_enhanced_context documents q (Some c) w).1 in
        {| p_context := context context_info;
           p_history := Langchain.buffer m;
           p_input := q;
           p_sources := sources context_info;
           p_relevance_score := relevance context_info |}
    | None =>
        {| p_context := "Error retrieving information. Please try again.";
           p_history := [];
           p_input := q;
           p_sources := [];
           p_relevance_score := float_zero |}
    end in
  r.1 = llm_stream env p ∧
  calls r.2 = calls w ++ [Retrieve q; Generate p] ∧
  memory_manager r.2 = memory_manager w.
Proof.
  intros Hf r p.
  set (g := get_context_and_history env (mkChainInput q (Some c)) w).
  assert (g.1 = p ∧ calls g.2 = calls w ++ [Retrieve q] ∧
          memory_manager g.2 = memory_manager w) as (Hg1 & Hg2 & Hg3).
  { unfold g, get_context_and_history, p. simpl. rewrite bind_run.
    set (w0 := (record_call (Retrieve q) w).2).
    destruct (retriever_invoke env q) as [documents|]; [|done].
    rewrite bind_run.
    set (w1 := (_get_enhanced_context documents q (Some c) w0).2).
    assert (calls w1 = calls w ++ [Retrieve q]) as Hc1.
    { unfold w1. by rewrite keeps_calls_get_enhanced_context. }
    assert (memory_manager w1 = memory_manager w) as Hm1.
    { unfold w1. by apply keeps_get_enhanced_context. }
    pose proof Hf as (Hcur & Ht & Hlook).
    unfold when. rewrite !bind_run. cbn [fst snd mret M_ret]. rewrite Ht.
    set (w2 := ((switch_to_chat c ≫= λ _, mret ()) w1).2).
    assert (calls w2 = calls w ++ [Retrieve q]) as Hc2.
    { unfold w2. rewrite bind_run. simpl. by rewrite keeps_calls_switch. }
    assert (memory_manager w2 = memory_manager w) as Hm2.
    { unfold w2. rewrite bind_run. simpl.
      by apply (keeps_switch_focused (memory_manager w) c m). }
    destruct (load_memory_variables_manager w2) as [Hl1 Hl2].
    rewrite Hl1, Hl2, Hm2, keeps_calls_read, Hc2.
    rewrite (focused_current _ c m) by done. simpl.
    split; [|done].
    by rewrite (get_enhanced_context_value documents q (Some c) w0 q (Some c) w). }
  unfold r, chain_stream. rewrite !bind_run. fold g.
  cbn [fst snd mret M_ret record_call calls memory_manager].
  rewrite Hg1, Hg2, Hg3, <- app_assoc. done.
Qed.

(** [process_query] for a valid query on a session, with the chain
    available: up to the end of the stream, with the prompt and the calls
    made explicit. *)
Lemma process_query_run_prompt env query q' c w :
  _validate_query query = Valid q' → truthy c = true →
  chain w = true ∨ chain_creatable env = true →
  ∃ w', memory_manager w' = switched c w ∧
    calls w' = calls w ++ [Retrieve q'; Generate (prompt_for env q' c w)] ∧
    process_query env query (Some c) w =
      after_stream q' (Some c)
        (stream_loop (start_time env)
           (llm_stream env (prompt_for env q' c w)) "" 0 []) w'.
Proof.
  intros Hv Ht Hchain. rewrite (process_query_valid _ _ _ _ _ Hv).
  set (w1 := entered query (Some c) w).
  assert (memory_manager w1 = switched c w) as Hm1.
  { unfold w1. by rewrite entered_manager, Ht. }
  rewrite bind_run.
  rewrite ensure_chain_availability_result
    by (unfold w1; by rewrite entered_chain).
  set (w2 := (_ensure_chain_availability env w1).2).
  assert (memory_manager w2 = switched c w) as Hm2.
  { unfold w2. by apply keeps_ensure_chain_availability. }
  assert (calls w2 = calls w) as Hc2.
  { unfold w2. rewrite keeps_calls_ensure_chain_availability.
    unfold w1. apply entered_calls. }
  assert (focused (memory_manager w2) c (memory_or_new c w)) as Hf.
  { rewrite Hm2. by apply switched_focused. }
  destruct (chain_stream_focused_run env q' c _ w2 Hf) as (Hs1 & Hs2 & Hs3).
  assert (match retriever_invoke env q' with
          | Some documents =>
              let context_info := (_get_enhanced_context documents q' (Some c) w2).1 in
              {| p_context := context context_info;
                 p_history := Langchain.buffer (memory_or_new c w);
                 p_input := q';
                 p_sources := sources context_info;
                 p_relevance_score := relevance context_info |}
          | None =>
              {| p_context := "Error retrieving information. Please try again.";
                 p_history := [];
                 p_input := q';
                 p_sources := [];
                 p_relevance_score := float_zero |}
          end = prompt_for env q' c w) as Hp.
  { unfold prompt_for. destruct (retriever_invoke env q') as [documents|]; [|done].
    cbv zeta. rewrite memory_or_new_buffer.
    by rewrite (get_enhanced_context_value documents q' (Some c) w2 q' (Some c) w). }
  rewrite Hp in Hs1, Hs2.
  exists (chain_stream env (mkChainInput q' (Some c)) w2).2.
  split; [by rewrite Hs3|]. split; [by rewrite Hs2, Hc2|].
  rewrite bind_run. by rewrite Hs1.
Qed.

(** X11. With no chain and none that can be created, a valid query
    yields the single "unavailable" fragment; no retrieval or generation
    call is made and no history changes, but the session named by the
    call, if any, has already been put in focus. *)
Theorem unavailable_chain_short_circuit (env : Env) (query q' : string)
    (chat_id : option string) (w : World) :
  _validate_query query = Valid q' →
  chain w = false → chain_creatable env = false →
  let r := process_query env query chat_id w in
  r.1 = [unavailable_text] ∧
  calls r.2 = calls w ∧
  chain r.2 = false ∧
  (∀ c, messages_of r.2 c = messages_of w c) ∧
  current_chat_id (memory_manager r.2) =
    match chat_id with
    | Some c => if truthy c then Some c else current_chat_id (memory_manager w)
    | None => current_chat_id (memory_manager w)
    end.
Proof.
  intros Hv Hc He r. unfold r. rewrite (process_query_valid _ _ _ _ _ Hv).
  set (w1 := entered query chat_id w). rewrite bind_run.
  rewrite ensure_chain_availability_unavailable
    by (done || unfold w1; by rewrite entered_chain).
  set (w2 := (_ensure_chain_availability env w1).2).
  assert (memory_manager w2 = memory_manager w1) as Hm2.
  { unfold w2. by apply keeps_ensure_chain_availability. }
  rewrite bind_run. simpl.
  split; [done|]. split.
  { unfold w2. rewrite keeps_calls_ensure_chain_availability. apply entered_calls. }
  split.
  { unfold w2. rewrite ensure_chain_availability_chain. unfold w1.
    by rewrite entered_chain, Hc, He. }
  unfold messages_of. simpl. rewrite Hm2. unfold w1. rewrite entered_manager.
  destruct chat_id as [c|]; [|done].
  destruct (truthy c) eqn:Ht; [|done].
  split; [intros c'; by apply switched_messages|].
  by destruct (switched_focused c w Ht).
Qed.

Lemma unavailable_chain_short_circuit_witness :
  let env := {| start_time := 0; chain_creatable := false;
                retriever_invoke := λ _, Some sample_documents;
                llm_stream := λ _, StreamChunk "answer" 1 StreamEnd |} in
  let r := process_query env "hi" (Some "t") one_pair_world in
  r.1 = [unavailable_text] ∧ calls r.2 = [] ∧
  current_chat_id (memory_manager r.2) = Some "t".
Proof.
  intros env r.
  destruct (unavailable_chain_short_circuit env "hi" "hi" (Some "t") one_pair_world)
    as (H1 & H2 & _ & _ & H5); [reflexivity..|].
  split; [exact H1|]. split; [exact H2|exact H5].
Defined.

Lemma error_fragment_fault_message e : error_fragment e ∈ fault_messages.
Proof.
  unfold error_fragment, fault_messages.
  destruct (contains "rate limit" (lower e)); [set_solver|].
  destruct (contains "timeout" (lower e)); [set_solver|].
  destruct (contains "context" (lower e)); set_solver.
Qed.

(** X12. When the stream raises after delivering fragments in time, the
    non-empty fragments delivered so far are still yielded, followed by
    exactly one of the four fixed fault messages, chosen by the text of
    the fault; nothing is committed to any session. *)
Theorem stream_fault_keeps_partial_output (env : Env) (query q' c : string)
    (w : World) (pre : list (string * Q)) (e : string) :
  _validate_query query = Valid q' →
  truthy c = true →
  chain w = true ∨ chain_creatable env = true →
  (∀ p, llm_stream env p = prepend pre (StreamRaise e)) →
  Forall (in_time (start_time env)) pre →
  let r := process_query env query (Some c) w in
  r.1 = forwarded pre ++ [error_fragment e] ∧
  error_fragment e ∈ fault_messages ∧
  (∀ c', messages_of r.2 c' = messages_of w c').
Proof.
  intros Hv Ht Hchain Hstream Hpre r.
  destruct (process_query_run_prompt env query q' c w Hv Ht Hchain)
    as (w' & Hm & _ & Hrun).
  unfold r. rewrite Hrun, Hstream, (stream_loop_prepend _ _ _ _ _ _ Hpre).
  cbn [stream_loop]. rewrite after_stream_value.
  split; [done|]. split; [apply error_fragment_fault_message|].
  intros c'. unfold messages_of. rewrite after_stream_faulted_manager, Hm.
  by apply switched_messages.
Qed.

Lemma stream_fault_keeps_partial_output_witness :
  let env := {| start_time := 0; chain_creatable := true;
                retriever_invoke := λ _, Some sample_documents;
                llm_stream := λ _,
                  prepend [("Hel", 1%Q)] (StreamRaise "Rate Limit reached") |} in
  let r := process_query env "hi" (Some "s") one_pair_world in
  r.1 = ["Hel"; "Rate limit exceeded. Please wait a moment and try again."] ∧
  messages_of r.2 "s" = messages_of one_pair_world "s".
Proof.
  intros env r.
  destruct (stream_fault_keeps_partial_output env "hi" "hi" "s" one_pair_world
              [("Hel", 1%Q)] "Rate Limit reached") as (H1 & _ & H3).
  - reflexivity.
  - reflexivity.
  - by right.
  - done.
  - constructor; [|constructor]. right. simpl. unfold Qle. simpl. lia.
  - split; [exact H1|apply H3].
Defined.

Lemma truthy_nonempty s : truthy s = true → s ≠ "".
Proof. by destruct s. Qed.

Lemma stream_loop_yielded_nonempty start s full n out :
  Forall (λ x : string, x ≠ "") out →
  match stream_loop start s full n out with
  | Finished _ _ yielded _ => Forall (λ x : string, x ≠ "") yielded
  | Faulted yielded _ => Forall (λ x : string, x ≠ "") yielded
  end.
Proof.
  revert full n out. induction s as [|e|chunk now rest IH]; intros full n out Hout;
    simpl; [done..|].
  destruct (truthy chunk) eqn:Hc; [|by apply IH].
  assert (Forall (λ x : string, x ≠ "") (out ++ [chunk])) as Hout'.
  { apply Forall_app. split; [done|]. constructor; [|done].
    by apply truthy_nonempty. }
  destruct (negb (Qle_bool (now - start) streaming_timeout)); [done|by apply IH].
Qed.

Lemma error_fragment_nonempty e : error_fragment e ≠ "".
Proof.
  unfold error_fragment.
  destruct (contains "rate limit" (lower e)); [done|].
  destruct (contains "timeout" (lower e)); [done|].
  by destruct (contains "context" (lower e)).
Qed.

Lemma process_query_invalid env query reason chat_id w :
  _validate_query query = Invalid reason →
  let r := process_query env query chat_id w in
  r.1 = ["Invalid query: " +:+ reason] ∧
  memory_manager r.2 = memory_manager w ∧ calls r.2 = calls w.
Proof. intros Hv. unfold process_query. rewrite Hv. by munfold. Qed.

(** X13. No fragment [process_query] yields is the empty string, on any
    path: the validation error, the "unavailable" text, the fragments
    forwarded from the stream (empty ones are dropped before the yield)
    and the fault message. *)
Theorem process_query_fragments_nonempty (env : Env) (query : string)
    (chat_id : option string) (w : World) :
  Forall (λ fragment : string, fragment ≠ "")
         (process_query env query chat_id w).1.
Proof.
  destruct (_validate_query query) as [reason|q'] eqn:Hv.
  { destruct (process_query_invalid env query reason chat_id w Hv) as (-> & _).
    by constructor. }
  - rewrite (process_query_valid _ _ _ _ _ Hv). rewrite bind_run.
    destruct (_ensure_chain_availability env (entered query chat_id w)).1.
    + rewrite bind_run, after_stream_value.
      match goal with |- context [stream_loop ?a ?s ?f ?n ?o] =>
        pose proof (stream_loop_yielded_nonempty a s f n o (Forall_nil_2 _)) as H;
        destruct (stream_loop a s f n o) end.
      * done.
      * apply Forall_app. split; [done|].
        constructor; [apply error_fragment_nonempty|done].
    + rewrite bind_run. simpl. by constructor.
Qed.

(** X14. A valid query on a session, with the chain available, makes
    exactly two outside calls, in this order: one retrieval for the
    trimmed query and one generation for the prompt built from it.  The
    prompt's history is the window of the session as it was before the
    call; when the retriever raises, generation is still called, with the
    fixed fallback context and no history. *)
Theorem process_query_calls (env : Env) (query q' c : string) (w : World) :
  _validate_query query = Valid q' →
  truthy c = true →
  chain w = true ∨ chain_creatable env = true →
  let r := process_query env query (Some c) w in
  let p := prompt_for env q' c w in
  calls r.2 = calls w ++ [Retrieve q'; Generate p] ∧
  p_input p = q' ∧
  match retriever_invoke env q' with
  | Some documents =>
      p_history p = buffer_of w c ∧
      p_context p = context (_get_enhanced_context documents q' (Some c) w).1
  | None =>
      p_history p = [] ∧
      p_context p = "Error retrieving information. Please try again."
  end.
Proof.
  intros Hv Ht Hchain r p.
  destruct (process_query_run_prompt env query q' c w Hv Ht Hchain)
    as (w' & _ & Hc & Hrun).
  split.
  { unfold r. rewrite Hrun. by rewrite keeps_calls_after_stream. }
  unfold p, prompt_for. by destruct (retriever_invoke env q').
Qed.

Lemma process_query_calls_witness :
  let env := {| start_time := 0; chain_creatable := true;
                retriever_invoke := λ _, None;
                llm_stream := λ _, StreamChunk "answer" 1 StreamEnd |} in
  let r := process_query env " hi " (Some "s") one_pair_world in
  calls r.2 =
    [Retrieve "hi";
     Generate {| p_context := "Error retrieving information. Please try again.";
                 p_history := [];
                 p_input := "hi";
                 p_sources := [];
                 p_relevance_score := float_zero |}].
Proof.
  intros env r.
  destruct (process_query_calls env " hi " "hi" "s" one_pair_world) as (H & _).
  - reflexivity.
  - reflexivity.
  - by right.
  - exact H.
Defined.

(** X15. Whatever the query, the environment and the path taken, a call
    of [process_query] for a session changes no other session, and the
    session's own messages are either left as they were or extended by
    exactly one pair: the trimmed query and a reply that is not blank. *)
Theorem process_query_touches_one_session (env : Env) (query c : string)
    (w : World) :
  truthy c = true →
  let r := process_query env query (Some c) w in
  (∀ c', c' ≠ c →
     chat_memories (memory_manager r.2) !! c' =
     chat_memories (memory_manager w) !! c') ∧
  (messages_of r.2 c = messages_of w c ∨
   ∃ q' full_response,
     _validate_query query = Valid q' ∧
     truthy (strip full_response) = true ∧
     messages_of r.2 c =
       messages_of w c ++ [HumanMessage q'; AIMessage full_response]).
Proof.
  intros Ht r.
  destruct (_validate_query query) as [reason|q'] eqn:Hv.
  1:{ destruct (process_query_invalid env query reason (Some c) w Hv)
        as (_ & Hm & _).
      unfold r, messages_of. rewrite Hm. auto. }
  destruct (chain w || chain_creatable env) eqn:Hchain.
  - apply orb_true_iff in Hchain.
    destruct (process_query_run_prompt env query q' c w Hv Ht Hchain)
      as (w' & Hm & _ & Hrun).
    assert (focused (memory_manager w') c (memory_or_new c w)) as Hf.
    { rewrite Hm. by apply switched_focused. }
    unfold r, messages_of. rewrite Hrun.
    destruct (stream_loop _ _ _ _ _) as [full n ys t|ys e].
    + destruct (after_stream_finished q' (Some c) full n ys t w' c _ Hf)
        as [_ ->].
      destruct (truthy (strip full)) eqn:Hfull.
      * split.
        { intros c' Hc'. simpl. rewrite lookup_insert_ne by done.
          rewrite Hm. by apply switched_other. }
        right. exists q', full. split; [done|]. split; [done|].
        simpl. rewrite lookup_insert_eq. simpl.
        by rewrite memory_or_new_messages.
      * rewrite Hm. split; [intros c' Hc'; by apply switched_other|].
        left. by apply switched_messages.
    + rewrite after_stream_faulted_manager, Hm.
      split; [intros c' Hc'; by apply switched_other|].
      left. by apply switched_messages.
  - apply orb_false_iff in Hchain as [Hc He].
    unfold r, messages_of. rewrite (process_query_valid _ _ _ _ _ Hv).
    rewrite bind_run.
    rewrite ensure_chain_availability_unavailable
      by (done || by rewrite entered_chain).
    rewrite bind_run. simpl.
    rewrite (keeps_ensure_chain_availability _ env _ eq_refl).
    rewrite entered_manager, Ht.
    split; [intros c' Hc'; by apply switched_other|].
    left. by apply switched_messages.
Qed.

Lemma process_query_touches_one_session_witness :
  let env := {| start_time := 0; chain_creatable := true;
                retriever_invoke := λ _, Some sample_documents;
                llm_stream := λ _, StreamChunk "answer" 1 StreamEnd |} in
  let r := process_query env "hi" (Some "t") one_pair_world in
  chat_memories (memory_manager r.2) !! "s" =
  chat_memories (memory_manager one_pair_world) !! "s".
Proof.
  intros env r.
  destruct (process_query_touches_one_session env "hi" "t" one_pair_world)
    as [H _]; [reflexivity|].
  by apply H.
Defined.

(** ** The chain across operations *)

Lemma keeps_chain_ret {A} (a : A) : keeps_chain (mret a).
Proof. by intros w. Qed.

Lemma keeps_chain_bind {A B} (c : M A) (f : A → M B) :
  keeps_chain c → (∀ a, keeps_chain (f a)) → keeps_chain (c ≫= f).
Proof. intros Hc Hf w. rewrite bind_run, Hf. apply Hc. Qed.

Lemma keeps_chain_logger lv m : keeps_chain (logger lv m).
Proof. by intros w. Qed.

Lemma keeps_chain_get_manager : keeps_chain get_manager.
Proof. by intros w. Qed.

Lemma keeps_chain_put_manager mgr : keeps_chain (put_manager mgr).
Proof. by intros w. Qed.

Lemma keeps_chain_uuid : keeps_chain uuid_uuid4.
Proof. by intros w. Qed.

Lemma keeps_chain_record_call c : keeps_chain (record_call c).
Proof. by intros w. Qed.

Lemma keeps_chain_when b (c : M unit) : keeps_chain c → keeps_chain (when b c).
Proof. destruct b; [done|]. intros _. apply keeps_chain_ret. Qed.

Ltac keeps_chain_step :=
  lazymatch goal with
  | |- keeps_chain (mret _) => apply keeps_chain_ret
  | |- keeps_chain (logger _ _) => apply keeps_chain_logger
  | |- keeps_chain get_manager => apply keeps_chain_get_manager
  | |- keeps_chain (put_manager _) => apply keeps_chain_put_manager
  | |- keeps_chain uuid_uuid4 => apply keeps_chain_uuid
  | |- keeps_chain (record_call _) => apply keeps_chain_record_call
  | |- keeps_chain (when _ _) => apply keeps_chain_when
  | |- keeps_chain (_ ≫= _) => apply keeps_chain_bind; [|intros ?]
  | |- keeps_chain (if ?b then _ else _) => destruct b
  | |- keeps_chain (match ?x with _ => _ end) => destruct x
  end.

Lemma keeps_chain_create c : keeps_chain (create_new_chat_memory c).
Proof. unfold create_new_chat_memory. repeat keeps_chain_step. Qed.

Lemma keeps_chain_switch c : keeps_chain (switch_to_chat c).
Proof.
  unfold switch_to_chat. repeat keeps_chain_step; apply keeps_chain_create.
Qed.

Lemma keeps_chain_update f : keeps_chain (update_current_memory f).
Proof. unfold update_current_memory. repeat keeps_chain_step. Qed.

Lemma keeps_chain_save i o : keeps_chain (save_context i o).
Proof.
  unfold save_context. repeat keeps_chain_step; apply keeps_chain_update.
Qed.

Lemma keeps_chain_read : keeps_chain load_memory_variables.
Proof. unfold load_memory_variables. repeat keeps_chain_step. Qed.

Lemma keeps_chain_clear : keeps_chain clear_current_chat_memory.
Proof.
  unfold clear_current_chat_memory. repeat keeps_chain_step;
    apply keeps_chain_update.
Qed.

Lemma keeps_chain_delete c : keeps_chain (delete_chat_memory c).
Proof. unfold delete_chat_memory. repeat keeps_chain_step. Qed.

Lemma keeps_chain_collect c i msgs : keeps_chain (collect_message_pairs c i msgs).
Proof.
  revert i. induction msgs as [msgs IH] using (induction_ltof1 _ length).
  intros i. destruct msgs as [|u [|a rest]]; simpl; try apply keeps_chain_ret.
  assert (∀ j, keeps_chain (collect_message_pairs c j rest)) as Hrest.
  { intros j. apply IH. unfold ltof. simpl. lia. }
  destruct (valid_message_pair u a); repeat keeps_chain_step; apply Hrest.
Qed.

Lemma keeps_chain_load_pairs c pairs : keeps_chain (load_recent_pairs c pairs).
Proof.
  induction pairs as [|[u a] pairs IH]; simpl; [apply keeps_chain_ret|].
  apply keeps_chain_bind; [apply keeps_chain_save|]. intros saved.
  apply keeps_chain_bind; [apply keeps_chain_when, keeps_chain_logger|].
  intros _. apply keeps_chain_bind; [apply IH|]. intros n.
  apply keeps_chain_ret.
Qed.

Lemma keeps_chain_rehydrate c msgs :
  keeps_chain (load_chat_messages_from_history c msgs).
Proof.
  unfold load_chat_messages_from_history.
  apply keeps_chain_bind; [apply keeps_chain_switch|]. intros switched.
  destruct (negb switched); [repeat keeps_chain_step|].
  apply keeps_chain_bind; [apply keeps_chain_clear|]. intros cleared.
  apply keeps_chain_bind; [apply keeps_chain_when, keeps_chain_logger|].
  intros _. destruct msgs as [|m msgs]; [repeat keeps_chain_step|].
  apply keeps_chain_bind; [apply keeps_chain_collect|]. intros pairs.
  apply keeps_chain_bind; [apply keeps_chain_get_manager|]. intros mgr.
  cbv zeta.
  apply keeps_chain_bind; [apply keeps_chain_load_pairs|]. intros n.
  repeat keeps_chain_step.
Qed.

Lemma keeps_chain_get_enhanced_context documents query chat_id :
  keeps_chain (_get_enhanced_context documents query chat_id).
Proof.
  unfold _get_enhanced_context. destruct documents as [|d documents].
  - repeat keeps_chain_step.
  - apply keeps_chain_bind; [apply keeps_chain_logger|]. intros _.
    destruct (context_loop 1 (select_documents (d :: documents)) [] []
                float_zero) as [[[? ?] ?]|].
    + apply keeps_chain_ret.
    + apply keeps_chain_bind; [apply keeps_chain_logger|]. intros _. apply keeps_chain_ret.
Qed.

Lemma keeps_chain_chain_stream env x : keeps_chain (chain_stream env x).
Proof.
  unfold chain_stream, get_context_and_history. cbv zeta.
  apply keeps_chain_bind; [|intros p; repeat keeps_chain_step].
  apply keeps_chain_bind; [apply keeps_chain_record_call|]. intros _.
  destruct (retriever_invoke env (ci_input x)); [|repeat keeps_chain_step].
  apply keeps_chain_bind; [apply keeps_chain_get_enhanced_context|].
  intros context_info. apply keeps_chain_bind.
  { destruct (ci_chat_id x); [|apply keeps_chain_ret].
    apply keeps_chain_when. apply keeps_chain_bind; [apply keeps_chain_switch|].
    intros _. apply keeps_chain_ret. }
  intros _. apply keeps_chain_bind; [apply keeps_chain_read|]. intros h.
  apply keeps_chain_ret.
Qed.

Lemma keeps_chain_after_stream q chat_id o : keeps_chain (after_stream q chat_id o).
Proof.
  destruct o as [full n ys t|ys e]; simpl.
  - apply keeps_chain_bind; [apply keeps_chain_when, keeps_chain_logger|].
    intros _. apply keeps_chain_bind; [apply keeps_chain_logger|]. intros _.
    apply keeps_chain_bind; [|intros _; apply keeps_chain_ret].
    destruct (truthy (strip full)); [|apply keeps_chain_logger].
    apply keeps_chain_bind; [apply keeps_chain_save|].
    intros [|]; apply keeps_chain_logger.
  - apply keeps_chain_bind; [apply keeps_chain_logger|]. intros _.
    apply keeps_chain_ret.
Qed.

(** The chain after [process_query]: an invalid query does not look at
    it, a valid one creates it when it is missing and can be created. *)
Lemma process_query_chain env query chat_id w :
  chain (process_query env query chat_id w).2 =
    match _validate_query query with
    | Invalid _ => chain w
    | Valid _ => chain w || chain_creatable env
    end.
Proof.
  destruct (_validate_query query) as [reason|q'] eqn:Hv.
  { unfold process_query. rewrite Hv. by munfold. }
  rewrite (process_query_valid _ _ _ _ _ Hv), bind_run.
  pose proof (ensure_chain_availability_chain env (entered query chat_id w)) as Hc.
  rewrite entered_chain in Hc.
  destruct (_ensure_chain_availability env (entered query chat_id w)).1.
  - by rewrite bind_run, keeps_chain_after_stream, keeps_chain_chain_stream.
  - by rewrite bind_run.
Qed.

Lemma run_op_chain op w : chain w = true → chain (run_op op w).2 = true.
Proof.
  intros Hc. destruct op; simpl; rewrite bind_run; simpl.
  - by rewrite keeps_chain_create.
  - by rewrite keeps_chain_switch.
  - by rewrite keeps_chain_save.
  - by rewrite keeps_chain_read.
  - by rewrite keeps_chain_clear.
  - by rewrite keeps_chain_delete.
  - by rewrite keeps_chain_rehydrate.
  - rewrite process_query_chain, Hc. by destruct (_validate_query query).
Qed.

(** X16. The chain is created lazily and never dropped: after a call of
    [process_query] it is available exactly if it was before or the query
    was valid and the chain could be created, and once it is available it
    stays so, and is reported so by [get_chain_status], through every
    later sequence of manager operations and queries ([reinitialize] is
    not one of them). *)
Theorem chain_created_lazily_never_dropped (env : Env) (query : string)
    (chat_id : option string) (w : World) :
  let r := process_query env query chat_id w in
  chain r.2 =
    match _validate_query query with
    | Invalid _ => chain w
    | Valid _ => chain w || chain_creatable env
    end ∧
  ∀ (ops : list Op) (available : bool),
    chain w = true →
    chain_available (get_chain_status available (run_ops ops w).2) = true.
Proof.
  split; [apply process_query_chain|].
  intros ops available. revert w. induction ops as [|op ops IH]; intros w Hc.
  - done.
  - simpl run_ops. rewrite bind_run. apply IH. by apply run_op_chain.
Qed.

(** ** Conversation memory across two queries *)

(** X17. A committed reply is in the history of the next prompt: after a
    query on a session whose stream ends in time with a reply that is not
    blank, the next valid query on the same session is sent to generation
    with, as history, the window over the session's earlier messages
    followed by the first query and its full reply. *)
Theorem reply_enters_next_prompt (W : Z) (env : Env)
    (query1 q1 query2 q2 c : string) (w : World) (pre : list (string * Q))
    (documents : list Document) :
  manager_ok W (memory_manager w) →
  _validate_query query1 = Valid q1 →
  _validate_query query2 = Valid q2 →
  truthy c = true →
  chain w = true ∨ chain_creatable env = true →
  llm_stream env (prompt_for env q1 c w) = prepend pre StreamEnd →
  Forall (in_time (start_time env)) pre →
  truthy (strip (concat_fragments (forwarded pre))) = true →
  retriever_invoke env q2 = Some documents →
  let r1 := process_query env query1 (Some c) w in
  let r2 := process_query env query2 (Some c) r1.2 in
  let full_response := concat_fragments (forwarded pre) in
  ∃ p, calls r2.2 = calls r1.2 ++ [Retrieve q2; Generate p] ∧
       p_input p = q2 ∧
       p_history p =
         if 0 <? W
         then slice_last (Z.to_nat (W * 2))
                (messages_of w c ++ [HumanMessage q1; AIMessage full_response])
         else [].
Proof.
  intros Hok Hv1 Hv2 Ht Hchain Hstream Hpre Hfull Hretr r1 r2 full_response.
  assert (chain r1.2 = true) as Hchain1.
  { unfold r1. rewrite process_query_chain, Hv1.
    destruct Hchain as [-> | ->]; [done|apply orb_true_r]. }
  assert (chat_memories (memory_manager r1.2) !! c =
          Some (Langchain.save_context q1 full_response (memory_or_new c w)))
    as Hlook.
  { destruct (process_query_run_prompt env query1 q1 c w Hv1 Ht Hchain)
      as (w1 & Hm1 & _ & Hrun1).
    assert (focused (memory_manager w1) c (memory_or_new c w)) as Hf.
    { rewrite Hm1. by apply switched_focused. }
    unfold r1. rewrite Hrun1, Hstream, (stream_loop_prepend _ _ _ _ _ _ Hpre).
    cbn [stream_loop].
    destruct (after_stream_finished q1 (Some c)
                (foldl String.append "" (forwarded pre))
                (0 + length (forwarded pre)) ([] ++ forwarded pre) false
                w1 c _ Hf) as [_ ->].
    fold (concat_fragments (forwarded pre)). rewrite Hfull. simpl.
    by rewrite lookup_insert_eq. }
  destruct (process_query_run_prompt env query2 q2 c r1.2 Hv2 Ht (or_introl Hchain1))
    as (w2 & _ & Hc2 & Hrun2).
  exists (prompt_for env q2 c r1.2). split.
  { unfold r2. rewrite Hrun2. by rewrite keeps_calls_after_stream. }
  unfold prompt_for. rewrite Hretr. cbv zeta. cbn [p_input p_history].
  split; [done|].
  unfold buffer_of. rewrite Hlook. simpl. unfold Langchain.buffer. simpl.
  by rewrite (memory_or_new_k W), memory_or_new_messages.
Qed.

Lemma reply_enters_next_prompt_witness :
  let env := {| start_time := 0; chain_creatable := true;
                retriever_invoke := λ _, Some sample_documents;
                llm_stream := λ _, StreamChunk "answer" 1 StreamEnd |} in
  let r1 := process_query env "hi" (Some "s") one_pair_world in
  let r2 := process_query env "more" (Some "s") r1.2 in
  ∃ p, calls r2.2 = calls r1.2 ++ [Retrieve "more"; Generate p] ∧
       p_history p =
         [HumanMessage "q"; AIMessage "a"; HumanMessage "hi"; AIMessage "answer"].
Proof.
  intros env r1 r2.
  destruct (reply_enters_next_prompt 6 env "hi" "hi" "more" "more" "s"
              one_pair_world [("answer", 1%Q)] sample_documents)
    as (p & Hc & _ & Hh).
  - apply reachable_ok. by exists test_uuid4, [OpSwitch "s"; OpSave "q" "a"].
  - reflexivity.
  - reflexivity.
  - reflexivity.
  - by right.
  - reflexivity.
  - constructor; [|constructor]. right. simpl. unfold Qle. simpl. lia.
  - reflexivity.
  - reflexivity.
  - exists p. split; [exact Hc|]. rewrite Hh. reflexivity.
Defined.

(** ** Context assembly: bounds and the order of retrieval *)

Lemma select_documents_length documents :
  (length (select_documents documents) ≤ max_docs)%nat ∧
  (length (select_documents documents) ≤ length documents)%nat.
Proof.
  rewrite select_documents_eq, length_take. split; [lia|].
  etrans; [apply Nat.le_min_r|]. etrans; [apply length_filter|].
  by rewrite sorted_by_score_perm.
Qed.




Lemma insert_by_score_head d l :
  Forall (score_ge d) l → insert_by_score d l = d :: l.
Proof.
  destruct 1 as [|y l Hy _]; simpl; [done|].
  unfold score_ge, float_le in Hy. unfold float_ge. by rewrite Hy.
Qed.

Lemma sorted_by_score_sorted_id l :
  StronglySorted score_ge l → sorted_by_score l = l.
Proof.
  induction 1 as [|d l _ IH Hd]; simpl; [done|].
  fold (sorted_by_score l). rewrite IH. by apply insert_by_score_head.
Qed.

Lemma filter_threshold_prefix l :
  StronglySorted score_ge l →
  filter (λ d, float_le relevance_threshold (score d)) l =
    take (length (filter (λ d, float_le relevance_threshold (score d)) l)) l.
Proof.
  induction 1 as [|d l _ IH Hd]; [done|].
  rewrite filter_cons.
  destruct (decide (float_le relevance_threshold (score d))) as [Hp|Hp].
  - simpl. by rewrite <- IH.
  - assert (filter (λ d, float_le relevance_threshold (score d)) l = []) as ->;
      [|done].
    clear IH. induction Hd as [|y l Hy _ IH']; [done|].
    rewrite filter_cons_False; [done|].
    intros Hy'. apply Hp. unfold score_ge in Hy.
    by apply (float_le_trans _ (score y)).
Qed.

(** X19. A retrieval that already comes in descending order of score is
    not reordered: the documents kept are a prefix of the retrieval, as
    long as the number of documents at or above the threshold, and at
    most five; the sources are listed from that prefix when the text of
    its documents can be read, and the result is the error record
    otherwise. *)
Theorem sorted_retrieval_keeps_order (documents : list Document)
    (query : string) (chat_id : option string) (w : World) :
  StronglySorted score_ge documents →
  let r := (_get_enhanced_context documents query chat_id w).1 in
  let above := filter (λ d, float_le relevance_threshold (score d)) documents in
  let kept := take (min max_docs (length above)) documents in
  sorted_by_score documents = documents ∧
  select_documents documents = kept ∧
  (Forall has_content kept →
     sources r = imap (λ j d, (source_of (S j) d, page_of d)) kept) ∧
  (¬ Forall has_content kept → r = error_context).
Proof.
  intros Hsorted r above kept.
  assert (select_documents documents = kept) as Hsel.
  { rewrite select_documents_eq, (sorted_by_score_sorted_id _ Hsorted).
    rewrite (filter_threshold_prefix _ Hsorted). fold above.
    unfold kept. by rewrite take_take. }
  split; [by apply sorted_by_score_sorted_id|]. split; [done|].
  rewrite <- Hsel. split.
  - intros Hall. destruct (decide (documents = [])) as [->|Hne]; [done|].
    unfold r.
    by rewrite (get_enhanced_context_selected documents query chat_id w Hne Hall).
  - intros Hno. by apply get_enhanced_context_fault.
Qed.

Lemma sorted_retrieval_keeps_order_witness :
  let documents :=
    [doc "g" (Some (tenths 10)); doc "b" None; doc "a" (Some (tenths 2))] in
  select_documents documents = [doc "g" (Some (tenths 10)); doc "b" None].
Proof.
  intros documents.
  destruct (sorted_retrieval_keeps_order documents "q" None (init_world test_uuid4))
    as (_ & H & _).
  - repeat constructor.
  - rewrite H. reflexivity.
Defined.

Lemma unscored_score d : relevance_score d = None → score d = float_0_5.
Proof. unfold score. by intros ->. Qed.

(** The mean, as the code computes it, of up to five scores of 0.5: the
    sums 0.5, 1.0, ..., 2.5 and their quotients are exact. *)
Lemma mean_score_half l :
  l ≠ [] → (length l ≤ 5)%nat → Forall (λ d, score d = float_0_5) l →
  mean_score l = float_0_5.
Proof.
  intros Hne Hlen Hall.
  assert (score <$> l = replicate (length l) float_0_5) as Hs.
  { clear Hne Hlen. induction Hall as [|d l Hd _ IH]; [done|].
    rewrite fmap_cons, Hd, IH. done. }
  unfold mean_score. destruct l as [|d l]; [done|]. rewrite Hs.
  clear Hs Hall Hne. revert Hlen. cbn [length]. generalize (length l).
  intros n Hn.
  destruct n as [|[|[|[|[|n]]]]]; try lia; vm_compute; reflexivity.
Qed.

(** X20. Documents that carry no relevance score all count 0.5: the
    first five are kept in the order of retrieval and, when their text
    can be read, listed as the sources, and the relevance reported is
    one half. *)
Theorem unscored_documents_keep_retrieval_order (documents : list Document)
    (query : string) (chat_id : option string) (w : World) :
  documents ≠ [] →
  Forall (λ d, relevance_score d = None) documents →
  let r := (_get_enhanced_context documents query chat_id w).1 in
  select_documents documents = take max_docs documents ∧
  (Forall has_content (take max_docs documents) →
     sources r = imap (λ j d, (source_of (S j) d, page_of d))
                      (take max_docs documents) ∧
     relevance r = S754_finite false 4503599627370496 (-53)) ∧
  (¬ Forall has_content (take max_docs documents) → r = error_context).
Proof.
  intros Hne Hnone r.
  assert (Forall (λ d, score d = float_0_5) documents) as Hhalf.
  { eapply Forall_impl; [exact Hnone|]. apply unscored_score. }
  assert (StronglySorted score_ge documents) as Hsorted.
  { clear -Hhalf. induction Hhalf as [|d l Hd Hl IH]; constructor; [done|].
    eapply Forall_impl; [exact Hl|]. intros y Hy. unfold score_ge.
    by rewrite Hd, Hy. }
  assert (filter (λ d, float_le relevance_threshold (score d)) documents = documents)
    as Hfilter.
  { clear -Hhalf. induction Hhalf as [|d l Hd _ IH]; [done|].
    rewrite filter_cons_True, IH; [done|]. by rewrite Hd. }
  assert (select_documents documents = take max_docs documents) as Hsel.
  { by rewrite select_documents_eq, (sorted_by_score_sorted_id _ Hsorted), Hfilter. }
  split; [done|]. rewrite <- Hsel. split.
  - intros Hall. unfold r.
    rewrite (get_enhanced_context_selected documents query chat_id w Hne Hall).
    simpl. split; [done|].
    apply mean_score_half.
    + rewrite Hsel. by destruct documents.
    + apply select_documents_length.
    + rewrite Hsel. by apply Forall_take.
  - intros Hno. by apply get_enhanced_context_fault.
Qed.

Lemma unscored_documents_keep_retrieval_order_witness :
  let documents := [doc "a" None; doc "b" None; doc "c" None; doc "d" None;
                    doc "e" None; doc "f" None] in
  page_content <$> select_documents documents =
    [Some "a"; Some "b"; Some "c"; Some "d"; Some "e"].
Proof.
  intros documents.
  destruct (unscored_documents_keep_retrieval_order documents "q" None
              (init_world test_uuid4)) as (H & _).
  - discriminate.
  - repeat constructor.
  - rewrite H. reflexivity.
Defined.

(** ** The chat service *)

Lemma dict_get_set_eq k v d :
  ChatService.dict_get k (ChatService.dict_set k v d) = Some v.
Proof.
  induction d as [|[k' v'] d IH]; simpl.
  - by rewrite decide_True.
  - destruct (decide (k' = k)) as [->|Hk]; simpl.
    + by rewrite decide_True.
    + by rewrite decide_False.
Qed.

Lemma dict_get_set_ne k k' v d :
  k' ≠ k →
  ChatService.dict_get k' (ChatService.dict_set k v d) = ChatService.dict_get k' d.
Proof.
  intros Hne. induction d as [|[k0 v0] d IH]; simpl.
  - by rewrite decide_False.
  - destruct (decide (k0 = k)) as [->|Hk]; simpl.
    + by rewrite !decide_False.
    + by rewrite IH.
Qed.

Lemma dict_get_None k d : ChatService.dict_get k d = None ↔ k ∉ d.*1.
Proof.
  induction d as [|[k' v'] d IH]; simpl.
  - split; [intros _; apply not_elem_of_nil|done].
  - rewrite not_elem_of_cons. destruct (decide (k' = k)) as [->|Hk].
    + split; [done|]. by intros [? _].
    + rewrite IH. split; [by intros ?; split|by intros [_ ?]].
Qed.

Lemma dict_get_Some_elem k v d :
  ChatService.dict_get k d = Some v → (k, v) ∈ d.
Proof.
  induction d as [|[k' v'] d IH]; simpl; [done|].
  destruct (decide (k' = k)) as [->|Hk].
  - intros [= ->]. apply list_elem_of_here.
  - intros H. apply list_elem_of_further. by apply IH.
Qed.

Lemma dict_set_keys_present k v d :
  is_Some (ChatService.dict_get k d) → (ChatService.dict_set k v d).*1 = d.*1.
Proof.
  induction d as [|[k' v'] d IH]; cbn [ChatService.dict_get ChatService.dict_set].
  - by intros [? ?].
  - destruct (decide (k' = k)) as [->|Hk]; [done|].
    intros H. rewrite !fmap_cons. by rewrite IH.
Qed.

Lemma dict_set_absent k v d :
  ChatService.dict_get k d = None → ChatService.dict_set k v d = d ++ [(k, v)].
Proof.
  induction d as [|[k' v'] d IH]; simpl; [done|].
  destruct (decide (k' = k)) as [->|Hk]; [done|].
  intros H. by rewrite IH.
Qed.

Lemma chats_of_eq s :
  chats_of s =
    match ChatService.file s with ChatService.Stored cd => cd | _ => [] end.
Proof. unfold chats_of. sunfold. by destruct (ChatService.file s). Qed.

Lemma chats_of_stored s cd : ChatService.file s = ChatService.Stored cd → chats_of s = cd.
Proof. unfold chats_of. sunfold. by intros ->. Qed.

Lemma chats_of_file s c chat :
  ChatService.dict_get c (chats_of s) = Some chat →
  ChatService.file s = ChatService.Stored (chats_of s).
Proof. unfold chats_of. sunfold. by destruct (ChatService.file s). Qed.

Lemma get_chat_by_id_value c s :
  (ChatService.get_chat_by_id c s).1 = ChatService.dict_get c (chats_of s).
Proof.
  unfold ChatService.get_chat_by_id, chats_of. sunfold.
  by destruct (ChatService.file s).
Qed.

Lemma get_chat_messages_value c s :
  (ChatService.get_chat_messages c s).1 =
    match ChatService.dict_get c (chats_of s) with
    | Some chat => default [] (ChatService.messages chat)
    | None => []
    end.
Proof.
  unfold ChatService.get_chat_messages, chats_of. sunfold.
  destruct (ChatService.file s); simpl; try done.
  by destruct (ChatService.dict_get c chat_data).
Qed.

(** One call of [save_message_to_chat] on a chat that has messages. *)
Lemma save_message_to_chat_run c role content s chat msgs :
  ChatService.dict_get c (chats_of s) = Some chat →
  ChatService.messages chat = Some msgs →
  let r := ChatService.save_message_to_chat c role content s in
  let msgs' := msgs ++ [saved_message s (length msgs) (ChatService.now_calls s)
                                      (role, content)] in
  let chat' :=
    {| ChatService.created_at := ChatService.created_at chat;
       ChatService.updated_at :=
         Some (ChatService.now s (S (ChatService.now_calls s)));
       ChatService.title := ChatService.title chat;
       ChatService.messages := Some msgs';
       ChatService.fresh_context := ChatService.fresh_context chat;
       ChatService.message_count := Some (Z.of_nat (length msgs')) |} in
  r.1 = true ∧
  ChatService.now r.2 = ChatService.now s ∧
  ChatService.now_calls r.2 = S (S (ChatService.now_calls s)) ∧
  ChatService.writable r.2 = ChatService.writable s ∧
  ChatService.file r.2 =
    if ChatService.writable s
    then ChatService.Stored (ChatService.dict_set c chat' (chats_of s))
    else ChatService.file s.
Proof.
  intros Hc Hm. pose proof (chats_of_file _ _ _ Hc) as Hf.
  revert Hc Hf. unfold chats_of, ChatService.save_message_to_chat. sunfold.
  destruct (ChatService.file s) as [| |cd] eqn:E; simpl; try done.
  intros Hc _. rewrite Hc, Hm. simpl.
  destruct (ChatService.writable s); simpl; done.
Qed.

Lemma save_messages_transcript chat_id l : ∀ s chat msgs,
  ChatService.writable s = true →
  ChatService.dict_get chat_id (chats_of s) = Some chat →
  ChatService.messages chat = Some msgs →
  let r := save_messages chat_id l s in
  ChatService.now r.2 = ChatService.now s ∧
  ChatService.writable r.2 = true ∧
  (chats_of r.2).*1 = (chats_of s).*1 ∧
  (∀ c', c' ≠ chat_id →
     ChatService.dict_get c' (chats_of r.2) = ChatService.dict_get c' (chats_of s)) ∧
  ∃ chat',
    ChatService.dict_get chat_id (chats_of r.2) = Some chat' ∧
    ChatService.messages chat' =
      Some (msgs ++ imap (λ i m, saved_message s (length msgs + i)
                                   (ChatService.now_calls s + 2 * i) m) l) ∧
    ChatService.title chat' = ChatService.title chat ∧
    ChatService.created_at chat' = ChatService.created_at chat ∧
    (l ≠ [] →
     ChatService.message_count chat' = Some (Z.of_nat (length msgs + length l))).
Proof.
  induction l as [|[role content] l IH]; intros s chat msgs Hw Hc Hm.
  - simpl. repeat split; try done.
    exists chat. rewrite app_nil_r. done.
  - simpl save_messages. unfold mbind, ChatService.S_bind.
    destruct (save_message_to_chat_run chat_id role content s chat msgs Hc Hm)
      as (_ & Hnow & Hcalls & Hwr & Hfile).
    destruct (ChatService.save_message_to_chat chat_id role content s)
      as [saved s1].
    cbn [fst snd] in *. rewrite Hw in Hfile, Hwr.
    pose proof (chats_of_stored _ _ Hfile) as Hcd.
    match type of Hcd with _ = ChatService.dict_set _ ?c _ => set (chat1 := c) in * end.
    assert (ChatService.dict_get chat_id (chats_of s1) = Some chat1) as Hc1.
    { by rewrite Hcd, dict_get_set_eq. }
    destruct (IH s1 chat1 _ Hwr Hc1 eq_refl)
      as (Hnow' & Hwr' & Hkeys & Hother & chat' & Hget & Hmsgs & Ht & Hcr & Hcount).
    split; [by rewrite Hnow'|]. split; [done|].
    split.
    { rewrite Hkeys, Hcd. apply dict_set_keys_present. by rewrite Hc. }
    split.
    { intros c' Hc'. rewrite (Hother c' Hc'), Hcd. by apply dict_get_set_ne. }
    exists chat'. split; [done|]. split; [|split; [done|split; [done|]]].
    + rewrite Hmsgs, <- app_assoc. f_equal. f_equal. simpl. f_equal.
      * by rewrite !Nat.add_0_r.
      * apply imap_ext. intros i m _. unfold saved_message, compose.
        rewrite Hnow, Hcalls, length_app. cbn [length].
        replace (length msgs + 1 + i)%nat with (length msgs + S i)%nat by lia.
        replace (S (S (ChatService.now_calls s)) + (i + (i + 0)))%nat
          with (ChatService.now_calls s + (S i + (S i + 0)))%nat by lia.
        done.
    + intros _. destruct l as [|m l].
      * simpl in Hget. rewrite Hc1 in Hget. injection Hget as <-. simpl.
        rewrite length_app. done.
      * rewrite Hcount by done. rewrite length_app. simpl. do 2 f_equal. lia.
Qed.

Lemma chats_of_same_file s1 s2 :
  ChatService.file s1 = ChatService.file s2 → chats_of s1 = chats_of s2.
Proof. intros H. by rewrite !chats_of_eq, H. Qed.

Lemma get_chat_summary_value c s :
  (ChatService.get_chat_summary c s).1 =
    match ChatService.dict_get c (chats_of s) with
    | Some chat =>
        let chat_messages := default [] (ChatService.messages chat) in
        Some {| ChatService.summary_id := c;
                ChatService.summary_title :=
                  default "Untitled Chat" (ChatService.title chat);
                ChatService.summary_created_at := ChatService.created_at chat;
                ChatService.summary_updated_at := ChatService.updated_at chat;
                ChatService.summary_count :=
                  default (Z.of_nat (length chat_messages))
                          (ChatService.message_count chat);
                ChatService.has_messages := (0 <? length chat_messages)%nat |}
    | None => None
    end.
Proof.
  unfold ChatService.get_chat_summary, chats_of. sunfold.
  destruct (ChatService.file s); simpl; try done.
  by destruct (ChatService.dict_get c chat_data).
Qed.

(** X21. Saving messages to a stored chat and reading them back: the
    transcript is the old one followed by the new messages in the order
    of the calls, numbered on from the old length, each with its role,
    content and the clock reading of its call; the summary counts them
    all; no other chat and not the order of the chats is changed. *)
Theorem saved_messages_round_trip (chat_id : string)
    (l : list (string * string)) (s : ChatService.ServiceWorld)
    (chat : ChatService.Chat) (msgs : list ChatService.StoredMessage) :
  ChatService.writable s = true →
  (ChatService.get_chat_by_id chat_id s).1 = Some chat →
  ChatService.messages chat = Some msgs →
  let r := save_messages chat_id l s in
  (ChatService.get_chat_messages chat_id r.2).1 =
    msgs ++ imap (λ i m, saved_message s (length msgs + i)
                           (ChatService.now_calls s + 2 * i) m) l ∧
  (l ≠ [] →
   ∃ summary,
     (ChatService.get_chat_summary chat_id r.2).1 = Some summary ∧
     ChatService.summary_count summary = Z.of_nat (length msgs + length l) ∧
     ChatService.has_messages summary = true ∧
     ChatService.summary_title summary =
       default "Untitled Chat" (ChatService.title chat)) ∧
  (∀ c', c' ≠ chat_id →
     (ChatService.get_chat_by_id c' r.2).1 = (ChatService.get_chat_by_id c' s).1) ∧
  (chats_of r.2).*1 = (chats_of s).*1.
Proof.
  intros Hw Hc Hm r. rewrite get_chat_by_id_value in Hc.
  destruct (save_messages_transcript chat_id l s chat msgs Hw Hc Hm)
    as (_ & _ & Hkeys & Hother & chat' & Hget & Hmsgs & Ht & _ & Hcount).
  fold r in Hkeys, Hother, Hget.
  split; [by rewrite get_chat_messages_value, Hget, Hmsgs|].
  split.
  { intros Hl. rewrite get_chat_summary_value, Hget. eexists. split; [done|].
    simpl. rewrite (Hcount Hl), Hmsgs, Ht. simpl. split; [done|]. split; [|done].
    apply Nat.ltb_lt. rewrite length_app, length_imap.
    destruct l; [done|simpl; lia]. }
  split; [|done].
  intros c' Hc'. rewrite !get_chat_by_id_value. by apply Hother.
Qed.

Lemma saved_messages_round_trip_witness :
  (ChatService.get_chat_messages "c"
     (save_messages "c" [("user", "hi"); ("Virtual Assistant", "hello")]
        one_chat_disk).2).1 =
  [ChatService.MessageObject (Some 1) (Some "user") (Some "hi") (Some "t2");
   ChatService.MessageObject (Some 2) (Some "Virtual Assistant") (Some "hello")
                             (Some "t4")].
Proof.
  destruct (saved_messages_round_trip "c"
              [("user", "hi"); ("Virtual Assistant", "hello")] one_chat_disk
              {| ChatService.created_at := Some "t0";
                 ChatService.updated_at := Some "t1";
                 ChatService.title := Some "New Chat";
                 ChatService.messages := Some [];
                 ChatService.fresh_context := Some true;
                 ChatService.message_count := Some 0 |} [])
    as (H & _); [reflexivity..|].
  exact H.
Defined.

Lemma update_chat_title_run c first_message s chat :
  ChatService.dict_get c (chats_of s) = Some chat →
  let r := ChatService.update_chat_title c first_message s in
  let chat' :=
    {| ChatService.created_at := ChatService.created_at chat;
       ChatService.updated_at := Some (ChatService.now s (ChatService.now_calls s));
       ChatService.title := Some (ChatService.title_of first_message);
       ChatService.messages := ChatService.messages chat;
       ChatService.fresh_context := ChatService.fresh_context chat;
       ChatService.message_count := ChatService.message_count chat |} in
  r.1 = true ∧
  ChatService.file r.2 =
    if ChatService.writable s
    then ChatService.Stored (ChatService.dict_set c chat' (chats_of s))
    else ChatService.file s.
Proof.
  intros Hc. pose proof (chats_of_file _ _ _ Hc) as Hf.
  revert Hc Hf. unfold chats_of, ChatService.update_chat_title. sunfold.
  destruct (ChatService.file s) as [| |cd] eqn:E; simpl; try done.
  intros Hc _. rewrite Hc. simpl.
  destruct (ChatService.writable s); simpl; done.
Qed.

Lemma update_chat_title_absent c first_message s :
  ChatService.dict_get c (chats_of s) = None →
  let r := ChatService.update_chat_title c first_message s in
  r.1 = false ∧ ChatService.file r.2 = ChatService.file s.
Proof.
  unfold chats_of, ChatService.update_chat_title. sunfold.
  destruct (ChatService.file s) as [| |cd] eqn:E; simpl; try done.
  by intros ->.
Qed.

Lemma delete_chat_run c s chat :
  ChatService.dict_get c (chats_of s) = Some chat →
  let r := ChatService.delete_chat c s in
  r.1 = true ∧
  ChatService.file r.2 =
    if ChatService.writable s
    then ChatService.Stored (ChatService.dict_del c (chats_of s))
    else ChatService.file s.
Proof.
  intros Hc. pose proof (chats_of_file _ _ _ Hc) as Hf.
  revert Hc Hf. unfold chats_of, ChatService.delete_chat. sunfold.
  destruct (ChatService.file s) as [| |cd] eqn:E; simpl; try done.
  intros Hc _. rewrite Hc. simpl.
  destruct (ChatService.writable s); simpl; done.
Qed.

Lemma delete_chat_absent c s :
  ChatService.dict_get c (chats_of s) = None →
  let r := ChatService.delete_chat c s in
  r.1 = false ∧ ChatService.file r.2 = ChatService.file s.
Proof.
  unfold chats_of, ChatService.delete_chat. sunfold.
  destruct (ChatService.file s) as [| |cd] eqn:E; simpl; try done.
  by intros ->.
Qed.

Lemma save_message_to_chat_absent c role content s :
  ChatService.dict_get c (chats_of s) = None →
  let r := ChatService.save_message_to_chat c role content s in
  r.1 = false ∧ ChatService.file r.2 = ChatService.file s.
Proof.
  unfold chats_of, ChatService.save_message_to_chat. sunfold.
  destruct (ChatService.file s) as [| |cd] eqn:E; simpl; try done.
  by intros ->.
Qed.

(** The loop that looks for an unused identifier touches nothing but the
    uuid source; it gives up only when the first identifier and every
    one of the [fuel] draws it made are in use. *)
Lemma ensure_unique_spec fuel cd : ∀ id s,
  let r := ChatService.ensure_unique fuel cd id s in
  ChatService.file r.2 = ChatService.file s ∧
  ChatService.writable r.2 = ChatService.writable s ∧
  ChatService.now r.2 = ChatService.now s ∧
  ChatService.now_calls r.2 = ChatService.now_calls s ∧
  ChatService.uuid4 r.2 = ChatService.uuid4 s ∧
  match r.1 with
  | Some id' =>
      ChatService.dict_get id' cd = None ∧
      (ChatService.dict_get id cd = None → id' = id)
  | None =>
      is_Some (ChatService.dict_get id cd) ∧
      ∀ n, (ChatService.uuid_calls s ≤ n < ChatService.uuid_calls s + fuel)%nat →
           is_Some (ChatService.dict_get (ChatService.uuid4 s n) cd)
  end.
Proof.
  induction fuel as [|fuel IH]; intros id s; simpl.
  - destruct (ChatService.dict_get id cd) eqn:E; simpl.
    + repeat split; try done. intros n Hn. lia.
    + done.
  - destruct (ChatService.dict_get id cd) eqn:E; simpl; [|done].
    sunfold. simpl.
    match goal with |- context [ChatService.ensure_unique fuel cd ?i ?w] =>
      specialize (IH i w); destruct (ChatService.ensure_unique fuel cd i w)
        as [[id'|] s'] end; simpl in *.
    + destruct IH as (-> & -> & -> & -> & -> & Hfresh & _).
      repeat split; try done.
    + destruct IH as (-> & -> & -> & -> & -> & Hfirst & Hused).
      repeat split; try done. intros n Hn.
      destruct (decide (n = ChatService.uuid_calls s)) as [->|Hne]; [done|].
      apply Hused. lia.
Qed.

Lemma sbind_run {A B} (c : ChatService.S A) (f : A → ChatService.S B) s :
  (c ≫= f) s = f (c s).1 (c s).2.
Proof. unfold mbind, ChatService.S_bind. by destruct (c s). Qed.

Lemma load_chat_history_frame s :
  let r := ChatService.load_chat_history s in
  ChatService.file r.2 = ChatService.file s ∧
  ChatService.writable r.2 = ChatService.writable s ∧
  ChatService.now r.2 = ChatService.now s ∧
  ChatService.now_calls r.2 = ChatService.now_calls s ∧
  ChatService.uuid4 r.2 = ChatService.uuid4 s ∧
  ChatService.uuid_calls r.2 = ChatService.uuid_calls s.
Proof. sunfold. by destruct (ChatService.file s) eqn:E; cbn; rewrite ?E. Qed.

Lemma create_new_chat_run fuel custom_id s :
  let r := ChatService.create_new_chat fuel custom_id s in
  match r.1 with
  | Some id =>
      ChatService.dict_get id (chats_of s) = None ∧
      (∀ c, custom_id = Some c → truthy c = true →
            ChatService.dict_get c (chats_of s) = None → id = c) ∧
      ChatService.file r.2 =
        if ChatService.writable s
        then ChatService.Stored
               (chats_of s ++
                [(id, {| ChatService.created_at :=
                           Some (ChatService.now s (ChatService.now_calls s));
                         ChatService.updated_at :=
                           Some (ChatService.now s (S (ChatService.now_calls s)));
                         ChatService.title := Some "New Chat";
                         ChatService.messages := Some [];
                         ChatService.fresh_context := Some true;
                         ChatService.message_count := Some 0 |})])
        else ChatService.file s
  | None =>
      chats_of s ≠ [] ∧
      ∃ k, (k = ChatService.uuid_calls s ∨ k = S (ChatService.uuid_calls s)) ∧
        ∀ n, (k ≤ n < k + fuel)%nat →
             is_Some (ChatService.dict_get (ChatService.uuid4 s n) (chats_of s))
  end.
Proof.
  cbv zeta. unfold ChatService.create_new_chat. rewrite sbind_run.
  fold (chats_of s).
  destruct (load_chat_history_frame s) as (Hf0 & Hw0 & Hn0 & Hc0 & Hu0 & Huc0).
  set (s0 := (ChatService.load_chat_history s).2) in *. clearbody s0.
  rewrite sbind_run.
  set (c0 := match custom_id with
             | Some c => if truthy c then mret c else ChatService.uuid_uuid4
             | None => ChatService.uuid_uuid4
             end).
  assert (ChatService.file (c0 s0).2 = ChatService.file s ∧
          ChatService.writable (c0 s0).2 = ChatService.writable s ∧
          ChatService.now (c0 s0).2 = ChatService.now s ∧
          ChatService.now_calls (c0 s0).2 = ChatService.now_calls s ∧
          ChatService.uuid4 (c0 s0).2 = ChatService.uuid4 s ∧
          (ChatService.uuid_calls (c0 s0).2 = ChatService.uuid_calls s ∨
           ChatService.uuid_calls (c0 s0).2 = S (ChatService.uuid_calls s)) ∧
          (∀ c, custom_id = Some c → truthy c = true → (c0 s0).1 = c))
    as (Hf1 & Hw1 & Hn1 & Hc1 & Hu1 & Huc1 & Hcustom).
  { unfold c0. destruct custom_id as [c|]; [destruct (truthy c) eqn:Ht|].
    all: cbn; repeat split; try done; try (by left); try (right; by f_equal).
    all: intros ? [= ->]; congruence. }
  set (id0 := (c0 s0).1) in *. set (s1 := (c0 s0).2) in *. clearbody id0 s1.
  rewrite sbind_run.
  pose proof (ensure_unique_spec fuel (chats_of s) id0 s1) as Hspec.
  cbv zeta in Hspec.
  destruct (ChatService.ensure_unique fuel (chats_of s) id0 s1) as [[id|] s2];
    cbn [fst snd] in Hspec |- *.
  - destruct Hspec as (Hf2 & Hw2 & Hn2 & Hc2 & Hu2 & Hfresh & Hsame).
    rewrite !sbind_run. sunfold. cbn. rewrite Hw2, Hw1.
    split; [done|]. split.
    { intros c Hc Ht Habs. rewrite <- (Hcustom c Hc Ht) in Habs.
      rewrite (Hsame Habs). by apply Hcustom. }
    destruct (ChatService.writable s) eqn:Hw; cbn.
    + by rewrite (dict_set_absent _ _ _ Hfresh), Hn2, Hn1, Hc2, Hc1.
    + by rewrite Hf2, Hf1.
  - destruct Hspec as (_ & _ & _ & _ & Hu2 & Hfirst & Hused). cbn.
    split.
    { intros Hnil. rewrite Hnil in Hfirst. by destruct Hfirst. }
    exists (ChatService.uuid_calls s1). split; [done|].
    intros n Hn. rewrite <- Hu1. by apply Hused.
Qed.

Lemma length_append a b :
  String.length (a +:+ b) = (String.length a + String.length b)%nat.
Proof. induction a as [|c a IH]; simpl; [done|]. by rewrite IH. Qed.

Lemma length_substring_0 n s :
  String.length (String.substring 0 n s) = (n `min` String.length s)%nat.
Proof.
  revert s. induction n as [|n IH]; intros s; destruct s as [|c s]; simpl; try done.
  by rewrite IH.
Qed.

(** X22. The title stored for a first message is the trimmed message
    when that has at most 30 characters, and otherwise its first 27
    characters followed by three dots, 30 characters in all.  Updating
    the title of a stored chat stores this title and leaves the messages
    and every other chat as they were; for an unknown chat nothing is
    written and the result is [False]. *)
Theorem update_chat_title_stored (chat_id first_message : string)
    (s : ChatService.ServiceWorld) :
  ChatService.writable s = true →
  let r := ChatService.update_chat_title chat_id first_message s in
  let title := ChatService.title_of first_message in
  (String.length title ≤ 30)%nat ∧
  ((String.length (strip first_message) ≤ 30)%nat → title = strip first_message) ∧
  ((30 < String.length (strip first_message))%nat →
     title = String.substring 0 27 (strip first_message) +:+ "..." ∧
     String.length title = 30%nat) ∧
  match (ChatService.get_chat_by_id chat_id s).1 with
  | Some chat =>
      r.1 = true ∧
      ∃ chat',
        (ChatService.get_chat_by_id chat_id r.2).1 = Some chat' ∧
        ChatService.title chat' = Some title ∧
        ChatService.messages chat' = ChatService.messages chat ∧
        ChatService.message_count chat' = ChatService.message_count chat ∧
        ChatService.created_at chat' = ChatService.created_at chat
  | None => r.1 = false ∧ ChatService.file r.2 = ChatService.file s
  end ∧
  (∀ c', c' ≠ chat_id →
     (ChatService.get_chat_by_id c' r.2).1 = (ChatService.get_chat_by_id c' s).1).
Proof.
  intros Hw r title.
  assert (String.length title =
          if (30 <? String.length (strip first_message))%nat then 30%nat
          else String.length (strip first_message)) as Hlen.
  { unfold title, ChatService.title_of.
    destruct (30 <? String.length (strip first_message))%nat eqn:E; [|done].
    apply Nat.ltb_lt in E. rewrite length_append, length_substring_0.
    change (String.length "...") with 3%nat. lia. }
  split.
  { rewrite Hlen. destruct (30 <? _)%nat eqn:E; [done|].
    apply Nat.ltb_ge in E. lia. }
  split.
  { intros H. unfold title, ChatService.title_of.
    apply Nat.ltb_ge in H. by rewrite H. }
  split.
  { intros H. apply Nat.ltb_lt in H. rewrite Hlen.
    unfold title, ChatService.title_of. by rewrite H. }
  rewrite get_chat_by_id_value.
  destruct (ChatService.dict_get chat_id (chats_of s)) as [chat|] eqn:Hc.
  - destruct (update_chat_title_run chat_id first_message s chat Hc) as [H1 H2].
    fold r in H1, H2. rewrite Hw in H2. apply chats_of_stored in H2.
    split.
    + split; [done|]. eexists. rewrite get_chat_by_id_value, H2, dict_get_set_eq.
      split; [done|]. done.
    + intros c' Hc'. rewrite !get_chat_by_id_value, H2.
      by apply dict_get_set_ne.
  - destruct (update_chat_title_absent chat_id first_message s Hc) as [H1 H2].
    fold r in H1, H2. split; [done|].
    intros c' Hc'. rewrite !get_chat_by_id_value.
    by rewrite (chats_of_same_file _ _ H2).
Qed.

Lemma update_chat_title_stored_witness :
  let r := ChatService.update_chat_title "c"
             "  How do I apply for a new ration card in my district?  "
             one_chat_disk in
  option_map ChatService.title (ChatService.get_chat_by_id "c" r.2).1 =
    Some (Some "How do I apply for a new ra...").
Proof.
  intros r.
  destruct (update_chat_title_stored "c"
              "  How do I apply for a new ration card in my district?  "
              one_chat_disk) as (_ & _ & _ & H & _); [reflexivity|].
  change (ChatService.get_chat_by_id "c" one_chat_disk).1
    with (Some {| ChatService.created_at := Some "t0";
                  ChatService.updated_at := Some "t1";
                  ChatService.title := Some "New Chat";
                  ChatService.messages := Some [];
                  ChatService.fresh_context := Some true;
                  ChatService.message_count := Some 0 |}) in H.
  destruct H as (_ & chat' & Hget & Ht & _).
  fold r in Hget. rewrite Hget. simpl. rewrite Ht. reflexivity.
Defined.

(** X23. When the history file cannot be written, the mutating methods
    still report success for a stored chat, although nothing is stored:
    [save_message_to_chat], [update_chat_title] and [delete_chat] return
    [True] and leave the file as it was, and the identifier
    [create_new_chat] returns names no stored chat. *)
Theorem unwritable_store_reports_success (s : ChatService.ServiceWorld) :
  ChatService.writable s = false →
  (∀ c role content chat,
     (ChatService.get_chat_by_id c s).1 = Some chat →
     is_Some (ChatService.messages chat) →
     let r := ChatService.save_message_to_chat c role content s in
     r.1 = true ∧ ChatService.file r.2 = ChatService.file s ∧
     (ChatService.get_chat_messages c r.2).1 = (ChatService.get_chat_messages c s).1) ∧
  (∀ c first_message,
     is_Some (ChatService.get_chat_by_id c s).1 →
     let r := ChatService.update_chat_title c first_message s in
     r.1 = true ∧ ChatService.file r.2 = ChatService.file s) ∧
  (∀ c,
     is_Some (ChatService.get_chat_by_id c s).1 →
     let r := ChatService.delete_chat c s in
     r.1 = true ∧ ChatService.file r.2 = ChatService.file s ∧
     is_Some (ChatService.get_chat_by_id c r.2).1) ∧
  (∀ fuel custom_id new_chat_id,
     let r := ChatService.create_new_chat fuel custom_id s in
     r.1 = Some new_chat_id →
     ChatService.file r.2 = ChatService.file s ∧
     (ChatService.get_chat_by_id new_chat_id r.2).1 = None).
Proof.
  intros Hw. split; [|split; [|split]].
  - intros c role content chat Hc [msgs Hm] r.
    rewrite get_chat_by_id_value in Hc.
    destruct (save_message_to_chat_run c role content s chat msgs Hc Hm)
      as (H1 & _ & _ & _ & Hf).
    fold r in H1, Hf. rewrite Hw in Hf. split; [done|]. split; [done|].
    rewrite !get_chat_messages_value. by rewrite (chats_of_same_file _ _ Hf).
  - intros c first_message [chat Hc] r. rewrite get_chat_by_id_value in Hc.
    destruct (update_chat_title_run c first_message s chat Hc) as [H1 Hf].
    fold r in H1, Hf. by rewrite Hw in Hf.
  - intros c [chat Hc] r. rewrite get_chat_by_id_value in Hc.
    destruct (delete_chat_run c s chat Hc) as [H1 Hf].
    fold r in H1, Hf. rewrite Hw in Hf. split; [done|]. split; [done|].
    rewrite get_chat_by_id_value, (chats_of_same_file _ _ Hf). by rewrite Hc.
  - intros fuel custom_id new_chat_id r Hr.
    pose proof (create_new_chat_run fuel custom_id s) as Hrun.
    fold r in Hrun. cbv zeta in Hrun. rewrite Hr, Hw in Hrun.
    destruct Hrun as (Hfresh & _ & Hf). split; [done|].
    by rewrite get_chat_by_id_value, (chats_of_same_file _ _ Hf).
Qed.

Lemma unwritable_store_reports_success_witness :
  let r := ChatService.save_message_to_chat "c" "user" "hi"
             (read_only one_chat_disk) in
  r.1 = true ∧ (ChatService.get_chat_messages "c" r.2).1 = [].
Proof.
  intros r.
  destruct (unwritable_store_reports_success (read_only one_chat_disk))
    as (H & _); [reflexivity|].
  destruct (H "c" "user" "hi"
              {| ChatService.created_at := Some "t0";
                 ChatService.updated_at := Some "t1";
                 ChatService.title := Some "New Chat";
                 ChatService.messages := Some [];
                 ChatService.fresh_context := Some true;
                 ChatService.message_count := Some 0 |})
    as (H1 & _ & H3); [reflexivity|by eexists|].
  split; [exact H1|]. fold r in H3. rewrite H3. reflexivity.
Defined.

Lemma dict_get_app k d1 d2 :
  ChatService.dict_get k (d1 ++ d2) =
    match ChatService.dict_get k d1 with
    | Some v => Some v
    | None => ChatService.dict_get k d2
    end.
Proof.
  induction d1 as [|[k' v'] d1 IH]; simpl; [done|].
  by destruct (decide (k' = k)).
Qed.

Lemma dict_get_is_Some_elem k d :
  is_Some (ChatService.dict_get k d) → k ∈ d.*1.
Proof.
  intros [v Hv]. destruct (decide (k ∈ d.*1)) as [|Hn]; [done|].
  apply dict_get_None in Hn. congruence.
Qed.

(** X24. [create_new_chat] ends when the uuid source does not repeat
    itself: with the next draws pairwise distinct, more draws allowed
    than there are chats always give an identifier.  The identifier is
    not in use before the call (a requested one is taken when it is
    free), the chat is stored last, with no messages and the title
    "New Chat", and the chats stored before it are unchanged. *)
Theorem create_new_chat_fresh (fuel : nat) (custom_id : option string)
    (s : ChatService.ServiceWorld) :
  ChatService.writable s = true →
  (length (chats_of s) < fuel)%nat →
  NoDup (ChatService.uuid4 s <$> seq (ChatService.uuid_calls s) (S fuel)) →
  let r := ChatService.create_new_chat fuel custom_id s in
  ∃ new_chat_id,
    r.1 = Some new_chat_id ∧
    (ChatService.get_chat_by_id new_chat_id s).1 = None ∧
    (∀ c, custom_id = Some c → truthy c = true →
          (ChatService.get_chat_by_id c s).1 = None → new_chat_id = c) ∧
    chats_of r.2 =
      chats_of s ++
      [(new_chat_id,
        {| ChatService.created_at :=
             Some (ChatService.now s (ChatService.now_calls s));
           ChatService.updated_at :=
             Some (ChatService.now s (S (ChatService.now_calls s)));
           ChatService.title := Some "New Chat";
           ChatService.messages := Some [];
           ChatService.fresh_context := Some true;
           ChatService.message_count := Some 0 |})] ∧
    (ChatService.get_chat_messages new_chat_id r.2).1 = [].
Proof.
  intros Hw Hfuel Hdistinct r.
  pose proof (create_new_chat_run fuel custom_id s) as Hrun.
  fold r in Hrun. cbv zeta in Hrun.
  destruct r.1 as [id|].
  - destruct Hrun as (Hfresh & Hcustom & Hf). rewrite Hw in Hf.
    apply chats_of_stored in Hf.
    exists id. split; [done|]. split; [by rewrite get_chat_by_id_value|].
    split.
    { intros c Hc Ht Habs. rewrite get_chat_by_id_value in Habs. by eapply Hcustom. }
    split; [done|].
    rewrite get_chat_messages_value, Hf, dict_get_app, Hfresh. simpl.
    by rewrite decide_True.
  - exfalso. destruct Hrun as (_ & k & Hk & Hused).
    set (draws := ChatService.uuid4 s <$> seq k fuel).
    assert (NoDup draws) as Hnd.
    { unfold draws. destruct Hk as [-> | ->].
      - rewrite seq_S, fmap_app in Hdistinct. by apply NoDup_app in Hdistinct as [? _].
      - rewrite <- cons_seq, fmap_cons in Hdistinct.
        by apply NoDup_cons in Hdistinct as [_ ?]. }
    assert (draws ⊆+ (chats_of s).*1) as Hsub.
    { apply NoDup_submseteq; [done|]. intros x Hx. unfold draws in Hx.
      apply list_elem_of_fmap in Hx as (n & -> & Hn).
      apply elem_of_seq in Hn. apply dict_get_is_Some_elem. apply Hused. lia. }
    apply submseteq_length in Hsub. unfold draws in Hsub.
    rewrite !length_fmap, length_seq in Hsub. lia.
Qed.

Lemma create_new_chat_fresh_witness :
  (ChatService.create_new_chat 2 (Some "c") one_chat_disk).1 = Some "uuid-0".
Proof.
  destruct (create_new_chat_fresh 2 (Some "c") one_chat_disk)
    as (id & Hid & _ & _ & Hchats & _).
  - reflexivity.
  - vm_compute. lia.
  - apply (bool_decide_unpack _). vm_compute. exact I.
  - rewrite Hid. f_equal.
    assert ((chats_of (ChatService.create_new_chat 2 (Some "c") one_chat_disk).2).*1
            = ["c"; id]) as H.
    { by rewrite Hchats. }
    vm_compute in H. by injection H as <-.
Defined.

Lemma dict_get_del_ne k k' d :
  k' ≠ k →
  ChatService.dict_get k' (ChatService.dict_del k d) = ChatService.dict_get k' d.
Proof.
  intros Hne. induction d as [|[k0 v0] d IH]; simpl; [done|].
  destruct (decide (k0 = k)) as [->|Hk]; simpl.
  - by rewrite decide_False.
  - by rewrite IH.
Qed.

Lemma filter_all {A} (P : A → Prop) `{∀ x, Decision (P x)} (l : list A) :
  Forall P l → filter P l = l.
Proof.
  induction 1 as [|x l Hx _ IH]; [done|]. by rewrite filter_cons_True, IH.
Qed.

Lemma filter_ext_elem {A} (P Q : A → Prop) `{∀ x, Decision (P x)}
    `{∀ x, Decision (Q x)} (l : list A) :
  (∀ x, x ∈ l → P x ↔ Q x) → filter P l = filter Q l.
Proof.
  induction l as [|x l IH]; intros Hext; [done|].
  rewrite !filter_cons.
  rewrite IH by (intros y Hy; apply Hext; by apply list_elem_of_further).
  pose proof (Hext x (list_elem_of_here _ _)) as Hx.
  destruct (decide (P x)), (decide (Q x)); tauto || done.
Qed.

Lemma dict_del_filter k d :
  NoDup d.*1 →
  ChatService.dict_del k d = filter (λ kv, kv.1 ≠ k) d.
Proof.
  induction d as [|[k0 v0] d IH]; intros Hnd; [done|].
  rewrite fmap_cons in Hnd. apply NoDup_cons in Hnd as [Hk0 Hnd].
  cbn [ChatService.dict_del]. rewrite filter_cons. cbn [fst].
  destruct (decide (k0 = k)) as [->|Hk].
  - rewrite decide_False by (by intros ?).
    symmetry. apply filter_all. apply Forall_forall. intros [k1 v1] Hin.
    simpl. intros ->. apply Hk0. apply list_elem_of_fmap. by exists (k, v1).
  - rewrite decide_True by done. by rewrite IH.
Qed.

Lemma filter_keys_NoDup (P : string * ChatService.Chat → Prop)
    `{∀ x, Decision (P x)} (d : list (string * ChatService.Chat)) :
  NoDup d.*1 → NoDup (filter P d).*1.
Proof.
  intros Hnd. apply (sublist_NoDup _ d.*1); [done|].
  apply fmap_sublist. apply sublist_filter.
Qed.

(** X25. Deleting from a store with distinct identifiers: the result
    tells whether the chat was stored, afterwards the chat is not found,
    every other chat is found as before and the remaining chats keep
    their order. *)
Theorem delete_chat_round_trip (chat_id : string) (s : ChatService.ServiceWorld) :
  ChatService.writable s = true →
  NoDup (chats_of s).*1 →
  let r := ChatService.delete_chat chat_id s in
  r.1 = bool_decide (is_Some (ChatService.get_chat_by_id chat_id s).1) ∧
  (ChatService.get_chat_by_id chat_id r.2).1 = None ∧
  (∀ c', c' ≠ chat_id →
     (ChatService.get_chat_by_id c' r.2).1 = (ChatService.get_chat_by_id c' s).1) ∧
  chats_of r.2 = filter (λ kv, kv.1 ≠ chat_id) (chats_of s) ∧
  NoDup (chats_of r.2).*1.
Proof.
  intros Hw Hnd r. rewrite get_chat_by_id_value.
  destruct (ChatService.dict_get chat_id (chats_of s)) as [chat|] eqn:Hc.
  - destruct (delete_chat_run chat_id s chat Hc) as [H1 Hf].
    fold r in H1, Hf. rewrite Hw in Hf. apply chats_of_stored in Hf.
    rewrite (dict_del_filter _ _ Hnd) in Hf.
    split; [by rewrite H1, bool_decide_eq_true_2|].
    split.
    { rewrite get_chat_by_id_value, Hf. apply dict_get_None.
      intros Hin. apply list_elem_of_fmap in Hin as ([k v] & -> & Hin).
      by apply list_elem_of_filter in Hin as [Hne _]. }
    split.
    { intros c' Hc'. rewrite !get_chat_by_id_value, Hf.
      rewrite <- (dict_del_filter _ _ Hnd). by apply dict_get_del_ne. }
    split; [done|]. rewrite Hf. by apply filter_keys_NoDup.
  - destruct (delete_chat_absent chat_id s Hc) as [H1 Hf].
    fold r in H1, Hf. pose proof (chats_of_same_file _ _ Hf) as Hsame.
    split; [rewrite H1; symmetry; apply bool_decide_eq_false_2; by intros [? ?]|].
    split; [by rewrite get_chat_by_id_value, Hsame|].
    split; [intros c' _; by rewrite !get_chat_by_id_value, Hsame|].
    rewrite Hsame. split; [|done].
    symmetry. apply filter_all. apply Forall_forall. intros [k v] Hin.
    simpl. intros ->. apply dict_get_None in Hc. apply Hc.
    apply list_elem_of_fmap. by exists (chat_id, v).
Qed.

Lemma delete_chat_round_trip_witness :
  let r := ChatService.delete_chat "c" one_chat_disk in
  r.1 = true ∧ (ChatService.get_chat_by_id "c" r.2).1 = None.
Proof.
  intros r.
  destruct (delete_chat_round_trip "c" one_chat_disk) as (H1 & H2 & _).
  - reflexivity.
  - apply (bool_decide_unpack _). vm_compute. exact I.
  - split; [|exact H2]. fold r in H1. rewrite H1. reflexivity.
Defined.

Lemma NoDup_keys_unique (d : list (string * ChatService.Chat)) k v1 v2 :
  NoDup d.*1 → (k, v1) ∈ d → (k, v2) ∈ d → v1 = v2.
Proof.
  induction d as [|[k0 v0] d IH]; intros Hnd H1 H2; [by inv H1|].
  rewrite fmap_cons in Hnd. apply NoDup_cons in Hnd as [Hk0 Hnd].
  assert (∀ v, (k0, v) ∈ d → False) as Hno.
  { intros v Hv. apply Hk0. apply list_elem_of_fmap. by exists (k0, v). }
  apply elem_of_cons in H1 as [H1|H1]; apply elem_of_cons in H2 as [H2|H2].
  - congruence.
  - injection H1 as -> ->. by destruct (Hno v2).
  - injection H2 as -> ->. by destruct (Hno v1).
  - by apply IH.
Qed.

Lemma foldl_dict_del keys : ∀ d,
  NoDup d.*1 →
  foldl (λ d chat_id, ChatService.dict_del chat_id d) d keys =
    filter (λ kv, kv.1 ∉ keys) d.
Proof.
  induction keys as [|k keys IH]; intros d Hnd; simpl.
  - symmetry. apply filter_all. apply Forall_forall. intros x _. apply not_elem_of_nil.
  - rewrite (dict_del_filter _ _ Hnd), IH by (by apply filter_keys_NoDup).
    rewrite list_filter_filter. apply filter_ext_elem. intros [k' v'] _. simpl.
    rewrite not_elem_of_cons. tauto.
Qed.

Lemma empty_chats_of_eq d :
  ChatService.empty_chats_of d =
    (filter (λ kv, ChatService.is_empty_chat kv.2 = true) d).*1.
Proof.
  done.
Qed.

Lemma messages_without_empty_chats c (d : list (string * ChatService.Chat)) :
  NoDup d.*1 →
  match ChatService.dict_get c
          (filter (λ kv, ¬ (ChatService.is_empty_chat kv.2 = true)) d) with
  | Some chat => default [] (ChatService.messages chat)
  | None => []
  end =
  match ChatService.dict_get c d with
  | Some chat => default [] (ChatService.messages chat)
  | None => []
  end.
Proof.
  induction d as [|[k v] d IH]; intros Hnd; [done|].
  rewrite fmap_cons in Hnd. apply NoDup_cons in Hnd as [Hk Hnd].
  rewrite filter_cons. cbn [ChatService.dict_get snd].
  destruct (decide (¬ ChatService.is_empty_chat v = true)) as [Hne|He].
  - cbn [ChatService.dict_get]. destruct (decide (k = c)); [done|by apply IH].
  - destruct (decide (k = c)) as [->|Hkc]; [|by apply IH].
    apply dec_stable in He. unfold ChatService.is_empty_chat in He.
    apply Nat.eqb_eq in He. apply nil_length_inv in He. rewrite He.
    match goal with |- match ?x with _ => _ end = _ =>
      assert (x = None) as ->; [|done] end.
    apply dict_get_None. intros Hin. apply Hk.
    apply list_elem_of_fmap in Hin as (x & -> & Hin).
    apply list_elem_of_filter in Hin as [_ Hin].
    apply list_elem_of_fmap. by exists x.
Qed.

Lemma cleanup_empty_chats_run s :
  let r := ChatService.cleanup_empty_chats s in
  let empty_chats := ChatService.empty_chats_of (chats_of s) in
  r.1 = length empty_chats ∧
  ChatService.file r.2 =
    match empty_chats with
    | [] => ChatService.file s
    | _ =>
        if ChatService.writable s
        then ChatService.Stored
               (foldl (λ d chat_id, ChatService.dict_del chat_id d)
                      (chats_of s) empty_chats)
        else ChatService.file s
    end.
Proof.
  cbv zeta. rewrite chats_of_eq.
  unfold ChatService.cleanup_empty_chats. sunfold.
  destruct (ChatService.file s) as [| |cd] eqn:E; cbn; rewrite ?E; try done.
  destruct (ChatService.empty_chats_of cd) as [|k keys]; cbn -[foldl];
    rewrite ?E; [done|].
  destruct (ChatService.writable s); cbn -[foldl]; by rewrite ?E.
Qed.

(** X26. [cleanup_empty_chats] on a store with distinct identifiers
    returns the number of chats without messages; afterwards exactly the
    chats with messages are stored, in their old order, and a second
    call finds nothing to remove. *)
Theorem cleanup_empty_chats_spec (s : ChatService.ServiceWorld) :
  ChatService.writable s = true →
  NoDup (chats_of s).*1 →
  let r := ChatService.cleanup_empty_chats s in
  r.1 = length (filter (λ kv, ChatService.is_empty_chat kv.2 = true) (chats_of s)) ∧
  chats_of r.2 =
    filter (λ kv, ChatService.is_empty_chat kv.2 ≠ true) (chats_of s) ∧
  (length (chats_of r.2) + r.1 = length (chats_of s))%nat ∧
  (∀ c, (ChatService.get_chat_messages c r.2).1 =
        (ChatService.get_chat_messages c s).1) ∧
  (ChatService.cleanup_empty_chats r.2).1 = 0%nat.
Proof.
  intros Hw Hnd r.
  destruct (cleanup_empty_chats_run s) as [H1 Hf]. fold r in H1, Hf.
  rewrite empty_chats_of_eq in H1, Hf.
  set (P := λ kv : string * ChatService.Chat, ChatService.is_empty_chat kv.2 = true)
    in *.
  assert (chats_of r.2 = filter (λ kv, ¬ P kv) (chats_of s)) as Hchats.
  { destruct ((filter P (chats_of s)).*1) as [|k keys] eqn:E.
    - rewrite (chats_of_same_file _ _ Hf). symmetry. apply filter_all.
      apply Forall_forall. intros x Hx HP.
      apply fmap_nil_inv in E.
      assert (x ∈ filter P (chats_of s)) as Hin by (by apply list_elem_of_filter).
      rewrite E in Hin. by apply not_elem_of_nil in Hin.
    - rewrite Hw in Hf. apply chats_of_stored in Hf. rewrite Hf, <- E.
      rewrite (foldl_dict_del _ _ Hnd). apply filter_ext_elem.
      intros [k' v'] Hin. simpl. split.
      + intros Hnot HP. apply Hnot. apply list_elem_of_fmap. exists (k', v').
        split; [done|]. by apply list_elem_of_filter.
      + intros HnP Hk. apply list_elem_of_fmap in Hk as ([k1 v1] & Hk & Hin1).
        simpl in Hk. subst k1. apply list_elem_of_filter in Hin1 as [HP1 Hin1].
        apply HnP. by rewrite (NoDup_keys_unique _ _ _ _ Hnd Hin Hin1). }
  split; [by rewrite H1, length_fmap|]. split; [done|].
  split.
  { rewrite H1, Hchats, length_fmap.
    pose proof (Permutation_length (filter_app_complement P (chats_of s))) as Hl.
    rewrite <- Hl, length_app, Nat.add_comm. reflexivity. }
  split.
  { intros c. rewrite !get_chat_messages_value, Hchats.
    by apply messages_without_empty_chats. }
  destruct (cleanup_empty_chats_run r.2) as [H1' _].
  rewrite H1', empty_chats_of_eq, Hchats. fold P.
  rewrite list_filter_filter, length_fmap.
  apply length_zero_iff_nil.
  clear. induction (chats_of s) as [|x d IH]; [done|].
  rewrite filter_cons_False; [done|]. by intros [HP HnP].
Qed.

Lemma cleanup_empty_chats_spec_witness :
  let r := ChatService.cleanup_empty_chats two_chat_disk in
  r.1 = 1%nat ∧ (chats_of r.2).*1 = ["c"].
Proof.
  intros r.
  destruct (cleanup_empty_chats_spec two_chat_disk) as (H1 & H2 & _).
  - reflexivity.
  - apply (bool_decide_unpack _). vm_compute. exact I.
  - fold r in H1, H2. rewrite H1, H2. split; reflexivity.
Defined.

Lemma leb_refl s : String.leb s s = true.
Proof. by destruct (String.leb_total s s). Qed.

Lemma leb_false_flip a b : String.leb a b = false → String.leb b a = true.
Proof. intros H. destruct (String.leb_total a b) as [H'|H']; congruence. Qed.

Lemma insert_by_key_perm x l : ChatService.insert_by_key x l ≡ₚ x :: l.
Proof.
  induction l as [|y l IH]; simpl; [done|].
  destruct (String.leb _ _); [done|]. rewrite IH. apply perm_swap.
Qed.

Lemma sorted_by_key_perm l : ChatService.sorted_by_key l ≡ₚ l.
Proof.
  induction l as [|x l IH]; simpl; [done|].
  rewrite insert_by_key_perm. by rewrite IH.
Qed.

Lemma insert_by_key_sorted x l :
  Sorted key_ge l → Sorted key_ge (ChatService.insert_by_key x l).
Proof.
  induction 1 as [|y l Hl IH Hy]; simpl.
  - repeat constructor.
  - destruct (String.leb (ChatService.sort_key y.2) (ChatService.sort_key x.2))
      eqn:E.
    + constructor; [by constructor|]. by constructor.
    + constructor; [done|].
      destruct l as [|z l]; simpl.
      * constructor. by apply leb_false_flip.
      * destruct (String.leb (ChatService.sort_key z.2) (ChatService.sort_key x.2)).
        -- constructor. by apply leb_false_flip.
        -- constructor. by inv Hy.
Qed.

Lemma sorted_by_key_sorted l : Sorted key_ge (ChatService.sorted_by_key l).
Proof.
  induction l as [|x l IH]; simpl; [constructor|].
  by apply insert_by_key_sorted.
Qed.

Lemma insert_by_key_class (key : string) x (l : list (string * ChatService.Chat)) :
  filter (λ kv, ChatService.sort_key kv.2 = key) (ChatService.insert_by_key x l) =
  filter (λ kv, ChatService.sort_key kv.2 = key) (x :: l).
Proof.
  induction l as [|y l IH]; simpl; [done|].
  destruct (String.leb (ChatService.sort_key y.2) (ChatService.sort_key x.2))
    eqn:E; [done|].
  rewrite (filter_cons _ y), IH, !filter_cons.
  destruct (decide (ChatService.sort_key y.2 = key)) as [Hy|Hy];
    destruct (decide (ChatService.sort_key x.2 = key)) as [Hx|Hx]; try done.
  rewrite Hy, Hx, leb_refl in E. done.
Qed.

Lemma sorted_by_key_stable (key : string) (l : list (string * ChatService.Chat)) :
  filter (λ kv, ChatService.sort_key kv.2 = key) (ChatService.sorted_by_key l) =
  filter (λ kv, ChatService.sort_key kv.2 = key) l.
Proof.
  induction l as [|x l IH]; simpl; [done|].
  rewrite insert_by_key_class, !filter_cons, IH. done.
Qed.

Lemma get_all_chats_value s :
  let r := ChatService.get_all_chats s in
  r.1 = ChatService.sorted_by_key (chats_of s) ∧
  ChatService.file r.2 = ChatService.file s.
Proof.
  cbv zeta. unfold ChatService.get_all_chats. rewrite chats_of_eq. sunfold.
  by destruct (ChatService.file s) eqn:E; cbn; rewrite ?E.
Qed.

(** X27. [get_all_chats] writes nothing and returns the stored chats
    rearranged: every chat once, each followed by a chat whose
    [updated_at] (or, without one, [created_at], else the empty string)
    is not later, and chats with the same key in their stored order. *)
Theorem get_all_chats_sorted (s : ChatService.ServiceWorld) :
  let r := ChatService.get_all_chats s in
  ChatService.file r.2 = ChatService.file s ∧
  r.1 ≡ₚ chats_of s ∧
  Sorted key_ge r.1 ∧
  (∀ key : string,
     filter (λ kv, ChatService.sort_key kv.2 = key) r.1 =
     filter (λ kv, ChatService.sort_key kv.2 = key) (chats_of s)) ∧
  (∀ c, ChatService.dict_get c r.1 = None ↔
        (ChatService.get_chat_by_id c s).1 = None).
Proof.
  intros r.
  destruct (get_all_chats_value s) as [Hr Hf]. fold r in Hr, Hf.
  split; [done|]. rewrite Hr.
  split; [apply sorted_by_key_perm|].
  split; [apply sorted_by_key_sorted|].
  split; [intros key; apply sorted_by_key_stable|].
  intros c. rewrite get_chat_by_id_value, !dict_get_None.
  by rewrite sorted_by_key_perm.
Qed.

(** X28. A history file that is absent or cannot be read counts as an
    empty store: nothing is found, nothing is listed, and the methods
    that change a chat return [False] and leave the file alone.  The
    first chat created then replaces the file: after it the store holds
    that chat and nothing else. *)
Theorem unreadable_history_is_empty (s : ChatService.ServiceWorld) :
  ChatService.file s = ChatService.Missing ∨
  ChatService.file s = ChatService.Unreadable →
  (∀ c, (ChatService.get_chat_by_id c s).1 = None ∧
        (ChatService.get_chat_messages c s).1 = [] ∧
        (ChatService.get_chat_summary c s).1 = None) ∧
  (ChatService.get_all_chats s).1 = [] ∧
  (ChatService.cleanup_empty_chats s).1 = 0%nat ∧
  ChatService.file (ChatService.cleanup_empty_chats s).2 = ChatService.file s ∧
  (∀ c role content,
     let r := ChatService.save_message_to_chat c role content s in
     r.1 = false ∧ ChatService.file r.2 = ChatService.file s) ∧
  (∀ c first_message,
     let r := ChatService.update_chat_title c first_message s in
     r.1 = false ∧ ChatService.file r.2 = ChatService.file s) ∧
  (∀ c,
     let r := ChatService.delete_chat c s in
     r.1 = false ∧ ChatService.file r.2 = ChatService.file s) ∧
  (∀ fuel custom_id,
     ChatService.writable s = true →
     let r := ChatService.create_new_chat fuel custom_id s in
     ∃ new_chat_id,
       r.1 = Some new_chat_id ∧ (chats_of r.2).*1 = [new_chat_id]).
Proof.
  intros Hfile.
  assert (chats_of s = []) as Hnil.
  { rewrite chats_of_eq. by destruct Hfile as [-> | ->]. }
  split.
  { intros c. rewrite get_chat_by_id_value, get_chat_messages_value,
      get_chat_summary_value, Hnil. done. }
  split.
  { destruct (get_all_chats_value s) as [-> _]. by rewrite Hnil. }
  destruct (cleanup_empty_chats_run s) as [Hc1 Hc2]. rewrite Hnil in Hc1, Hc2.
  split; [done|]. split; [done|].
  split.
  { intros c role content. apply save_message_to_chat_absent. by rewrite Hnil. }
  split.
  { intros c first_message. apply update_chat_title_absent. by rewrite Hnil. }
  split.
  { intros c. apply delete_chat_absent. by rewrite Hnil. }
  intros fuel custom_id Hw r.
  pose proof (create_new_chat_run fuel custom_id s) as Hrun.
  fold r in Hrun. cbv zeta in Hrun. rewrite Hnil in Hrun.
  destruct r.1 as [id|].
  - destruct Hrun as (_ & _ & Hf). rewrite Hw in Hf.
    apply chats_of_stored in Hf. exists id. by rewrite Hf.
  - by destruct Hrun as [? _].
Qed.

Lemma unreadable_history_is_empty_witness :
  (ChatService.get_chat_messages "c" empty_disk).1 = [] ∧
  (ChatService.delete_chat "c" empty_disk).1 = false.
Proof.
  destruct (unreadable_history_is_empty empty_disk) as (H1 & _ & _ & _ & _ & _ & H2 & _).
  - by left.
  - destruct (H1 "c") as (_ & Hm & _). destruct (H2 "c") as [Hd _].
    split; [exact Hm|exact Hd].
Defined.

(** ** Switching sessions on the page *)

Lemma load_chat_messages_from_history_value c msgs w :
  truthy c = true →
  (load_chat_messages_from_history c msgs w).1 =
    match msgs with
    | [] => true
    | _ => bool_decide (valid_contents (slots_of msgs) ≠ [])
    end.
Proof.
  intros Ht. destruct (transcript_decompose msgs) as [Hd Hl].
  pose proof (load_chat_messages_from_history_slots c (slots_of msgs)
                (tail_of msgs) w Ht Hl) as H.
  cbv zeta in H. rewrite <- Hd in H. rewrite H. cbn [fst].
  destruct msgs as [|m msgs]; [done|].
  apply bool_decide_ext. unfold recent_pairs_of. rewrite slice_last_length.
  assert (1 ≤ max_pairs_of (max_memory_size (memory_manager w)))
    by (unfold max_pairs_of; lia).
  destruct (valid_contents (slots_of (m :: msgs))) as [|x l]; cbn [length].
  - split; [lia|done].
  - split; [done|lia].
Qed.

Lemma handle_chat_switching_run p c :
  session_current_chat_id (session_state p) = Some c →
  truthy c = true →
  memory_loaded_for_chat (session_state p) ≠ Some c →
  let msgs := (ChatService.get_chat_messages c (page_service p)).1 in
  let r := load_chat_messages_from_history c (ChatService.as_py_message <$> msgs)
             (page_world p) in
  _handle_chat_switching p =
    {| page_world := r.2;
       page_service := (ChatService.get_chat_messages c (page_service p)).2;
       session_state :=
         {| session_current_chat_id := Some c;
            memory_loaded_for_chat :=
              if r.1 then Some c else memory_loaded_for_chat (session_state p);
            current_chat_messages := msgs |};
       page_logs :=
         page_logs p ++
         [if r.1 then (INFO, LoadedMemoryFor c)
          else (WARNING, FailedToLoadMemoryFor c)] |}.
Proof.
  intros Hc Ht Hl. cbv zeta. unfold _handle_chat_switching. cbv zeta.
  rewrite Hc, Ht, bool_decide_eq_true_2 by done.
  destruct (ChatService.get_chat_messages c (page_service p)) as [msgs service].
  cbn [fst snd].
  by destruct (load_chat_messages_from_history c
                 (ChatService.as_py_message <$> msgs) (page_world p)).
Qed.

Lemma handle_chat_switching_loaded p c :
  session_current_chat_id (session_state p) = Some c →
  memory_loaded_for_chat (session_state p) = Some c →
  _handle_chat_switching p = p.
Proof.
  intros Hc Hl. unfold _handle_chat_switching. cbv zeta. rewrite Hc, Hl.
  destruct (truthy c); [|done]. by rewrite bool_decide_eq_false_2 by (by intros ?).
Qed.

Lemma get_chat_messages_file c s :
  ChatService.file (ChatService.get_chat_messages c s).2 = ChatService.file s.
Proof.
  unfold ChatService.get_chat_messages. sunfold.
  destruct (ChatService.file s) eqn:E; cbn; rewrite ?E; try done.
  by destruct (ChatService.dict_get c chat_data); cbn; rewrite ?E.
Qed.

(** X29. When the selected chat is not the one whose memory is loaded,
    [_handle_chat_switching] reads the stored messages of the chat, shows
    them, and rehydrates the chat's memory from them, writing nothing to
    the file.  The chat is marked as loaded exactly if it has no stored
    message or at least one well-formed pair; once marked, a further run
    changes nothing.  A chat with stored messages but no well-formed pair
    is never marked: every run empties its memory again. *)
Theorem handle_chat_switching_loads (p : Page) (c : string) :
  session_current_chat_id (session_state p) = Some c →
  truthy c = true →
  memory_loaded_for_chat (session_state p) ≠ Some c →
  let p' := _handle_chat_switching p in
  let msgs := (ChatService.get_chat_messages c (page_service p)).1 in
  let slots := slots_of (ChatService.as_py_message <$> msgs) in
  current_chat_messages (session_state p') = msgs ∧
  session_current_chat_id (session_state p') = Some c ∧
  memory_manager (page_world p') = rehydrated c slots (page_world p) ∧
  ChatService.file (page_service p') = ChatService.file (page_service p) ∧
  (memory_loaded_for_chat (session_state p') = Some c ↔
   msgs = [] ∨ valid_contents slots ≠ []) ∧
  (memory_loaded_for_chat (session_state p') = Some c →
   _handle_chat_switching p' = p') ∧
  (msgs ≠ [] → valid_contents slots = [] →
   memory_loaded_for_chat (session_state p') =
     memory_loaded_for_chat (session_state p) ∧
   messages_of (page_world p') c = []).
Proof.
  intros Hc Ht Hl p' msgs slots.
  pose proof (handle_chat_switching_run p c Hc Ht Hl) as Hrun.
  cbv zeta in Hrun. fold p' msgs in Hrun.
  pose proof (load_chat_messages_from_history_value c
                (ChatService.as_py_message <$> msgs) (page_world p) Ht) as Hv.
  fold slots in Hv.
  pose proof (load_chat_messages_from_history_manager c
                (ChatService.as_py_message <$> msgs) (page_world p) Ht) as Hm.
  fold slots in Hm.
  set (r := load_chat_messages_from_history c
              (ChatService.as_py_message <$> msgs) (page_world p)) in *.
  rewrite Hrun. cbn [session_state page_world page_service
                     current_chat_messages session_current_chat_id
                     memory_loaded_for_chat].
  split; [done|]. split; [done|]. split; [done|].
  split; [apply get_chat_messages_file|].
  assert (r.1 = true ↔ msgs = [] ∨ valid_contents slots ≠ []) as Hiff.
  { rewrite Hv. destruct msgs as [|m msgs'] eqn:E.
    - split; [by left|done].
    - rewrite fmap_cons. rewrite bool_decide_eq_true.
      split; [by right|]. by intros [?|?]. }
  split.
  { rewrite <- Hiff. destruct r.1; [done|]. split; [done|]. done. }
  split.
  { intros Hloaded. rewrite <- Hrun. apply (handle_chat_switching_loaded _ c).
    - by rewrite Hrun.
    - rewrite Hrun. cbn [session_state memory_loaded_for_chat]. done. }
  intros Hne Hnone.
  assert (r.1 = false) as ->.
  { destruct r.1; [|done]. destruct Hiff as [Hiff _].
    by destruct (Hiff eq_refl). }
  split; [done|].
  unfold messages_of. rewrite Hm. unfold rehydrated.
  cbn [chat_memories set_chat_memory]. rewrite lookup_insert_eq.
  cbn [from_option Langchain.messages]. rewrite Hnone. done.
Qed.

Lemma handle_chat_switching_loads_witness :
  let p' := _handle_chat_switching sample_page in
  memory_loaded_for_chat (session_state p') = Some "c" ∧
  _handle_chat_switching p' = p'.
Proof.
  intros p'.
  destruct (handle_chat_switching_loads sample_page "c")
    as (_ & _ & _ & _ & Hiff & Hidem & _); [reflexivity|reflexivity|done|].
  fold p' in Hiff, Hidem.
  assert (memory_loaded_for_chat (session_state p') = Some "c") as Hl.
  { apply Hiff. right. vm_compute. discriminate. }
  split; [exact Hl|exact (Hidem Hl)].
Defined.

Lemma as_py_saved_messages s (l : list (string * string)) : ∀ n t,
  ChatService.as_py_message <$>
    imap (λ i m, saved_message s (n + i) (t + 2 * i) m) l =
  (λ m, Dict (Some m.1) (Some m.2)) <$> l.
Proof.
  induction l as [|m l IH]; intros n t; [done|].
  cbn [imap]. rewrite !fmap_cons. f_equal.
  rewrite <- (IH (S n) (S (S t))). f_equal. apply imap_ext.
  intros i x _. unfold compose. f_equal; lia.
Qed.

Lemma pair_rows_transcript ps :
  (λ m : string * string, Dict (Some m.1) (Some m.2)) <$> pair_rows ps =
  stored_transcript ps.
Proof.
  unfold pair_rows, stored_transcript, transcript.
  induction ps as [|p ps IH]; [done|].
  rewrite fmap_cons, !bind_cons, fmap_app, IH. done.
Qed.

Lemma pair_rows_length ps : length (pair_rows ps) = (2 * length ps)%nat.
Proof.
  unfold pair_rows. induction ps as [|p ps IH]; [done|].
  rewrite bind_cons, length_app, IH. simpl. lia.
Qed.

Lemma slots_of_transcript slots : slots_of (transcript slots) = slots.
Proof.
  unfold transcript. induction slots as [|[u a] slots IH]; [done|].
  rewrite bind_cons. simpl. by rewrite IH.
Qed.

(** X30. From saving to restoring: when the question and answer pairs of
    a conversation, none of them empty, were saved to a new chat under
    the roles "user" and "Virtual Assistant", selecting the chat on the
    page marks it as loaded, shows two messages per pair and leaves in
    the chat's buffer the most recent [max(1, window_size // 2)] pairs,
    oldest first; running the handler again changes nothing. *)
Theorem saved_conversation_is_restored (W : Z) (c : string)
    (ps : list (string * string)) (s : ChatService.ServiceWorld)
    (chat : ChatService.Chat) (p : Page) :
  truthy c = true →
  0 < W →
  manager_ok W (memory_manager (page_world p)) →
  ChatService.writable s = true →
  (ChatService.get_chat_by_id c s).1 = Some chat →
  ChatService.messages chat = Some [] →
  Forall non_empty_pair ps →
  page_service p = (save_messages c (pair_rows ps) s).2 →
  session_current_chat_id (session_state p) = Some c →
  memory_loaded_for_chat (session_state p) ≠ Some c →
  let p' := _handle_chat_switching p in
  memory_loaded_for_chat (session_state p') = Some c ∧
  length (current_chat_messages (session_state p')) = (2 * length ps)%nat ∧
  buffer_of (page_world p') c =
    pair_messages (slice_last (Z.to_nat (Z.max 1 (W `div` 2))) ps) ∧
  _handle_chat_switching p' = p'.
Proof.
  intros Ht HW Hok Hw Hc Hm Hps Hservice Hcur Hl p'.
  rewrite get_chat_by_id_value in Hc.
  destruct (save_messages_transcript c (pair_rows ps) s chat [] Hw Hc Hm)
    as (_ & _ & _ & _ & chat' & Hget & Hmsgs & _).
  rewrite <- Hservice in Hget.
  assert ((ChatService.get_chat_messages c (page_service p)).1 =
          imap (λ i m, saved_message s (0 + i) (ChatService.now_calls s + 2 * i) m)
               (pair_rows ps)) as Hstored.
  { by rewrite get_chat_messages_value, Hget, Hmsgs. }
  pose proof (handle_chat_switching_run p c Hcur Ht Hl) as Hrun.
  cbv zeta in Hrun. fold p' in Hrun. rewrite Hstored in Hrun.
  rewrite as_py_saved_messages, pair_rows_transcript in Hrun.
  set (r := load_chat_messages_from_history c (stored_transcript ps) (page_world p))
    in *.
  assert (r.1 = true) as Hr1.
  { unfold r. rewrite load_chat_messages_from_history_value by done.
    unfold stored_transcript. rewrite slots_of_transcript.
    rewrite valid_contents_stored by done.
    destruct ps as [|q ps']; [done|]. by rewrite fmap_cons. }
  rewrite Hr1 in Hrun.
  assert (memory_loaded_for_chat (session_state p') = Some c) as Hloaded.
  { by rewrite Hrun. }
  split; [done|]. split.
  { rewrite Hrun. cbn [session_state current_chat_messages].
    by rewrite length_imap, pair_rows_length. }
  split.
  { rewrite Hrun. cbn [page_world]. unfold r, stored_transcript.
    rewrite <- (app_nil_r (transcript _)).
    rewrite (rehydrated_buffer W) by (simpl; done || lia).
    by rewrite valid_contents_stored. }
  apply (handle_chat_switching_loaded _ c); [by rewrite Hrun|done].
Qed.

Lemma saved_conversation_is_restored_witness :
  let p' := _handle_chat_switching sample_page in
  buffer_of (page_world p') "c" = [HumanMessage "hi"; AIMessage "hello"].
Proof.
  intros p'.
  destruct (saved_conversation_is_restored 6 "c" [("hi", "hello")] one_chat_disk
              {| ChatService.created_at := Some "t0";
                 ChatService.updated_at := Some "t1";
                 ChatService.title := Some "New Chat";
                 ChatService.messages := Some [];
                 ChatService.fresh_context := Some true;
                 ChatService.message_count := Some 0 |} sample_page)
    as (_ & _ & H & _).
  - reflexivity.
  - lia.
  - apply reachable_ok. by exists test_uuid4, [].
  - reflexivity.
  - reflexivity.
  - reflexivity.
  - constructor; [by split|constructor].
  - reflexivity.
  - reflexivity.
  - done.
  - fold p' in H. rewrite H. reflexivity.
Defined.
